(** * BerryDB page pool and libc VFS: a shallow embedding

    The development follows [src/page_pool.cc] and [src/vfs/libc_vfs.cc].
    The page pool is embedded in its checked build ([DCHECK_IS_ON()]): a
    failed [DCHECK] aborts the operation, which the embedding renders as
    [None] in a state-and-failure monad.  Pointers to [Page] objects are
    addresses into an explicit heap, so the aliasing between the free list,
    the LRU list and the resident map is kept. *)

From stdpp Require Import gmap list strings.
From Stdlib Require Import NArith Lia.

Set Default Proof Using "Type".
Open Scope nat_scope.

(** ** Status codes *)

(** Modelled from the spec: [berrydb/status.h] is not part of the
    available sources; the constructors are the observable status codes the
    specification lists. *)
Inductive Status : Type :=
  | kSuccess
  | kIoError
  | kNotFound
  | kAlreadyLocked
  | kPoolFull.

#[global] Instance Status_eq_dec : EqDecision Status.
Proof. solve_decision. Defined.

(** ** Identities *)

(** A [Page*] is the address of the page object in the heap. *)
Abbreviation PagePtr := nat (only parsing).
(** A [StoreImpl*] is the identity of an open store. *)
Abbreviation StorePtr := nat (only parsing).

(** Modelled from the spec: [TransactionImpl] is declared outside the available sources.  A transaction names its owning store ([store()]);
    the serial number tells the transactions of one store apart. *)
Record TransactionImpl : Type := mkTransaction {
  txn_store : StorePtr;
  txn_serial : nat;
}.

#[global] Instance TransactionImpl_eq_dec : EqDecision TransactionImpl.
Proof. solve_decision. Defined.

(** Modelled from the spec: [PagePool::PageFetchMode] is declared in
    [page_pool.h], which is not part of the available sources. *)
Inductive PageFetchMode : Type :=
  | kFetchPageData
  | kIgnorePageData.

#[global] Instance PageFetchMode_eq_dec : EqDecision PageFetchMode.
Proof. solve_decision. Defined.

(** ** Pages *)

(** Modelled from the spec: the [Page] class ([page.h]) is not part of
    the available sources.  The fields are the frame attributes of the
    specification's data model: the pin count, the dirty flag, the
    assignment (owning transaction and page id) and the buffer. *)
Record Page : Type := mkPage {
  pin_count_ : nat;
  is_dirty_ : bool;
  transaction_ : option TransactionImpl;
  page_id_ : nat;
  buffer_ : list N;
}.

(** The key under which an assigned page is resident. *)
Definition assignment (pg : Page) : option (StorePtr * nat) :=
  match transaction_ pg with
  | Some t => Some (txn_store t, page_id_ pg)
  | None => None
  end.

(** ** The collaborators' world *)

(** Calls that leave the pool, and the mutations of the resident map, in
    program order. *)
Inductive Event : Type :=
  | EvReadPage (store : StorePtr) (page_id : nat)
  | EvWritePage (store : StorePtr) (page_id : nat)
  | EvClose (store : StorePtr)
  | EvAssignPage (t : TransactionImpl) (page : PagePtr) (page_id : nat)
  | EvUnassignPage (t : TransactionImpl) (page : PagePtr)
  | EvUnassignPersistedPage (t : TransactionImpl) (page : PagePtr)
  | EvMapErase (store : StorePtr) (page_id : nat)
  | EvMapInsert (store : StorePtr) (page_id : nat) (page : PagePtr)
  | EvCreate (page : PagePtr)
  | EvRelease (page : PagePtr).

#[global] Instance Event_eq_dec : EqDecision Event.
Proof. solve_decision. Defined.

(** The environment of the pool: the log of events, the outcomes the
    stores' media will give to the coming reads and writes (an exhausted
    script answers [kSuccess]), the data files, and the stores that were
    closed. *)
Record World : Type := mkWorld {
  trace : list Event;
  read_script : list Status;
  write_script : list Status;
  disk : gmap (StorePtr * nat) (list N);
  closed_stores : list StorePtr;
}.

(** ** The pool state *)

(** The data members of [PagePool], the heap holding the [Page] objects the
    pool created, and the world.  [free_list_] and [lru_list_] are the
    intrusive lists, front first; [log_list_], which [page_pool.cc] only
    initializes, is left out.  [page_count_] is a [size_t] that is only
    incremented while it is below [page_capacity_], so it never wraps and is
    kept as a natural number. *)
Record State : Type := mkState {
  page_shift_ : nat;
  page_size_ : N;
  page_capacity_ : nat;
  page_count_ : nat;
  free_list_ : list PagePtr;
  lru_list_ : list PagePtr;
  page_map_ : gmap (StorePtr * nat) PagePtr;
  heap : list Page;
  world : World;
}.

Definition set_page_count (n : nat) (st : State) : State :=
  mkState (page_shift_ st) (page_size_ st) (page_capacity_ st) n
          (free_list_ st) (lru_list_ st) (page_map_ st) (heap st) (world st).

Definition set_free_list (l : list PagePtr) (st : State) : State :=
  mkState (page_shift_ st) (page_size_ st) (page_capacity_ st) (page_count_ st)
          l (lru_list_ st) (page_map_ st) (heap st) (world st).

Definition set_lru_list (l : list PagePtr) (st : State) : State :=
  mkState (page_shift_ st) (page_size_ st) (page_capacity_ st) (page_count_ st)
          (free_list_ st) l (page_map_ st) (heap st) (world st).

Definition set_page_map (m : gmap (StorePtr * nat) PagePtr) (st : State) : State :=
  mkState (page_shift_ st) (page_size_ st) (page_capacity_ st) (page_count_ st)
          (free_list_ st) (lru_list_ st) m (heap st) (world st).

Definition set_heap (h : list Page) (st : State) : State :=
  mkState (page_shift_ st) (page_size_ st) (page_capacity_ st) (page_count_ st)
          (free_list_ st) (lru_list_ st) (page_map_ st) h (world st).

Definition set_world (w : World) (st : State) : State :=
  mkState (page_shift_ st) (page_size_ st) (page_capacity_ st) (page_count_ st)
          (free_list_ st) (lru_list_ st) (page_map_ st) (heap st) w.

Definition log_event (e : Event) (w : World) : World :=
  mkWorld (trace w ++ [e]) (read_script w) (write_script w) (disk w)
          (closed_stores w).

(** ** The monad of pool operations *)

(** A computation over a state of type [S] that may abort. *)
Definition ST (S A : Type) : Type := S → option (A * S).

(** The pool's operations run over the pool state. *)
Abbreviation M := (ST State).

Definition ret {S A} (a : A) : ST S A := λ st, Some (a, st).

Definition bind {S A B} (m : ST S A) (k : A → ST S B) : ST S B :=
  λ st, match m st with
        | Some (a, st') => k a st'
        | None => None
        end.

Notation "'let!' x := m 'in' k" := (bind m (λ x, k))
  (at level 10, x name, m at level 100, k at level 200, only parsing).
Notation "'do!' m 'in' k" := (bind m (λ _, k))
  (at level 10, m at level 100, k at level 200, only parsing).

(** [DCHECK(b)] in the checked build. *)
Definition DCHECK {S} (b : bool) : ST S unit :=
  λ st, if b then Some (tt, st) else None.

Definition gets {S A} (f : S → A) : ST S A := λ st, Some (f st, st).
Definition modify {S} (f : S → S) : ST S unit := λ st, Some (tt, f st).
Definition emit (e : Event) : M unit :=
  modify (λ st, set_world (log_event e (world st)) st).

(** Reading through a [Page*]; a pointer that is not the address of a page
    has no defined behaviour. *)
Definition deref (page : PagePtr) : M Page :=
  λ st, match heap st !! page with
        | Some pg => Some (pg, st)
        | None => None
        end.

Definition assign (page : PagePtr) (pg : Page) : M unit :=
  modify (λ st, set_heap (<[page := pg]> (heap st)) st).

(** ** [Page] methods *)

Definition with_pin_count (n : nat) (pg : Page) : Page :=
  mkPage n (is_dirty_ pg) (transaction_ pg) (page_id_ pg) (buffer_ pg).
Definition with_dirty (d : bool) (pg : Page) : Page :=
  mkPage (pin_count_ pg) d (transaction_ pg) (page_id_ pg) (buffer_ pg).
Definition with_assignment (t : option TransactionImpl) (id : nat) (pg : Page)
  : Page :=
  mkPage (pin_count_ pg) (is_dirty_ pg) t id (buffer_ pg).
Definition with_buffer (b : list N) (pg : Page) : Page :=
  mkPage (pin_count_ pg) (is_dirty_ pg) (transaction_ pg) (page_id_ pg) b.

Module Page.

(** Modelled from the spec: [Page::Create] ([page.cc]) is not part of the available sources.  A new frame is zero-initialized, born pinned
    (pin count one), unassigned and clean. *)
Definition Create : M PagePtr :=
  λ st,
    let page := length (heap st) in
    let pg := mkPage 1 false None 0
                     (replicate (N.to_nat (page_size_ st)) 0%N) in
    Some (page, set_world (log_event (EvCreate page) (world st))
                          (set_heap (heap st ++ [pg]) st)).

(** Modelled from the spec: [Page::Release] returns the frame's memory. *)
Definition Release (page : PagePtr) : M unit :=
  do! deref page in
  emit (EvRelease page).

(** Modelled from the spec: [AddPin()] increments the pin count. *)
Definition AddPin (page : PagePtr) : M unit :=
  let! pg := deref page in
  assign page (with_pin_count (S (pin_count_ pg)) pg).

(** Modelled from the spec: [RemovePin()] decrements the pin count and is
    a design error if it is already zero. *)
Definition RemovePin (page : PagePtr) : M unit :=
  let! pg := deref page in
  do! DCHECK (negb (pin_count_ pg =? 0)) in
  assign page (with_pin_count (pred (pin_count_ pg)) pg).

(** Modelled from the spec: [IsUnpinned()] is [pin_count == 0]. *)
Definition IsUnpinned (page : PagePtr) : M bool :=
  let! pg := deref page in ret (pin_count_ pg =? 0).

(** Modelled from the spec: the accessors of the frame's assignment and
    dirty flag; a null [transaction()] is [None]. *)
Definition transaction (page : PagePtr) : M (option TransactionImpl) :=
  let! pg := deref page in ret (transaction_ pg).

Definition page_id (page : PagePtr) : M nat :=
  let! pg := deref page in ret (page_id_ pg).

Definition is_dirty (page : PagePtr) : M bool :=
  let! pg := deref page in ret (is_dirty_ pg).

(** Modelled from the spec: [WillCacheStoreData] sets the assignment;
    the frame must be unassigned. *)
Definition WillCacheStoreData (page : PagePtr) (t : TransactionImpl)
    (id : nat) : M unit :=
  let! pg := deref page in
  do! DCHECK (bool_decide (transaction_ pg = None)) in
  assign page (with_assignment (Some t) id pg).

(** Modelled from the spec: [DoesNotCacheStoreData] resets the frame to
    unassigned and clears the dirty flag; the frame must be assigned. *)
Definition DoesNotCacheStoreData (page : PagePtr) : M unit :=
  let! pg := deref page in
  do! DCHECK (negb (bool_decide (transaction_ pg = None))) in
  assign page (with_dirty false (with_assignment None (page_id_ pg) pg)).

(** Modelled from the spec: [MarkDirty] sets the dirty flag of an
    assigned frame; only the owning transaction calls it. *)
Definition MarkDirty (page : PagePtr) : M unit :=
  let! pg := deref page in
  do! DCHECK (negb (bool_decide (transaction_ pg = None))) in
  assign page (with_dirty true pg).

End Page.

(** ** The transaction collaborator *)

Module TransactionImpl.

Definition store (t : TransactionImpl) : StorePtr := txn_store t.

(** Modelled from the spec: [AssignPage] records that the frame belongs
    to the transaction at the page id. *)
Definition AssignPage (t : TransactionImpl) (page : PagePtr) (id : nat)
  : M unit :=
  do! Page.WillCacheStoreData page t id in
  emit (EvAssignPage t page id).

(** Modelled from the spec: [UnassignPage] records the detachment of a
    clean frame, which becomes unassigned. *)
Definition UnassignPage (t : TransactionImpl) (page : PagePtr) : M unit :=
  do! emit (EvUnassignPage t page) in
  Page.DoesNotCacheStoreData page.

(** Modelled from the spec: [UnassignPersistedPage] records the
    detachment of a dirty frame after the write-back attempt; the frame
    becomes unassigned and clean. *)
Definition UnassignPersistedPage (t : TransactionImpl) (page : PagePtr)
  : M unit :=
  do! emit (EvUnassignPersistedPage t page) in
  Page.DoesNotCacheStoreData page.

End TransactionImpl.

(** ** The store collaborator *)

Definition pop_read_script (w : World) : Status * World :=
  match read_script w with
  | s :: rest =>
      (s, mkWorld (trace w) rest (write_script w) (disk w) (closed_stores w))
  | [] => (kSuccess, w)
  end.

Definition pop_write_script (w : World) : Status * World :=
  match write_script w with
  | s :: rest =>
      (s, mkWorld (trace w) (read_script w) rest (disk w) (closed_stores w))
  | [] => (kSuccess, w)
  end.

Definition write_disk (key : StorePtr * nat) (data : list N) (w : World)
  : World :=
  mkWorld (trace w) (read_script w) (write_script w) (<[key := data]> (disk w))
          (closed_stores w).

Definition mark_closed (store : StorePtr) (w : World) : World :=
  mkWorld (trace w) (read_script w) (write_script w) (disk w)
          (store :: closed_stores w).

Module StoreImpl.

(** Modelled from the spec: [init_transaction()] is the store's bootstrap
    transaction, the owner of freshly assigned frames. *)
Definition init_transaction (store : StorePtr) : TransactionImpl :=
  mkTransaction store 0.

(** Modelled from the spec: [ReadPage] reads the page the frame is
    assigned to from the data file into the frame's buffer; the medium
    decides the status.  A page never written reads as zeros. *)
Definition ReadPage (store : StorePtr) (page : PagePtr) : M Status :=
  let! pg := deref page in
  do! emit (EvReadPage store (page_id_ pg)) in
  let! w := gets world in
  let '(status, w') := pop_read_script w in
  do! modify (set_world w') in
  if decide (status = kSuccess) then
    let! size := gets page_size_ in
    let data := default (replicate (N.to_nat size) 0%N)
                        (disk w' !! (store, page_id_ pg)) in
    do! assign page (with_buffer data pg) in
    ret status
  else ret status.

(** Modelled from the spec: [WritePage] writes the frame's buffer to the
    page's place in the data file; the medium decides the status. *)
Definition WritePage (store : StorePtr) (page : PagePtr) : M Status :=
  let! pg := deref page in
  do! emit (EvWritePage store (page_id_ pg)) in
  let! w := gets world in
  let '(status, w') := pop_write_script w in
  do! modify (set_world w') in
  if decide (status = kSuccess) then
    do! modify (λ st, set_world
                        (write_disk (store, page_id_ pg) (buffer_ pg)
                                    (world st)) st) in
    ret status
  else ret status.

(** Modelled from the spec: [Close] moves the store to its closed
    state. *)
Definition Close (store : StorePtr) : M unit :=
  do! emit (EvClose store) in
  modify (λ st, set_world (mark_closed store (world st)) st).

End StoreImpl.

(** ** The intrusive lists *)

(** Modelled from the spec: [LinkedList] ([util/linked_list.h]) is not part
    of the available sources.  The list is a sequence of page addresses,
    front first: [push_back] appends at the tail, [front] and [pop_front]
    work at the head, [erase] unlinks a node. *)
Module LinkedList.

Definition push_back (page : PagePtr) (l : list PagePtr) : list PagePtr :=
  l ++ [page].

Definition front (l : list PagePtr) : option PagePtr := head l.

Definition pop_front (l : list PagePtr) : list PagePtr := tail l.

Definition erase (page : PagePtr) (l : list PagePtr) : list PagePtr :=
  filter (λ p, p ≠ page) l.

End LinkedList.

(** ** [PagePool] *)

Module PagePool.

(** [PagePool::PagePool]: no frame is allocated at construction.  The page
    size is [1 << page_shift] on [size_t]; the constructor's check that it
    is a power of two cannot fail. *)
Definition new (page_shift page_capacity : nat) (w : World) : State :=
  mkState page_shift ((2 ^ N.of_nat page_shift) mod 2 ^ 64)%N page_capacity 0
          [] [] ∅ [] w.

(** [PagePool::UnpinUnassignedPage] *)
Definition UnpinUnassignedPage (page : PagePtr) : M unit :=
  let! t := Page.transaction page in
  do! DCHECK (bool_decide (t = None)) in
  do! Page.RemovePin page in
  let! unpinned := Page.IsUnpinned page in
  if unpinned then
    modify (λ st, set_free_list (LinkedList.push_back page (free_list_ st)) st)
  else ret tt.

(** Modelled from the spec: [PagePool::UnpinStorePage] is defined in
    [page_pool.h], which is not part of the available sources.  The frame
    must be assigned; its pin count is decremented and, when it reaches
    zero, the frame is appended to the LRU list. *)
Definition UnpinStorePage (page : PagePtr) : M unit :=
  let! t := Page.transaction page in
  do! DCHECK (negb (bool_decide (t = None))) in
  do! Page.RemovePin page in
  let! unpinned := Page.IsUnpinned page in
  if unpinned then
    modify (λ st, set_lru_list (LinkedList.push_back page (lru_list_ st)) st)
  else ret tt.

(** [PagePool::UnassignPageFromStore] *)
Definition UnassignPageFromStore (page : PagePtr) : M unit :=
  let! t := Page.transaction page in
  match t with
  | None => DCHECK false
  | Some transaction =>
      let store := TransactionImpl.store transaction in
      let! id := Page.page_id page in
      let! map := gets page_map_ in
      do! DCHECK (bool_decide (is_Some (map !! (store, id)))) in
      do! modify (set_page_map (delete (store, id) map)) in
      do! emit (EvMapErase store id) in
      let! dirty := Page.is_dirty page in
      if dirty then
        let! write_status := StoreImpl.WritePage store page in
        do! TransactionImpl.UnassignPersistedPage transaction page in
        if decide (write_status ≠ kSuccess) then StoreImpl.Close store
        else ret tt
      else
        TransactionImpl.UnassignPage transaction page
  end.

(** [PagePool::AllocPage].  A list is not [empty()] exactly when it has a
    [front()]. *)
Definition AllocPage : M (option PagePtr) :=
  let! free := gets free_list_ in
  match LinkedList.front free with
  | Some page =>
      do! modify (set_free_list (LinkedList.pop_front free)) in
      do! Page.AddPin page in
      let! t := Page.transaction page in
      do! DCHECK (bool_decide (t = None)) in
      let! dirty := Page.is_dirty page in
      do! DCHECK (negb dirty) in
      ret (Some page)
  | None =>
      let! count := gets page_count_ in
      let! capacity := gets page_capacity_ in
      if count <? capacity then
        do! modify (set_page_count (S count)) in
        let! page := Page.Create in
        ret (Some page)
      else
        let! lru := gets lru_list_ in
        match LinkedList.front lru with
        | Some page =>
            do! Page.AddPin page in
            do! modify (set_lru_list (LinkedList.pop_front lru)) in
            do! UnassignPageFromStore page in
            ret (Some page)
        | None => ret None
        end
  end.

(** [PagePool::FetchStorePage], with the checked build's fill of the
    buffer by the byte 0xCD. *)
Definition FetchStorePage (page : PagePtr) (fetch_mode : PageFetchMode)
  : M Status :=
  let! t := Page.transaction page in
  match t with
  | None => do! DCHECK false in ret kSuccess
  | Some transaction =>
      if decide (fetch_mode = kFetchPageData) then
        StoreImpl.ReadPage (TransactionImpl.store transaction) page
      else
        let! pg := deref page in
        let! size := gets page_size_ in
        do! assign page
              (with_buffer (replicate (N.to_nat size) 205%N) pg) in
        ret kSuccess
  end.

(** [PagePool::AssignPageToStore] *)
Definition AssignPageToStore (page : PagePtr) (store : StorePtr)
    (page_id : nat) (fetch_mode : PageFetchMode) : M Status :=
  let! t := Page.transaction page in
  do! DCHECK (bool_decide (t = None)) in
  let transaction := StoreImpl.init_transaction store in
  do! TransactionImpl.AssignPage transaction page page_id in
  let! fetch_status := FetchStorePage page fetch_mode in
  if decide (fetch_status = kSuccess) then
    do! modify (λ st, set_page_map
                        (<[(store, page_id) := page]> (page_map_ st)) st) in
    do! emit (EvMapInsert store page_id page) in
    ret kSuccess
  else
    do! TransactionImpl.UnassignPage transaction page in
    ret fetch_status.

(** [PagePool::PinStorePage].  Erasing a node that is not linked in the
    list has no defined behaviour. *)
Definition PinStorePage (page : PagePtr) : M unit :=
  let! t := Page.transaction page in
  do! DCHECK (negb (bool_decide (t = None))) in
  let! unpinned := Page.IsUnpinned page in
  do! (if unpinned then
         let! lru := gets lru_list_ in
         do! DCHECK (bool_decide (page ∈ lru)) in
         modify (set_lru_list (LinkedList.erase page lru))
       else ret tt) in
  Page.AddPin page.

(** [PagePool::PinTransactionPages]: the loop over the transaction's
    list of pages. *)
Fixpoint PinTransactionPages (page_list : list PagePtr) : M unit :=
  match page_list with
  | [] => ret tt
  | page :: rest =>
      let! t := Page.transaction page in
      do! DCHECK (negb (bool_decide (t = None))) in
      do! PinStorePage page in
      PinTransactionPages rest
  end.

(** [PagePool::StorePage]; the second component is what the call leaves
    in [*result]. *)
Definition StorePage (store : StorePtr) (page_id : nat)
    (fetch_mode : PageFetchMode) : M (Status * option PagePtr) :=
  let! map := gets page_map_ in
  match map !! (store, page_id) with
  | Some page =>
      let! pg := deref page in
      do! DCHECK (bool_decide (assignment pg = Some (store, page_id))) in
      do! PinStorePage page in
      ret (kSuccess, Some page)
  | None =>
      let! alloc := AllocPage in
      match alloc with
      | None => ret (kPoolFull, None)
      | Some page =>
          let! status := AssignPageToStore page store page_id fetch_mode in
          if decide (status = kSuccess) then ret (status, Some page)
          else
            do! UnpinUnassignedPage page in
            let! unpinned := Page.IsUnpinned page in
            do! DCHECK unpinned in
            ret (status, None)
      end
  end.

(** Modelled from the spec: [pinned_pages()] is defined in [page_pool.h],
    which is not part of the available sources; it is the total pin count
    across all frames. *)
Definition pinned_pages (st : State) : nat :=
  sum_list (pin_count_ <$> heap st).

Fixpoint release_all (pages : list PagePtr) : M unit :=
  match pages with
  | [] => ret tt
  | page :: rest => do! Page.Release page in release_all rest
  end.

(** [PagePool::~PagePool]: the world that is left once the pool is
    gone. *)
Definition destroy (st : State) : option World :=
  match
    (do! DCHECK (pinned_pages st =? 0) in
     let! free := gets free_list_ in
     do! release_all free in
     let! lru := gets lru_list_ in
     release_all lru) st
  with
  | Some (_, st') => Some (world st')
  | None => None
  end.

End PagePool.

(** ** The pool invariant *)

(** The consistency of a pool state between two operations: the heap holds
    exactly the frames counted by [page_count_], at most [page_capacity_] of
    them; the lists have no repetition; the free list holds exactly the
    unpinned unassigned frames, the LRU list exactly the unpinned assigned
    ones; the resident map holds exactly the assignments of the frames; an
    unassigned frame is clean. *)
Record pool_invariant (st : State) : Prop := mkInv {
  inv_count : length (heap st) = page_count_ st;
  inv_capacity : page_count_ st ≤ page_capacity_ st;
  inv_free_nodup : NoDup (free_list_ st);
  inv_lru_nodup : NoDup (lru_list_ st);
  inv_free : ∀ f : PagePtr,
    f ∈ free_list_ st ↔
    ∃ pg, heap st !! f = Some pg ∧ pin_count_ pg = 0 ∧ transaction_ pg = None;
  inv_lru : ∀ f : PagePtr,
    f ∈ lru_list_ st ↔
    ∃ pg, heap st !! f = Some pg ∧ pin_count_ pg = 0 ∧ transaction_ pg ≠ None;
  inv_map : ∀ (k : StorePtr * nat) (f : PagePtr),
    page_map_ st !! k = Some f ↔
    ∃ pg, heap st !! f = Some pg ∧ assignment pg = Some k;
  inv_clean : ∀ (f : PagePtr) pg,
    heap st !! f = Some pg → transaction_ pg = None → is_dirty_ pg = false;
}.

(** The operations a client of the pool performs. *)
Inductive Op : Type :=
  | OpStorePage (store : StorePtr) (page_id : nat) (fetch_mode : PageFetchMode)
  | OpUnpinStorePage (page : PagePtr)
  | OpUnpinUnassignedPage (page : PagePtr)
  | OpPinTransactionPages (page_list : list PagePtr)
  | OpAllocPage
  | OpMarkDirty (page : PagePtr).

Definition run_op (op : Op) : M unit :=
  match op with
  | OpStorePage store page_id fetch_mode =>
      do! PagePool.StorePage store page_id fetch_mode in ret tt
  | OpUnpinStorePage page => PagePool.UnpinStorePage page
  | OpUnpinUnassignedPage page => PagePool.UnpinUnassignedPage page
  | OpPinTransactionPages page_list => PagePool.PinTransactionPages page_list
  | OpAllocPage => do! PagePool.AllocPage in ret tt
  | OpMarkDirty page => Page.MarkDirty page
  end.

(** The states a pool goes through: a freshly constructed pool, then any
    operation that runs to its end. *)
Inductive reachable : State → Prop :=
  | reachable_new page_shift page_capacity w :
      reachable (PagePool.new page_shift page_capacity w)
  | reachable_step st op st' :
      reachable st → run_op op st = Some (tt, st') → reachable st'.

(** The frame as eviction leaves it. *)
Definition evicted (pg : Page) : Page :=
  with_dirty false (with_assignment None (page_id_ pg) pg).

(** ** Runs used as concrete inputs *)

(** A world whose media never fail. *)
Definition quiet_world : World := mkWorld [] [] [] ∅ [].

(** The state a run leaves; a run that aborts leaves the state alone. *)
Definition exec {A} (m : M A) (st : State) : State :=
  match m st with
  | Some (_, st') => st'
  | None => st
  end.

Definition run_ops (ops : list Op) (st : State) : State :=
  foldl (λ st op, exec (run_op op) st) st ops.

(** Two frames, both pinned by their clients: the pool is full. *)
Definition two_pinned : State :=
  run_ops [OpStorePage 7 1 kFetchPageData; OpStorePage 7 2 kFetchPageData]
          (PagePool.new 12 2 quiet_world).

(** One resident page, unpinned and waiting in the LRU list. *)
Definition one_resident : State :=
  run_ops [OpStorePage 7 7 kFetchPageData; OpUnpinStorePage 0]
          (PagePool.new 12 4 quiet_world).

(** Two frames handed out by [AllocPage] and given back, frame 0 first. *)
Definition two_freed : State :=
  run_ops [OpAllocPage; OpAllocPage; OpUnpinUnassignedPage 0;
           OpUnpinUnassignedPage 1]
          (PagePool.new 12 42 quiet_world).

(** As [two_freed], on a medium whose next read fails. *)
Definition two_freed_read_fails : State :=
  run_ops [OpAllocPage; OpAllocPage; OpUnpinUnassignedPage 0;
           OpUnpinUnassignedPage 1]
          (PagePool.new 12 42 (mkWorld [] [kIoError] [] ∅ [])).

(** A pool of one frame whose only page is dirty and unpinned; the next
    write to the medium and the next read from it will fail. *)
Definition dirty_victim (reads writes : list Status) : State :=
  run_ops [OpStorePage 7 1 kFetchPageData; OpMarkDirty 0; OpUnpinStorePage 0]
          (PagePool.new 12 1 (mkWorld [] (kSuccess :: reads) writes ∅ [])).

(** One resident page, dirty and still pinned by its client. *)
Definition dirty_pinned : State :=
  run_ops [OpStorePage 7 1 kFetchPageData; OpMarkDirty 0]
          (PagePool.new 12 1 quiet_world).

(** ** Order of events *)

(** The events a run added to the log. *)
Definition new_events (st st' : State) : list Event :=
  drop (length (trace (world st))) (trace (world st')).

(** [e1] is logged before [e2]. *)
Definition logged_before (e1 e2 : Event) (events : list Event) : Prop :=
  ∃ i j, events !! i = Some e1 ∧ events !! j = Some e2 ∧ i < j.

(** What the caller of an operation sees of the pool are the state [st]
    it runs from and the state [st'] it returns in.  In the caller's view
    the write-back of the page [key] happens before the entry of [key]
    leaves the resident map when every state the caller sees without the
    entry comes with the call of [WritePage] in the log. *)
Definition write_back_seen_before_removal (key : StorePtr * nat)
    (st st' : State) : Prop :=
  ∀ s, s = st ∨ s = st' →
    page_map_ s !! key = None →
    EvWritePage key.1 key.2 ∈ new_events st s.

(** ** The claims about failures, as they are stated *)

(** A miss of [StorePage] evicts the dirty frame at the front of the LRU
    list and the write-back fails: the claim is that the victim is detached
    and its store closed, and that [StorePage] still returns [kSuccess] and
    the frame, pinned and assigned to the requested key. *)
Definition write_failure_swallowed (fetch_mode : PageFetchMode)
    (store : StorePtr) (page_id : nat) (st : State) : Prop :=
  ∀ (victim : PagePtr) rest pg t,
    page_map_ st !! (store, page_id) = None →
    free_list_ st = [] → page_capacity_ st ≤ page_count_ st →
    lru_list_ st = victim :: rest →
    heap st !! victim = Some pg → transaction_ pg = Some t →
    is_dirty_ pg = true →
    hd kSuccess (write_script (world st)) ≠ kSuccess →
    ∃ st' pg',
      PagePool.StorePage store page_id fetch_mode st =
        Some ((kSuccess, Some victim), st') ∧
      EvWritePage (txn_store t) (page_id_ pg) ∈ new_events st st' ∧
      EvUnassignPersistedPage t victim ∈ new_events st st' ∧
      EvClose (txn_store t) ∈ new_events st st' ∧
      txn_store t ∈ closed_stores (world st') ∧
      heap st' !! victim = Some pg' ∧ pin_count_ pg' = 1 ∧
      assignment pg' = Some (store, page_id) ∧
      page_map_ st' !! (store, page_id) = Some victim ∧
      page_map_ st' !! (txn_store t, page_id_ pg) = None.

(** The fields of the pool a client can observe. *)
Definition observable (st : State)
  : nat * list PagePtr * list PagePtr * gmap (StorePtr * nat) PagePtr *
    list (nat * bool * option (StorePtr * nat)) :=
  (page_count_ st, free_list_ st, lru_list_ st, page_map_ st,
   (λ pg, (pin_count_ pg, is_dirty_ pg, assignment pg)) <$> heap st).

(** A miss of [StorePage] in fetch mode whose read fails with [kIoError]:
    the claim is that [kIoError] is returned, that the frame ends unpinned,
    unassigned and in the free list, that the key is not resident, and that
    nothing observable changed. *)
Definition failed_fetch_changes_nothing (store : StorePtr) (page_id : nat)
    (st : State) : Prop :=
  ∀ (f : PagePtr) st1 rest,
    page_map_ st !! (store, page_id) = None →
    PagePool.AllocPage st = Some (Some f, st1) →
    read_script (world st) = kIoError :: rest →
    ∃ st' pg',
      PagePool.StorePage store page_id kFetchPageData st =
        Some ((kIoError, None), st') ∧
      heap st' !! f = Some pg' ∧ pin_count_ pg' = 0 ∧
      transaction_ pg' = None ∧ f ∈ free_list_ st' ∧
      page_map_ st' !! (store, page_id) = None ∧
      observable st' = observable st.

(** ** List membership of a frame *)

Inductive ListMembership : Type :=
  | Free
  | LRU
  | NoList.

Definition list_membership (st : State) (f : PagePtr) : ListMembership :=
  if decide (f ∈ free_list_ st) then Free
  else if decide (f ∈ lru_list_ st) then LRU
  else NoList.

(** * The libc VFS *)

(** ** The C library *)

(** The C library is the environment of [libc_vfs.cc]: the files by path
    as the host has them, streams with a position, the writes a stream
    still holds in its buffer, and a script of the faults the platform
    injects (a call that can fail consumes one entry and fails when it is
    [true]; an exhausted script injects none).  A fault is a failure before
    any byte is transferred. *)
Module Libc.

Record Stream : Type := mkStream {
  stream_path : string;
  stream_pos : nat;
}.

(** [unwritten] holds, for a stream, the writes that are still in its
    buffer, the oldest first, each with the position it was made at. *)
Record t : Type := mk {
  files : gmap string (list N);
  streams : gmap nat Stream;
  next_stream : nat;
  faults : list bool;
  unwritten : gmap nat (list (nat * list N));
}.

Inductive Mode : Type :=
  | rb            (* "rb" *)
  | rb_plus       (* "rb+" *)
  | wb_plus       (* "wb+" *)
  | wb_plus_x     (* "wb+x" *)
  | ab_plus.      (* "ab+" *)

Inductive Whence : Type :=
  | SEEK_SET
  | SEEK_END.

Definition fault : ST t bool :=
  λ libc,
    match faults libc with
    | b :: rest =>
        Some (b, mk (files libc) (streams libc) (next_stream libc) rest
                    (unwritten libc))
    | [] => Some (false, libc)
    end.

Definition set_file (path : string) (data : list N) : ST t unit :=
  modify (λ libc, mk (<[path := data]> (files libc)) (streams libc)
                     (next_stream libc) (faults libc) (unwritten libc)).

Definition set_stream (fp : nat) (s : Stream) : ST t unit :=
  modify (λ libc, mk (files libc) (<[fp := s]> (streams libc))
                     (next_stream libc) (faults libc) (unwritten libc)).

Definition set_unwritten (fp : nat) (writes : option (list (nat * list N)))
  : ST t unit :=
  modify (λ libc, mk (files libc) (streams libc) (next_stream libc)
                     (faults libc)
                     (match writes with
                      | Some ws => <[fp := ws]> (unwritten libc)
                      | None => delete fp (unwritten libc)
                      end)).

(** A new stream starts with an empty buffer. *)
Definition open_stream (path : string) : ST t (option nat) :=
  let! fp := gets next_stream in
  do! modify (λ libc, mk (files libc)
                         (<[fp := mkStream path 0]> (streams libc))
                         (S fp) (faults libc)
                         (delete fp (unwritten libc))) in
  ret (Some fp).

(** Using a stream that is not open has no defined behaviour. *)
Definition stream (fp : nat) : ST t Stream :=
  λ libc, match streams libc !! fp with
          | Some s => Some (s, libc)
          | None => None
          end.

Definition contents (path : string) : ST t (list N) :=
  let! fs := gets files in ret (default [] (fs !! path)).

(** [bytes] written at [pos] over [data]; a write beyond the end of the
    file fills the gap with zeros. *)
Definition write_at (pos : nat) (bytes data : list N) : list N :=
  let padded := data ++ replicate (pos - length data) 0%N in
  take pos padded ++ bytes ++ drop (pos + length bytes) padded.

(** The buffered [writes] applied to [data], the oldest first. *)
Definition write_out (writes : list (nat * list N)) (data : list N)
  : list N :=
  foldl (λ d w, write_at w.1 w.2 d) data writes.

(** The file of stream [fp] as the stream sees it: what the host has, with
    the stream's own buffered writes on top. *)
Definition view (fp : nat) (s : Stream) : ST t (list N) :=
  let! data := contents (stream_path s) in
  let! buffered := gets unwritten in
  ret (write_out (default [] (buffered !! fp)) data).

(** The buffer of stream [fp] is written to its file and emptied. *)
Definition flush (fp : nat) (s : Stream) : ST t unit :=
  let! buffered := gets unwritten in
  match buffered !! fp with
  | Some writes =>
      let! data := contents (stream_path s) in
      do! set_file (stream_path s) (write_out writes data) in
      set_unwritten fp None
  | None => ret tt
  end.

(** [fopen]: a null stream is [None]. *)
Definition fopen (path : string) (mode : Mode) : ST t (option nat) :=
  let! failed := fault in
  if failed then ret None
  else
    let! fs := gets files in
    match mode, fs !! path with
    | rb, None | rb_plus, None => ret None
    | wb_plus_x, Some _ => ret None
    | rb, Some _ | rb_plus, Some _ | ab_plus, Some _ => open_stream path
    | wb_plus, _ | wb_plus_x, None | ab_plus, None =>
        do! set_file path [] in open_stream path
    end.

(** [fclose] writes the buffer out before the stream goes. *)
Definition fclose (fp : nat) : ST t unit :=
  let! s := stream fp in
  do! flush fp s in
  modify (λ libc, mk (files libc) (delete fp (streams libc))
                     (next_stream libc) (faults libc) (unwritten libc)).

(** [fseek]: the result is the call's return value, zero on success.  A
    seek writes the buffer out first. *)
Definition fseek (fp : nat) (offset : Z) (whence : Whence) : ST t Z :=
  let! s := stream fp in
  let! failed := fault in
  if failed then ret (-1)%Z
  else
    do! flush fp s in
    let! data := contents (stream_path s) in
    let target :=
      match whence with
      | SEEK_SET => offset
      | SEEK_END => (Z.of_nat (length data) + offset)%Z
      end in
    if (target <? 0)%Z then ret (-1)%Z
    else
      do! set_stream fp (mkStream (stream_path s) (Z.to_nat target)) in
      ret 0%Z.

(** [ftell]: the position, or -1. *)
Definition ftell (fp : nat) : ST t Z :=
  let! s := stream fp in
  let! failed := fault in
  if failed then ret (-1)%Z else ret (Z.of_nat (stream_pos s)).

(** [fread(buffer, size, 1, fp)]: the number of items read, and what
    the buffer received.  The bytes that are there are stored in the buffer
    also when they are fewer than [size] and no item is complete. *)
Definition fread (size : nat) (fp : nat) : ST t (nat * list N) :=
  let! s := stream fp in
  let! failed := fault in
  if failed then ret (0, [])
  else
    let! data := view fp s in
    let delivered := take size (drop (stream_pos s) data) in
    do! set_stream fp
          (mkStream (stream_path s) (stream_pos s + length delivered)) in
    ret (if (size =? 0) || (length delivered <? size) then 0 else 1,
         delivered).

(** [fwrite(data, size, 1, fp)]: the number of items written.  The bytes
    go to the stream's buffer; they reach the file when the buffer is
    written out, by [fflush], [fseek] or [fclose]. *)
Definition fwrite (bytes : list N) (fp : nat) : ST t nat :=
  let! s := stream fp in
  let! failed := fault in
  if failed || (length bytes =? 0) then ret 0
  else
    let! buffered := gets unwritten in
    do! set_unwritten fp
          (Some (default [] (buffered !! fp) ++ [(stream_pos s, bytes)])) in
    do! set_stream fp
          (mkStream (stream_path s) (stream_pos s + length bytes)) in
    ret 1.

(** [fflush]: zero on success, when the buffer has been written out. *)
Definition fflush (fp : nat) : ST t Z :=
  let! s := stream fp in
  let! failed := fault in
  if failed then ret (-1)%Z
  else
    do! flush fp s in
    ret 0%Z.

(** [setbuf(fp, nullptr)].  The model keeps every stream buffered: for a
    stream without a buffer each write is written out at once, and what
    holds of the files after the buffer is written out holds for it all
    the more. *)
Definition setbuf (fp : nat) : ST t unit :=
  do! stream fp in ret tt.

(** [remove]: zero on success. *)
Definition remove (path : string) : ST t Z :=
  let! failed := fault in
  let! fs := gets files in
  match fs !! path with
  | Some _ =>
      if failed then ret (-1)%Z
      else
        do! modify (λ libc, mk (delete path (files libc)) (streams libc)
                               (next_stream libc) (faults libc)
                               (unwritten libc)) in
        ret 0%Z
  | None => ret (-1)%Z
  end.

End Libc.

(** ** [libc_vfs.cc] *)

(** [size_t] is 64 bits wide. *)
Definition size_max : Z := (2 ^ 64)%Z.

(** The conversion of a [long] to [size_t]. *)
Definition to_size_t (z : Z) : N := Z.to_N (z mod size_max).

(** [static_cast<long>(offset)] *)
Definition to_long (offset : N) : Z :=
  if (Z.of_N offset <? 2 ^ 63)%Z then Z.of_N offset
  else (Z.of_N offset - size_max)%Z.

(** [x & (x - 1)] on [size_t] *)
Definition low_bits_clear (x : N) : N :=
  N.land x (Z.to_N ((Z.of_N x - 1) mod size_max)).

Module LibcVfs.

(** The platform the file is compiled for. *)
Inductive Platform : Type :=
  | Windows
  | Posix.

(** [OpenLibcFile] *)
Definition OpenLibcFile (platform : Platform) (file_path : string)
    (create_if_missing error_if_exists : bool)
  : ST Libc.t (option nat * N) :=
  do! DCHECK (negb error_if_exists || create_if_missing) in
  let! fp :=
    (if error_if_exists then
       match platform with
       | Windows =>
           let! probe := Libc.fopen file_path Libc.rb in
           match probe with
           | Some fp => do! Libc.fclose fp in ret None
           | None => Libc.fopen file_path Libc.wb_plus
           end
       | Posix => Libc.fopen file_path Libc.wb_plus_x
       end
     else
       do! (if create_if_missing then
              let! fp := Libc.fopen file_path Libc.ab_plus in
              match fp with
              | Some fp => Libc.fclose fp
              | None => ret tt
              end
            else ret tt) in
       Libc.fopen file_path Libc.rb_plus) in
  match fp with
  | Some fp =>
      let! seek := Libc.fseek fp 0 Libc.SEEK_END in
      if (seek =? 0)%Z then
        let! position := Libc.ftell fp in
        ret (Some fp, to_size_t position)
      else
        do! Libc.fclose fp in
        ret (None, 0%N)
  | None => ret (None, 0%N)
  end.

(** [ReadLibcFile]; the second component is what the buffer receives. *)
Definition ReadLibcFile (fp : nat) (offset : N) (size : nat)
  : ST Libc.t (Status * list N) :=
  let! seek := Libc.fseek fp (to_long offset) Libc.SEEK_SET in
  if negb (seek =? 0)%Z then ret (kIoError, [])
  else
    let! read := Libc.fread size fp in
    let '(items, data) := read in
    if negb (items =? 1) then ret (kIoError, data)
    else ret (kSuccess, data).

(** [WriteLibcFile] *)
Definition WriteLibcFile (fp : nat) (data : list N) (offset : N)
  : ST Libc.t Status :=
  let! seek := Libc.fseek fp (to_long offset) Libc.SEEK_SET in
  if negb (seek =? 0)%Z then ret kIoError
  else
    let! items := Libc.fwrite data fp in
    if negb (items =? 1) then ret kIoError
    else ret kSuccess.

(** [SyncLibcFile] *)
Definition SyncLibcFile (fp : nat) : ST Libc.t Status :=
  let! flushed := Libc.fflush fp in
  ret (if (flushed =? 0)%Z then kSuccess else kIoError).

End LibcVfs.

(** [LibcBlockAccessFile], with the block size of the checked build. *)
Record LibcBlockAccessFile : Type := mkBlockAccessFile {
  block_fp_ : nat;
  block_size_ : N;
}.

Module LibcBlockAccessFile.

Definition new (fp : nat) (block_shift : nat) : ST Libc.t LibcBlockAccessFile :=
  do! Libc.setbuf fp in
  ret (mkBlockAccessFile fp
         (Z.to_N ((2 ^ Z.of_nat block_shift) mod size_max))).

Definition Read (file : LibcBlockAccessFile) (offset : N) (size : nat)
  : ST Libc.t (Status * list N) :=
  do! DCHECK (low_bits_clear (N.of_nat size) =? 0)%N in
  do! DCHECK (N.land offset
                (Z.to_N ((Z.of_N (block_size_ file) - 1) mod size_max))
              =? 0)%N in
  LibcVfs.ReadLibcFile (block_fp_ file) offset size.

Definition Write (file : LibcBlockAccessFile) (data : list N) (offset : N)
  : ST Libc.t Status :=
  do! DCHECK (low_bits_clear (N.of_nat (length data)) =? 0)%N in
  do! DCHECK (N.land offset
                (Z.to_N ((Z.of_N (block_size_ file) - 1) mod size_max))
              =? 0)%N in
  LibcVfs.WriteLibcFile (block_fp_ file) data offset.

Definition Sync (file : LibcBlockAccessFile) : ST Libc.t Status :=
  LibcVfs.SyncLibcFile (block_fp_ file).

Definition Lock (file : LibcBlockAccessFile) : ST Libc.t Status :=
  ret kSuccess.

Definition Close (file : LibcBlockAccessFile) : ST Libc.t Status :=
  do! Libc.fclose (block_fp_ file) in
  ret kSuccess.

End LibcBlockAccessFile.

Record LibcRandomAccessFile : Type := mkRandomAccessFile {
  random_fp_ : nat;
}.

Module LibcRandomAccessFile.

Definition Read (file : LibcRandomAccessFile) (offset : N) (size : nat)
  : ST Libc.t (Status * list N) :=
  LibcVfs.ReadLibcFile (random_fp_ file) offset size.

Definition Write (file : LibcRandomAccessFile) (data : list N) (offset : N)
  : ST Libc.t Status :=
  LibcVfs.WriteLibcFile (random_fp_ file) data offset.

Definition Flush (file : LibcRandomAccessFile) : ST Libc.t Status :=
  let! flushed := Libc.fflush (random_fp_ file) in
  ret (if (flushed =? 0)%Z then kSuccess else kIoError).

Definition Sync (file : LibcRandomAccessFile) : ST Libc.t Status :=
  LibcVfs.SyncLibcFile (random_fp_ file).

Definition Close (file : LibcRandomAccessFile) : ST Libc.t Status :=
  do! Libc.fclose (random_fp_ file) in
  ret kSuccess.

End LibcRandomAccessFile.

Module Vfs.

(** [LibcVfs::OpenForRandomAccess] *)
Definition OpenForRandomAccess (platform : LibcVfs.Platform)
    (file_path : string) (create_if_missing error_if_exists : bool)
  : ST Libc.t (Status * option LibcRandomAccessFile * N) :=
  let! opened :=
    LibcVfs.OpenLibcFile platform file_path create_if_missing
                         error_if_exists in
  let '(fp, file_size) := opened in
  match fp with
  | None => ret (kIoError, None, 0%N)
  | Some fp => ret (kSuccess, Some (mkRandomAccessFile fp), file_size)
  end.

(** [LibcVfs::OpenForBlockAccess] *)
Definition OpenForBlockAccess (platform : LibcVfs.Platform)
    (file_path : string) (block_shift : nat)
    (create_if_missing error_if_exists : bool)
  : ST Libc.t (Status * option LibcBlockAccessFile * N) :=
  let! opened :=
    LibcVfs.OpenLibcFile platform file_path create_if_missing
                         error_if_exists in
  let '(fp, file_size) := opened in
  match fp with
  | None => ret (kIoError, None, 0%N)
  | Some fp =>
      let! file := LibcBlockAccessFile.new fp block_shift in
      ret (kSuccess, Some file, file_size)
  end.

(** [LibcVfs::RemoveFile] *)
Definition RemoveFile (file_path : string) : ST Libc.t Status :=
  let! removed := Libc.remove file_path in
  if negb (removed =? 0)%Z then ret kIoError else ret kSuccess.

End Vfs.

(** An empty file system on which no fault is injected. *)
Definition empty_libc : Libc.t := Libc.mk ∅ ∅ 0 [] ∅.

(** The two statuses the libc VFS gives. *)
Definition libc_status (s : Status) : Prop := s = kSuccess ∨ s = kIoError.

(** ** States of the C library *)

(** The stream numbers from [next_stream] on are not in use. *)
Definition fresh_streams (libc : Libc.t) : Prop :=
  ∀ n, Libc.next_stream libc ≤ n → Libc.streams libc !! n = None.

(** One file of three bytes and no open stream; the C library fails as
    [faults] says. *)
Definition data_file (faults : list bool) : Libc.t :=
  Libc.mk (<["data.berry" := [1; 2; 3]%N]> ∅) ∅ 0 faults ∅.

(** One file of four bytes, open as stream 0, on a C library that does not
    fail. *)
Definition open_data_file : Libc.t :=
  Libc.mk (<["data.berry" := [1; 2; 3; 4]%N]> ∅)
          (<[0 := Libc.mkStream "data.berry" 0]> ∅) 1 [] ∅.
(** * Proofs *)

(** ** Running the monad *)

Lemma bind_Some {S A B} (m : ST S A) (k : A → ST S B) st r st2 :
  bind m k st = Some (r, st2) ↔
  ∃ a st1, m st = Some (a, st1) ∧ k a st1 = Some (r, st2).
Proof.
  unfold bind. split.
  - destruct (m st) as [[a st1]|]; [eauto | discriminate].
  - intros (a & st1 & -> & ?). done.
Qed.

(** The monad and the collaborators' methods, unfolded down to matches on
    the state. *)
Ltac unfold_prims :=
  repeat progress
    unfold Page.AddPin, Page.RemovePin, Page.IsUnpinned, Page.transaction,
      Page.page_id, Page.is_dirty, Page.WillCacheStoreData,
      Page.DoesNotCacheStoreData, Page.MarkDirty, Page.Release,
      TransactionImpl.AssignPage, TransactionImpl.UnassignPage,
      TransactionImpl.UnassignPersistedPage, TransactionImpl.store,
      StoreImpl.Close, StoreImpl.WritePage, StoreImpl.ReadPage,
      pop_write_script, pop_read_script,
      bind, ret, gets, assign, emit, modify, DCHECK, deref in *.

(** Symbolic execution of a run that is known to end: every test the code
    makes is decided, the runs that abort are discarded. *)
Tactic Notation "run_inv" hyp(H) :=
  unfold_prims; simpl in H; simplify_eq/=;
  repeat (case_match; simplify_eq/=; try done).

(** Reads of the heap cell that was just written. *)
Ltac heap_simpl :=
  repeat match goal with
  | H : <[?f := ?x]> ?h !! ?f = Some ?p |- _ =>
      rewrite list_lookup_insert_eq in H
        by (rewrite ?length_insert; eapply lookup_lt_Some; eassumption);
      simplify_eq/=
  | H : context [<[?f := _]> (<[?f := _]> _)] |- _ =>
      rewrite list_insert_insert_eq in H
  | |- context [<[?f := _]> (<[?f := _]> _)] =>
      rewrite list_insert_insert_eq
  end.

(** Boolean tests as propositions. *)
Ltac bool_simpl :=
  repeat match goal with
  | H : negb _ = true |- _ => apply negb_true_iff in H
  | H : negb _ = false |- _ => apply negb_false_iff in H
  | H : (_ =? _) = true |- _ => apply Nat.eqb_eq in H
  | H : (_ =? _) = false |- _ => apply Nat.eqb_neq in H
  | H : (_ <? _) = true |- _ => apply Nat.ltb_lt in H
  | H : (_ <? _) = false |- _ => apply Nat.ltb_ge in H
  | H : bool_decide _ = true |- _ => apply bool_decide_eq_true in H
  | H : bool_decide _ = false |- _ => apply bool_decide_eq_false in H
  end.

(** Symbolic execution of a run from known facts: each test is rewritten
    with the hypothesis that decides it. *)
Ltac fwd_side := simpl; first [done | congruence | tauto | lia].

Ltac fwd_step :=
  match goal with
  | H : ?x = _ |- context [match ?x with _ => _ end] => rewrite H
  | H : ?x = _ |- context [match negb ?x with _ => _ end] => rewrite H
  | H : ?x = _ |- context [match LinkedList.front ?x with _ => _ end] =>
      rewrite H
  | H : pin_count_ ?pg = _ |- context [pin_count_ ?pg] => rewrite H
  | |- context [<[?f := _]> ?h !! ?f] =>
      rewrite (list_lookup_insert_eq h f)
        by (rewrite ?length_insert; eapply lookup_lt_Some; eassumption)
  | |- context [<[?f := _]> (<[?f := _]> _)] => rewrite list_insert_insert_eq
  | |- context [bool_decide ?P] =>
      rewrite (bool_decide_eq_true_2 P) by fwd_side
  | |- context [bool_decide ?P] =>
      rewrite (bool_decide_eq_false_2 P) by fwd_side
  | |- context [decide ?P] => rewrite (decide_True (P:=P)) by fwd_side
  | |- context [decide ?P] => rewrite (decide_False (P:=P)) by fwd_side
  end.

Ltac run_fwd := unfold_prims; simpl; repeat (fwd_step; simpl).

(** Reading the heap after a write to the cell [f]. *)
Lemma lookup_update (h : list Page) (f g : PagePtr) pg pg0 :
  h !! f = Some pg0 →
  <[f := pg]> h !! g = if decide (g = f) then Some pg else h !! g.
Proof.
  intros Hf. destruct (decide (g = f)) as [->|Hne].
  - apply list_lookup_insert_eq. by eapply lookup_lt_Some.
  - by apply list_lookup_insert_ne.
Qed.

(** ** The intrusive lists *)

Lemma elem_of_push_back (f g : PagePtr) l :
  g ∈ LinkedList.push_back f l ↔ g ∈ l ∨ g = f.
Proof. unfold LinkedList.push_back. set_solver. Qed.

Lemma NoDup_push_back (f : PagePtr) l :
  f ∉ l → NoDup l → NoDup (LinkedList.push_back f l).
Proof.
  intros Hf Hl. unfold LinkedList.push_back. apply NoDup_app.
  split_and!; [done | set_solver | apply NoDup_singleton].
Qed.

Lemma elem_of_erase (f g : PagePtr) l :
  g ∈ LinkedList.erase f l ↔ g ∈ l ∧ g ≠ f.
Proof. unfold LinkedList.erase. rewrite list_elem_of_filter. tauto. Qed.

Lemma NoDup_erase (f : PagePtr) l : NoDup l → NoDup (LinkedList.erase f l).
Proof. apply NoDup_filter. Qed.

Lemma front_pop_front (f : PagePtr) l :
  LinkedList.front l = Some f → l = f :: LinkedList.pop_front l.
Proof. destruct l; simpl; congruence. Qed.

Lemma front_elem_of (f : PagePtr) l : LinkedList.front l = Some f → f ∈ l.
Proof. intros H. rewrite (front_pop_front _ _ H). set_solver. Qed.

Lemma NoDup_pop_front (f : PagePtr) l :
  LinkedList.front l = Some f → NoDup l →
  NoDup (LinkedList.pop_front l) ∧ (f ∉ LinkedList.pop_front l) ∧
  (∀ g, g ≠ f → (g ∈ LinkedList.pop_front l ↔ g ∈ l)).
Proof.
  intros H Hnd. rewrite (front_pop_front _ _ H) in Hnd at 1.
  apply NoDup_cons in Hnd as [? ?]. split_and!; [done..|].
  intros g Hg. rewrite (front_pop_front _ _ H) at 2. set_solver.
Qed.

(** ** The invariant, frame by frame *)

Lemma assignment_Some pg t :
  transaction_ pg = Some t → assignment pg = Some (txn_store t, page_id_ pg).
Proof. unfold assignment. by intros ->. Qed.

Lemma assignment_None pg : transaction_ pg = None → assignment pg = None.
Proof. unfold assignment. by intros ->. Qed.

Section invariant_at.
Context (st : State) (f : PagePtr) (pg : Page).
Hypothesis Hinv : pool_invariant st.
Hypothesis Hf : heap st !! f = Some pg.

Lemma inv_free_at :
  f ∈ free_list_ st ↔ pin_count_ pg = 0 ∧ transaction_ pg = None.
Proof using Hinv Hf.
  rewrite (inv_free _ Hinv). split; [|eauto].
  intros (pg' & ? & ?); by simplify_eq.
Qed.

Lemma inv_lru_at :
  f ∈ lru_list_ st ↔ pin_count_ pg = 0 ∧ transaction_ pg ≠ None.
Proof using Hinv Hf.
  rewrite (inv_lru _ Hinv). split; [|eauto].
  intros (pg' & ? & ?); by simplify_eq.
Qed.

Lemma inv_map_at k :
  page_map_ st !! k = Some f ↔ assignment pg = Some k.
Proof using Hinv Hf.
  rewrite (inv_map _ Hinv). split; [|eauto].
  intros (pg' & ? & ?); by simplify_eq.
Qed.
End invariant_at.

Section resident_map.
Context (st : State) (f : PagePtr) (pg : Page).
Hypothesis Hinv : pool_invariant st.
Hypothesis Hf : heap st !! f = Some pg.

Lemma map_delete_other k0 k (g : PagePtr) :
  assignment pg = Some k0 → g ≠ f →
  delete k0 (page_map_ st) !! k = Some g ↔ page_map_ st !! k = Some g.
Proof using Hinv Hf.
  intros Hk0 Hne. destruct (decide (k = k0)) as [->|Hk].
  - rewrite lookup_delete_eq. split; [done|].
    intros Hg. apply (inv_map_at _ _ _ Hinv Hf) in Hk0. congruence.
  - by rewrite lookup_delete_ne.
Qed.

Lemma map_delete_own k0 k :
  assignment pg = Some k0 →
  delete k0 (page_map_ st) !! k = Some f ↔ False.
Proof using Hinv Hf.
  intros Hk0. destruct (decide (k = k0)) as [->|Hk].
  - by rewrite lookup_delete_eq.
  - rewrite lookup_delete_ne by done.
    rewrite (inv_map_at _ _ _ Hinv Hf). split; [congruence|done].
Qed.

Lemma map_insert_other k0 k (g : PagePtr) :
  page_map_ st !! k0 = None → g ≠ f →
  <[k0 := f]> (page_map_ st) !! k = Some g ↔ page_map_ st !! k = Some g.
Proof using Type.
  intros Hmiss Hne. destruct (decide (k = k0)) as [->|Hk].
  - rewrite lookup_insert_eq, Hmiss. split; congruence.
  - by rewrite lookup_insert_ne.
Qed.

Lemma map_insert_own k0 k :
  assignment pg = None →
  <[k0 := f]> (page_map_ st) !! k = Some f ↔ k = k0.
Proof using Hinv Hf.
  intros Hnone. destruct (decide (k = k0)) as [->|Hk].
  - by rewrite lookup_insert_eq.
  - rewrite lookup_insert_ne by done.
    rewrite (inv_map_at _ _ _ Hinv Hf). split; congruence.
Qed.
End resident_map.

(** The invariant survives a change of the frame [f] and of the lists and
    the map, provided that the other frames keep their membership and that
    [f] is listed and mapped as its new pin count and assignment demand. *)
Lemma invariant_update st st' (f : PagePtr) pg pg' :
  pool_invariant st →
  heap st !! f = Some pg →
  heap st' = <[f := pg']> (heap st) →
  page_count_ st' = page_count_ st →
  page_capacity_ st' = page_capacity_ st →
  NoDup (free_list_ st') →
  NoDup (lru_list_ st') →
  (∀ g, g ≠ f → (g ∈ free_list_ st' ↔ g ∈ free_list_ st)) →
  (∀ g, g ≠ f → (g ∈ lru_list_ st' ↔ g ∈ lru_list_ st)) →
  (∀ k g, g ≠ f → (page_map_ st' !! k = Some g ↔ page_map_ st !! k = Some g)) →
  (f ∈ free_list_ st' ↔ pin_count_ pg' = 0 ∧ transaction_ pg' = None) →
  (f ∈ lru_list_ st' ↔ pin_count_ pg' = 0 ∧ transaction_ pg' ≠ None) →
  (∀ k, page_map_ st' !! k = Some f ↔ assignment pg' = Some k) →
  (transaction_ pg' = None → is_dirty_ pg' = false) →
  pool_invariant st'.
Proof.
  intros [] Hf Hheap Hcount Hcap Hnf Hnl Hfree Hlru Hmap Hf1 Hf2 Hf3 Hf4.
  split; rewrite ?Hheap, ?Hcount, ?Hcap; try done.
  - by rewrite length_insert.
  - intros g. rewrite (lookup_update _ _ _ _ _ Hf).
    destruct (decide (g = f)) as [->|Hne].
    + rewrite Hf1. naive_solver.
    + rewrite (Hfree _ Hne). done.
  - intros g. rewrite (lookup_update _ _ _ _ _ Hf).
    destruct (decide (g = f)) as [->|Hne].
    + rewrite Hf2. naive_solver.
    + rewrite (Hlru _ Hne). done.
  - intros k g. rewrite (lookup_update _ _ _ _ _ Hf).
    destruct (decide (g = f)) as [->|Hne].
    + rewrite Hf3. naive_solver.
    + rewrite (Hmap _ _ Hne). done.
  - intros g pg1. rewrite (lookup_update _ _ _ _ _ Hf).
    destruct (decide (g = f)) as [->|Hne]; [naive_solver | eauto].
Qed.

(** The invariant survives the creation of a pinned, unassigned frame
    below capacity. *)
Lemma invariant_create st st' pg :
  pool_invariant st →
  heap st' = heap st ++ [pg] →
  page_count_ st' = S (page_count_ st) →
  page_capacity_ st' = page_capacity_ st →
  page_count_ st < page_capacity_ st →
  free_list_ st' = free_list_ st →
  lru_list_ st' = lru_list_ st →
  page_map_ st' = page_map_ st →
  pin_count_ pg ≠ 0 → transaction_ pg = None → is_dirty_ pg = false →
  pool_invariant st'.
Proof.
  intros Hinv Hheap Hcount Hcap Hlt Hfree Hlru Hmap Hpin Ht Hd.
  assert (Hnew : ∀ g pg', (heap st ++ [pg]) !! g = Some pg' ↔
            heap st !! g = Some pg' ∨ (g = length (heap st) ∧ pg' = pg)).
  { intros g pg'. rewrite lookup_app_Some, list_lookup_singleton_Some.
    split; [intros [?|(? & ? & ?)]|intros [?|[-> ->]]]; eauto.
    - right. split; [lia|done].
    - right. split_and!; [lia|lia|done]. }
  destruct Hinv as [I1 I2 I3 I4 I5 I6 I7 I8].
  split; rewrite ?Hheap, ?Hcount, ?Hcap, ?Hfree, ?Hlru, ?Hmap; try done.
  - rewrite length_app. simpl. lia.
  - intros g. rewrite I5. setoid_rewrite Hnew. split.
    + intros (pg' & ? & ?); eauto.
    + intros (pg' & [?|[-> ->]] & ? & ?); [eauto | done].
  - intros g. rewrite I6. setoid_rewrite Hnew. split.
    + intros (pg' & ? & ?); eauto.
    + intros (pg' & [?|[-> ->]] & ? & ?); [eauto | done].
  - intros k g. rewrite I7. setoid_rewrite Hnew. split.
    + intros (pg' & ? & ?); eauto.
    + intros (pg' & [?|[-> ->]] & Ha); [eauto|].
      by rewrite assignment_None in Ha.
  - intros g pg'. rewrite Hnew. intros [?|[-> ->]]; eauto.
Qed.

(** The side conditions of [invariant_update]. *)
Ltac solve_side :=
  simpl; intros; rewrite ?elem_of_push_back, ?elem_of_erase;
  try solve
    [ done
    | intuition (simpl in *; first [lia | congruence | done]) ].

(** The facts the invariant gives about the frame at hand. *)
Ltac frame_facts Hinv Hf :=
  pose proof (inv_free_at _ _ _ Hinv Hf);
  pose proof (inv_lru_at _ _ _ Hinv Hf);
  pose proof (inv_map_at _ _ _ Hinv Hf);
  pose proof (inv_clean _ Hinv _ _ Hf);
  pose proof (inv_free_nodup _ Hinv);
  pose proof (inv_lru_nodup _ Hinv).

(** ** The operations preserve the invariant *)

Lemma UnpinStorePage_invariant f st st' :
  pool_invariant st →
  PagePool.UnpinStorePage f st = Some (tt, st') →
  pool_invariant st'.
Proof.
  intros Hinv H. unfold PagePool.UnpinStorePage in H.
  run_inv H; heap_simpl; bool_simpl;
    rename select (heap _ !! f = Some _) into Hf; frame_facts Hinv Hf;
    eapply (invariant_update _ _ f _ _ Hinv Hf); solve_side.
  apply NoDup_push_back; solve_side.
Qed.

Lemma UnpinUnassignedPage_invariant f st st' :
  pool_invariant st →
  PagePool.UnpinUnassignedPage f st = Some (tt, st') →
  pool_invariant st'.
Proof.
  intros Hinv H. unfold PagePool.UnpinUnassignedPage in H.
  run_inv H; heap_simpl; bool_simpl;
    rename select (heap _ !! f = Some _) into Hf; frame_facts Hinv Hf;
    eapply (invariant_update _ _ f _ _ Hinv Hf); solve_side.
  apply NoDup_push_back; solve_side.
Qed.

Lemma MarkDirty_invariant f st st' :
  pool_invariant st →
  Page.MarkDirty f st = Some (tt, st') →
  pool_invariant st'.
Proof.
  intros Hinv H. unfold Page.MarkDirty in H.
  run_inv H; heap_simpl; bool_simpl;
    rename select (heap _ !! f = Some _) into Hf; frame_facts Hinv Hf;
    eapply (invariant_update _ _ f _ _ Hinv Hf); solve_side.
Qed.

Lemma PinStorePage_invariant f st st' :
  pool_invariant st →
  PagePool.PinStorePage f st = Some (tt, st') →
  pool_invariant st'.
Proof.
  intros Hinv H. unfold PagePool.PinStorePage in H.
  run_inv H; heap_simpl; bool_simpl;
    rename select (heap _ !! f = Some _) into Hf; frame_facts Hinv Hf;
    eapply (invariant_update _ _ f _ _ Hinv Hf); solve_side.
  by apply NoDup_erase.
Qed.

Lemma PinTransactionPages_invariant page_list st st' :
  pool_invariant st →
  PagePool.PinTransactionPages page_list st = Some (tt, st') →
  pool_invariant st'.
Proof.
  revert st. induction page_list as [|f rest IH]; intros st Hinv H; simpl in H.
  - unfold ret in H. by simplify_eq.
  - apply bind_Some in H as (t & st1 & Ht & H).
    apply bind_Some in H as ([] & st2 & Hd & H).
    apply bind_Some in H as ([] & st3 & Hpin & H).
    unfold Page.transaction in Ht. run_inv Ht.
    eapply IH; [|done]. by eapply PinStorePage_invariant.
Qed.

Lemma UnassignPageFromStore_invariant f pg st st' :
  pool_invariant st →
  heap st !! f = Some pg → pin_count_ pg ≠ 0 →
  PagePool.UnassignPageFromStore f st = Some (tt, st') →
  pool_invariant st'.
Proof.
  intros Hinv Hf0 Hpin H. unfold PagePool.UnassignPageFromStore in H.
  run_inv H; heap_simpl; bool_simpl.
  all: rename select (heap _ !! f = Some _) into Hf; frame_facts Hinv Hf.
  all: eapply (invariant_update _ _ f _ _ Hinv Hf); solve_side.
  all: first [ by eapply map_delete_other; eauto using assignment_Some
             | by erewrite map_delete_own; eauto using assignment_Some ].
Qed.

Lemma AllocPage_invariant st r st' :
  pool_invariant st →
  PagePool.AllocPage st = Some (r, st') →
  pool_invariant st'.
Proof.
  intros Hinv H.
  unfold PagePool.AllocPage, PagePool.UnassignPageFromStore, Page.Create in H.
  run_inv H; heap_simpl; bool_simpl.
  2: { eapply invariant_create; simpl; eauto. }
  all: rename select (heap _ !! _ = Some _) into Hf; frame_facts Hinv Hf.
  all: rename select (LinkedList.front _ = Some _) into Hfront.
  all: pose proof (front_elem_of _ _ Hfront).
  all: match goal with Hnd : NoDup ?l, Hfr : LinkedList.front ?l = Some _ |- _ =>
         destruct (NoDup_pop_front _ _ Hfr Hnd) as (? & ? & ?) end.
  all: eapply (invariant_update _ _ _ _ _ Hinv Hf); solve_side.
  all: first [ by eapply map_delete_other; eauto using assignment_Some
             | by erewrite map_delete_own; eauto using assignment_Some
             | by eauto ].
Qed.

Lemma AllocPage_result st f st' :
  pool_invariant st →
  PagePool.AllocPage st = Some (Some f, st') →
  ∃ pg, heap st' !! f = Some pg ∧ pin_count_ pg = 1 ∧
        transaction_ pg = None ∧ is_dirty_ pg = false.
Proof.
  intros Hinv H.
  unfold PagePool.AllocPage, PagePool.UnassignPageFromStore, Page.Create in H.
  run_inv H; heap_simpl; bool_simpl.
  2: { eexists. split; [apply list_lookup_middle; done|done]. }
  all: rename select (heap _ !! _ = Some _) into Hf; frame_facts Hinv Hf.
  all: rename select (LinkedList.front _ = Some _) into Hfront.
  all: pose proof (front_elem_of _ _ Hfront).
  all: eexists; split;
    [apply list_lookup_insert_eq; by eapply lookup_lt_Some|].
  all: simpl; intuition lia.
Qed.

Lemma AllocPage_page_map st r st' k :
  PagePool.AllocPage st = Some (r, st') →
  page_map_ st !! k = None → page_map_ st' !! k = None.
Proof.
  intros H Hk.
  unfold PagePool.AllocPage, PagePool.UnassignPageFromStore, Page.Create in H.
  run_inv H; try done.
  all: by apply lookup_delete_None; right.
Qed.

Lemma AllocPage_read_script st r st' :
  PagePool.AllocPage st = Some (r, st') →
  read_script (world st') = read_script (world st).
Proof.
  intros H.
  unfold PagePool.AllocPage, PagePool.UnassignPageFromStore, Page.Create in H.
  run_inv H; done.
Qed.

Lemma AssignPageToStore_invariant f pg store page_id fetch_mode st status st' :
  pool_invariant st →
  heap st !! f = Some pg → pin_count_ pg ≠ 0 →
  page_map_ st !! (store, page_id) = None →
  PagePool.AssignPageToStore f store page_id fetch_mode st = Some (status, st') →
  pool_invariant st' ∧
  ∃ pg', heap st' !! f = Some pg' ∧ pin_count_ pg' = pin_count_ pg ∧
         (status ≠ kSuccess → transaction_ pg' = None).
Proof.
  intros Hinv Hf0 Hpin Hmiss H.
  unfold PagePool.AssignPageToStore, PagePool.FetchStorePage,
    StoreImpl.init_transaction in H.
  run_inv H; heap_simpl; bool_simpl.
  all: rename select (heap _ !! _ = Some _) into Hf; frame_facts Hinv Hf.
  all: split;
    [ eapply (invariant_update _ _ _ _ _ Hinv Hf); solve_side
    | eexists; split;
      [apply list_lookup_insert_eq; by eapply lookup_lt_Some | done] ].
  all: first
    [ by eapply map_insert_other
    | erewrite map_insert_own by eauto using assignment_None;
      unfold assignment; simpl; split; congruence
    | rename select (∀ k, _ ↔ _) into Hmap; rewrite Hmap;
      unfold assignment; simpl;
      rename select (transaction_ _ = None) into Hnone; rewrite Hnone; done ].
Qed.

Lemma StorePage_invariant store page_id fetch_mode st r st' :
  pool_invariant st →
  PagePool.StorePage store page_id fetch_mode st = Some (r, st') →
  pool_invariant st'.
Proof.
  intros Hinv H. unfold PagePool.StorePage in H.
  apply bind_Some in H as (map & st0 & Hmap & H).
  unfold gets in Hmap. simplify_eq.
  destruct (page_map_ st0 !! (store, page_id)) as [f|] eqn:Hlookup.
  - apply bind_Some in H as (pg & st1 & Hpg & H).
    apply bind_Some in H as ([] & st2 & Hd & H).
    apply bind_Some in H as ([] & st3 & Hpin & H).
    run_inv H.
    by eapply PinStorePage_invariant.
  - apply bind_Some in H as (alloc & st1 & Halloc & H).
    pose proof (AllocPage_invariant _ _ _ Hinv Halloc) as Hinv1.
    pose proof (AllocPage_page_map _ _ _ _ Halloc Hlookup) as Hmiss.
    destruct alloc as [f|]; [|run_inv H; done].
    destruct (AllocPage_result _ _ _ Hinv Halloc) as (pg & Hf & Hpin & Ht & Hd).
    apply bind_Some in H as (status & st2 & Hassign & H).
    destruct (AssignPageToStore_invariant _ _ _ _ _ _ _ _ Hinv1 Hf
                ltac:(lia) Hmiss Hassign) as (Hinv2 & pg' & Hf' & Hpin' & Ht').
    destruct (decide (status = kSuccess)) as [->|Hstatus].
    + run_inv H; done.
    + apply bind_Some in H as ([] & st3 & Hunpin & H).
      pose proof (UnpinUnassignedPage_invariant _ _ _ Hinv2 Hunpin).
      run_inv H; done.
Qed.

Lemma run_op_invariant op st st' :
  pool_invariant st → run_op op st = Some (tt, st') → pool_invariant st'.
Proof.
  intros Hinv H. destruct op; simpl in H.
  - apply bind_Some in H as (r & st1 & H & Hret). run_inv Hret.
    by eapply StorePage_invariant.
  - by eapply UnpinStorePage_invariant.
  - by eapply UnpinUnassignedPage_invariant.
  - by eapply PinTransactionPages_invariant.
  - apply bind_Some in H as (r & st1 & H & Hret). run_inv Hret.
    by eapply AllocPage_invariant.
  - by eapply MarkDirty_invariant.
Qed.

Lemma new_invariant page_shift page_capacity w :
  pool_invariant (PagePool.new page_shift page_capacity w).
Proof.
  split; simpl; try done; try lia; try apply NoDup_nil_2.
  - intros f. split; [by intros ?%elem_of_nil|by intros (? & ? & ?)].
  - intros f. split; [by intros ?%elem_of_nil|by intros (? & ? & ?)].
  - intros k f. rewrite lookup_empty. split; [done|by intros (? & ? & ?)].
Qed.

(** Every reachable state is consistent. *)
Lemma reachable_invariant st : reachable st → pool_invariant st.
Proof.
  induction 1 as [|st op st' _ IH Hstep].
  - apply new_invariant.
  - by eapply run_op_invariant.
Qed.

(** ** What the operations compute *)

Lemma PinStorePage_run st (f : PagePtr) pg :
  pool_invariant st → heap st !! f = Some pg → transaction_ pg ≠ None →
  PagePool.PinStorePage f st =
  Some (tt, set_heap (<[f := with_pin_count (S (pin_count_ pg)) pg]> (heap st))
              (if pin_count_ pg =? 0
               then set_lru_list (LinkedList.erase f (lru_list_ st)) st
               else st)).
Proof.
  intros Hinv Hf Ht. frame_facts Hinv Hf.
  unfold PagePool.PinStorePage. unfold_prims. simpl. rewrite Hf. simpl.
  rewrite bool_decide_eq_false_2 by done. simpl. rewrite Hf.
  destruct (pin_count_ pg =? 0) eqn:Hpin; bool_simpl; simpl; rewrite ?Hf; [|done].
  rewrite bool_decide_eq_true_2 by tauto. simpl. by rewrite Hf.
Qed.

Lemma StorePage_hit_run st store page_id fetch_mode (f : PagePtr) :
  pool_invariant st →
  page_map_ st !! (store, page_id) = Some f →
  ∃ pg,
    heap st !! f = Some pg ∧ assignment pg = Some (store, page_id) ∧
    PagePool.StorePage store page_id fetch_mode st =
    Some ((kSuccess, Some f),
          set_heap (<[f := with_pin_count (S (pin_count_ pg)) pg]> (heap st))
            (if pin_count_ pg =? 0
             then set_lru_list (LinkedList.erase f (lru_list_ st)) st
             else st)).
Proof.
  intros Hinv Hk.
  destruct (proj1 (inv_map _ Hinv _ _) Hk) as (pg & Hf & Ha).
  exists pg. split_and!; [done..|].
  unfold PagePool.StorePage, bind at 1, gets. rewrite Hk.
  unfold bind at 1, deref. rewrite Hf.
  unfold bind at 1, DCHECK. rewrite bool_decide_eq_true_2 by done.
  unfold bind. rewrite (PinStorePage_run _ _ pg); try done.
  unfold assignment in Ha. destruct (transaction_ pg); done.
Qed.

(** [UnpinUnassignedPage] on a frame pinned once appends it at the back of
    the free list. *)
Lemma UnpinUnassignedPage_pushes_back st (f : PagePtr) pg :
  heap st !! f = Some pg → transaction_ pg = None → pin_count_ pg = 1 →
  PagePool.UnpinUnassignedPage f st =
  Some (tt, set_free_list (free_list_ st ++ [f])
              (set_heap (<[f := with_pin_count 0 pg]> (heap st)) st)).
Proof.
  intros Hf Ht Hpin. unfold PagePool.UnpinUnassignedPage. run_fwd. done.
Qed.

Lemma UnassignPageFromStore_dirty_run st (f : PagePtr) pg t :
  heap st !! f = Some pg →
  transaction_ pg = Some t →
  is_dirty_ pg = true →
  is_Some (page_map_ st !! (txn_store t, page_id_ pg)) →
  ∃ st',
    PagePool.UnassignPageFromStore f st = Some (tt, st') ∧
    heap st' = <[f := evicted pg]> (heap st) ∧
    page_map_ st' = delete (txn_store t, page_id_ pg) (page_map_ st) ∧
    free_list_ st' = free_list_ st ∧
    lru_list_ st' = lru_list_ st ∧
    page_count_ st' = page_count_ st ∧
    page_capacity_ st' = page_capacity_ st ∧
    page_size_ st' = page_size_ st ∧
    read_script (world st') = read_script (world st) ∧
    write_script (world st') = tail (write_script (world st)) ∧
    trace (world st') =
      trace (world st) ++
      [EvMapErase (txn_store t) (page_id_ pg);
       EvWritePage (txn_store t) (page_id_ pg);
       EvUnassignPersistedPage t f] ++
      (if decide (hd kSuccess (write_script (world st)) = kSuccess)
       then [] else [EvClose (txn_store t)]) ∧
    closed_stores (world st') =
      (if decide (hd kSuccess (write_script (world st)) = kSuccess)
       then [] else [txn_store t]) ++ closed_stores (world st) ∧
    disk (world st') =
      (if decide (hd kSuccess (write_script (world st)) = kSuccess)
       then <[(txn_store t, page_id_ pg) := buffer_ pg]> (disk (world st))
       else disk (world st)).
Proof.
  intros Hf Ht Hd Hk. unfold PagePool.UnassignPageFromStore.
  destruct (write_script (world st)) as [|status rest] eqn:Hscript;
    [|destruct (decide (status = kSuccess))].
  all: run_fwd.
  all: eexists; split; [reflexivity|]; simpl.
  all: rewrite <- ?app_assoc; simpl; split_and!; try done.
Qed.

Lemma UnassignPageFromStore_clean_run st (f : PagePtr) pg t :
  heap st !! f = Some pg →
  transaction_ pg = Some t →
  is_dirty_ pg = false →
  is_Some (page_map_ st !! (txn_store t, page_id_ pg)) →
  ∃ st',
    PagePool.UnassignPageFromStore f st = Some (tt, st') ∧
    heap st' = <[f := evicted pg]> (heap st) ∧
    page_map_ st' = delete (txn_store t, page_id_ pg) (page_map_ st) ∧
    free_list_ st' = free_list_ st ∧
    lru_list_ st' = lru_list_ st ∧
    page_count_ st' = page_count_ st ∧
    page_capacity_ st' = page_capacity_ st ∧
    page_size_ st' = page_size_ st ∧
    read_script (world st') = read_script (world st) ∧
    write_script (world st') = write_script (world st) ∧
    trace (world st') =
      trace (world st) ++
      [EvMapErase (txn_store t) (page_id_ pg); EvUnassignPage t f] ∧
    closed_stores (world st') = closed_stores (world st) ∧
    disk (world st') = disk (world st).
Proof.
  intros Hf Ht Hd Hk. unfold PagePool.UnassignPageFromStore.
  run_fwd.
  eexists; split; [reflexivity|]; simpl.
  rewrite <- ?app_assoc; simpl; split_and!; try done.
Qed.

Lemma AllocPage_free_run st (f : PagePtr) rest :
  pool_invariant st → free_list_ st = f :: rest →
  ∃ pg,
    heap st !! f = Some pg ∧ pin_count_ pg = 0 ∧ transaction_ pg = None ∧
    is_dirty_ pg = false ∧
    PagePool.AllocPage st =
    Some (Some f, set_heap (<[f := with_pin_count 1 pg]> (heap st))
                    (set_free_list rest st)).
Proof.
  intros Hinv Hfree.
  destruct (proj1 (inv_free _ Hinv f)) as (pg & Hf & Hpin & Ht).
  { rewrite Hfree. set_solver. }
  pose proof (inv_clean _ Hinv _ _ Hf Ht) as Hd.
  exists pg. split_and!; try done.
  unfold PagePool.AllocPage. run_fwd. done.
Qed.

Lemma AllocPage_grow_run st :
  free_list_ st = [] → page_count_ st < page_capacity_ st →
  PagePool.AllocPage st =
  Some (Some (length (heap st)),
        set_world (log_event (EvCreate (length (heap st))) (world st))
          (set_heap
             (heap st ++
              [mkPage 1 false None 0
                      (replicate (N.to_nat (page_size_ st)) 0%N)])
             (set_page_count (S (page_count_ st)) st))).
Proof.
  intros Hfree Hlt. apply Nat.ltb_lt in Hlt.
  unfold PagePool.AllocPage, Page.Create. run_fwd. done.
Qed.

Lemma AllocPage_evict_run st (f : PagePtr) rest :
  pool_invariant st →
  free_list_ st = [] → page_capacity_ st ≤ page_count_ st →
  lru_list_ st = f :: rest →
  ∃ pg st',
    heap st !! f = Some pg ∧ pin_count_ pg = 0 ∧ transaction_ pg ≠ None ∧
    PagePool.UnassignPageFromStore f
      (set_lru_list rest
         (set_heap (<[f := with_pin_count 1 pg]> (heap st)) st)) =
      Some (tt, st') ∧
    PagePool.AllocPage st = Some (Some f, st') ∧
    heap st' = <[f := evicted (with_pin_count 1 pg)]> (heap st) ∧
    (∀ k, assignment pg = Some k → page_map_ st' = delete k (page_map_ st)) ∧
    lru_list_ st' = rest ∧
    free_list_ st' = [] ∧
    page_count_ st' = page_count_ st.
Proof.
  intros Hinv Hfree Hge Hlru. apply Nat.ltb_ge in Hge.
  destruct (proj1 (inv_lru _ Hinv f)) as (pg & Hf & Hpin & Ht).
  { rewrite Hlru. set_solver. }
  destruct (transaction_ pg) as [t|] eqn:Ht'; [|done].
  assert (Hk : page_map_ st !! (txn_store t, page_id_ pg) = Some f).
  { apply (inv_map _ Hinv). exists pg. by rewrite (assignment_Some _ t). }
  set (st1 := set_lru_list rest
                (set_heap (<[f := with_pin_count 1 pg]> (heap st)) st)).
  assert (Hf1 : heap st1 !! f = Some (with_pin_count 1 pg)).
  { simpl. apply list_lookup_insert_eq. by eapply lookup_lt_Some. }
  assert (∃ st', PagePool.UnassignPageFromStore f st1 = Some (tt, st') ∧
            heap st' = <[f := evicted (with_pin_count 1 pg)]> (heap st1) ∧
            page_map_ st' =
              delete (txn_store t, page_id_ pg) (page_map_ st1) ∧
            free_list_ st' = free_list_ st1 ∧
            lru_list_ st' = lru_list_ st1 ∧
            page_count_ st' = page_count_ st1)
    as (st' & Hrun & Hheap' & Hmap' & Hfree' & Hlru' & Hcount').
  { destruct (is_dirty_ pg) eqn:Hd.
    - edestruct (UnassignPageFromStore_dirty_run st1)
        as (st' & ? & ? & ? & ? & ? & ? & _);
        [done..| |by eauto 10]. simpl. eauto.
    - edestruct (UnassignPageFromStore_clean_run st1)
        as (st' & ? & ? & ? & ? & ? & ? & _);
        [done..| |by eauto 10]. simpl. eauto. }
  exists pg, st'. split_and!; try done; [congruence| | | |by rewrite Hfree'].
  - unfold PagePool.AllocPage. run_fwd. subst st1. simpl in Hrun.
    by rewrite Hrun.
  - rewrite Hheap'. simpl. by rewrite list_insert_insert_eq.
  - intros k Ha. rewrite (assignment_Some _ t) in Ha by done.
    by simplify_eq.
Qed.

Lemma AllocPage_full_run st :
  free_list_ st = [] → page_capacity_ st ≤ page_count_ st →
  lru_list_ st = [] →
  PagePool.AllocPage st = Some (None, st).
Proof.
  intros Hfree Hge Hlru. apply Nat.ltb_ge in Hge.
  unfold PagePool.AllocPage. run_fwd. done.
Qed.

Lemma AllocPage_progress st :
  pool_invariant st →
  free_list_ st ≠ [] ∨ page_count_ st < page_capacity_ st ∨
    lru_list_ st ≠ [] →
  ∃ (f : PagePtr) st1, PagePool.AllocPage st = Some (Some f, st1).
Proof.
  intros Hinv Hroom.
  destruct (free_list_ st) as [|f rest] eqn:Hfree.
  - destruct (decide (page_count_ st < page_capacity_ st)) as [Hlt|Hge].
    + rewrite AllocPage_grow_run by done. eauto.
    + destruct (lru_list_ st) as [|f rest] eqn:Hlru.
      * destruct Hroom as [?|[?|?]]; done.
      * destruct (AllocPage_evict_run st f rest Hinv Hfree ltac:(lia) Hlru)
          as (pg & st' & _ & _ & _ & _ & Hrun & _). eauto.
  - destruct (AllocPage_free_run st f rest Hinv Hfree)
      as (pg & _ & _ & _ & _ & Hrun). eauto.
Qed.

Lemma AssignPageToStore_success_run st (f : PagePtr) pg store page_id fetch_mode :
  heap st !! f = Some pg → transaction_ pg = None →
  fetch_mode = kIgnorePageData ∨
    hd kSuccess (read_script (world st)) = kSuccess →
  ∃ st' pg',
    PagePool.AssignPageToStore f store page_id fetch_mode st =
      Some (kSuccess, st') ∧
    heap st' = <[f := pg']> (heap st) ∧
    pin_count_ pg' = pin_count_ pg ∧
    is_dirty_ pg' = is_dirty_ pg ∧
    transaction_ pg' = Some (StoreImpl.init_transaction store) ∧
    page_id_ pg' = page_id ∧
    page_map_ st' = <[(store, page_id) := f]> (page_map_ st) ∧
    free_list_ st' = free_list_ st ∧
    lru_list_ st' = lru_list_ st ∧
    page_count_ st' = page_count_ st ∧
    page_capacity_ st' = page_capacity_ st ∧
    trace (world st') =
      trace (world st) ++
      [EvAssignPage (StoreImpl.init_transaction store) f page_id] ++
      (if decide (fetch_mode = kFetchPageData)
       then [EvReadPage store page_id] else []) ++
      [EvMapInsert store page_id f] ∧
    closed_stores (world st') = closed_stores (world st) ∧
    write_script (world st') = write_script (world st).
Proof.
  intros Hf Ht Hok.
  unfold PagePool.AssignPageToStore, PagePool.FetchStorePage,
    StoreImpl.init_transaction.
  destruct fetch_mode; [destruct Hok as [|Hok]; [done|]|].
  - destruct (read_script (world st)) as [|status rest] eqn:Hscript;
      simpl in Hok; subst; run_fwd.
    all: eexists _, _; split; [reflexivity|]; simpl.
    all: rewrite <- ?app_assoc; simpl; split_and!; done.
  - run_fwd. eexists _, _; split; [reflexivity|]; simpl.
    rewrite <- ?app_assoc; simpl; split_and!; done.
Qed.

Lemma AssignPageToStore_failure_run st (f : PagePtr) pg store page_id status rest :
  heap st !! f = Some pg → transaction_ pg = None →
  read_script (world st) = status :: rest → status ≠ kSuccess →
  ∃ st',
    PagePool.AssignPageToStore f store page_id kFetchPageData st =
      Some (status, st') ∧
    heap st' = <[f := with_dirty false (with_assignment None page_id pg)]>
                 (heap st) ∧
    page_map_ st' = page_map_ st ∧
    free_list_ st' = free_list_ st ∧
    lru_list_ st' = lru_list_ st ∧
    page_count_ st' = page_count_ st ∧
    page_capacity_ st' = page_capacity_ st ∧
    trace (world st') =
      trace (world st) ++
      [EvAssignPage (StoreImpl.init_transaction store) f page_id;
       EvReadPage store page_id;
       EvUnassignPage (StoreImpl.init_transaction store) f] ∧
    closed_stores (world st') = closed_stores (world st) ∧
    disk (world st') = disk (world st) ∧
    write_script (world st') = write_script (world st) ∧
    read_script (world st') = rest.
Proof.
  intros Hf Ht Hscript Hstatus.
  unfold PagePool.AssignPageToStore, PagePool.FetchStorePage,
    StoreImpl.init_transaction.
  run_fwd. eexists; split; [reflexivity|]; simpl.
  rewrite <- ?app_assoc; simpl; split_and!; done.
Qed.

Lemma StorePage_miss_success st store page_id fetch_mode (f : PagePtr) st1 st2 :
  page_map_ st !! (store, page_id) = None →
  PagePool.AllocPage st = Some (Some f, st1) →
  PagePool.AssignPageToStore f store page_id fetch_mode st1 =
    Some (kSuccess, st2) →
  PagePool.StorePage store page_id fetch_mode st =
    Some ((kSuccess, Some f), st2).
Proof.
  intros Hmiss Halloc Hassign.
  unfold PagePool.StorePage, bind at 1, gets. rewrite Hmiss.
  unfold bind at 1. rewrite Halloc. unfold bind. by rewrite Hassign.
Qed.

Lemma StorePage_miss_failure st store page_id fetch_mode (f : PagePtr)
    status st1 st2 pg :
  page_map_ st !! (store, page_id) = None →
  PagePool.AllocPage st = Some (Some f, st1) →
  PagePool.AssignPageToStore f store page_id fetch_mode st1 =
    Some (status, st2) →
  status ≠ kSuccess →
  heap st2 !! f = Some pg → transaction_ pg = None → pin_count_ pg = 1 →
  PagePool.StorePage store page_id fetch_mode st =
    Some ((status, None),
          set_free_list (free_list_ st2 ++ [f])
            (set_heap (<[f := with_pin_count 0 pg]> (heap st2)) st2)).
Proof.
  intros Hmiss Halloc Hassign Hstatus Hf Ht Hpin.
  unfold PagePool.StorePage, bind at 1, gets. rewrite Hmiss.
  unfold bind at 1. rewrite Halloc. unfold bind at 1. rewrite Hassign.
  rewrite decide_False by done.
  unfold bind at 1. rewrite (UnpinUnassignedPage_pushes_back _ _ pg) by done.
  run_fwd. done.
Qed.

Lemma failed_fetch_run store page_id st (f : PagePtr) st1 status rest :
  pool_invariant st →
  page_map_ st !! (store, page_id) = None →
  PagePool.AllocPage st = Some (Some f, st1) →
  read_script (world st) = status :: rest →
  status ≠ kSuccess →
  ∃ st' pg',
    PagePool.StorePage store page_id kFetchPageData st =
      Some ((status, None), st') ∧
    heap st' !! f = Some pg' ∧ pin_count_ pg' = 0 ∧
    transaction_ pg' = None ∧ is_dirty_ pg' = false ∧
    free_list_ st' = free_list_ st1 ++ [f] ∧
    lru_list_ st' = lru_list_ st1 ∧
    page_map_ st' = page_map_ st1 ∧
    page_count_ st' = page_count_ st1 ∧
    page_map_ st' !! (store, page_id) = None ∧
    (∀ g : PagePtr, g ≠ f → heap st' !! g = heap st1 !! g).
Proof.
  intros Hinv Hmiss Halloc Hscript Hstatus.
  destruct (AllocPage_result _ _ _ Hinv Halloc) as (pg & Hf & Hpin & Ht & Hd).
  pose proof (AllocPage_page_map _ _ _ _ Halloc Hmiss) as Hmiss1.
  pose proof (AllocPage_read_script _ _ _ Halloc) as Hread.
  rewrite Hscript in Hread.
  destruct (AssignPageToStore_failure_run st1 f pg store page_id status rest
              Hf Ht Hread Hstatus)
    as (st2 & Hassign & Hheap2 & Hmap2 & Hfree2 & Hlru2 & Hcount2 & _).
  assert (Hf2 : heap st2 !! f =
                Some (with_dirty false (with_assignment None page_id pg))).
  { rewrite Hheap2. apply list_lookup_insert_eq. by eapply lookup_lt_Some. }
  exists (set_free_list (free_list_ st2 ++ [f])
            (set_heap
               (<[f := with_pin_count 0
                         (with_dirty false (with_assignment None page_id pg))]>
                  (heap st2)) st2)),
    (with_pin_count 0 (with_dirty false (with_assignment None page_id pg))).
  split.
  { eapply StorePage_miss_failure; eauto. }
  simpl. rewrite Hheap2, Hmap2, Hfree2, Hlru2, Hcount2.
  rewrite list_insert_insert_eq. split_and!; try done.
  - apply list_lookup_insert_eq. by eapply lookup_lt_Some.
  - intros g Hg. by apply list_lookup_insert_ne.
Qed.

Lemma release_all_run pages st :
  (∀ f : PagePtr, f ∈ pages → is_Some (heap st !! f)) →
  PagePool.release_all pages st =
  Some (tt, set_world
              (mkWorld (trace (world st) ++ (EvRelease <$> pages))
                       (read_script (world st)) (write_script (world st))
                       (disk (world st)) (closed_stores (world st)))
              st).
Proof.
  revert st. induction pages as [|f pages IH]; intros st Hvalid; simpl.
  - unfold ret. rewrite app_nil_r. by destruct st as [? ? ? ? ? ? ? ? []].
  - destruct (Hvalid f) as [pg Hf]; [set_solver|].
    unfold bind at 1. unfold Page.Release. run_fwd.
    rewrite IH; simpl; [|intros g Hg; apply Hvalid; set_solver].
    by rewrite <- app_assoc.
Qed.

(** ** The operations run to their end *)

Lemma UnpinStorePage_total st (f : PagePtr) pg :
  heap st !! f = Some pg → transaction_ pg ≠ None → pin_count_ pg ≠ 0 →
  ∃ st', PagePool.UnpinStorePage f st = Some (tt, st').
Proof.
  intros Hf Ht Hpin. unfold PagePool.UnpinStorePage. run_fwd.
  destruct (pin_count_ pg) as [|[|n]]; [done|..]; simpl; run_fwd; eauto.
Qed.

Lemma UnpinUnassignedPage_total st (f : PagePtr) pg :
  heap st !! f = Some pg → transaction_ pg = None → pin_count_ pg ≠ 0 →
  ∃ st', PagePool.UnpinUnassignedPage f st = Some (tt, st').
Proof.
  intros Hf Ht Hpin. unfold PagePool.UnpinUnassignedPage. run_fwd.
  destruct (pin_count_ pg) as [|[|n]]; [done|..]; simpl; run_fwd; eauto.
Qed.

Lemma PinTransactionPages_total page_list st :
  pool_invariant st →
  (∀ f : PagePtr, f ∈ page_list →
     ∃ pg, heap st !! f = Some pg ∧ transaction_ pg ≠ None) →
  ∃ st', PagePool.PinTransactionPages page_list st = Some (tt, st').
Proof.
  revert st. induction page_list as [|f rest IH]; intros st Hinv Hall; simpl.
  - unfold ret. eauto.
  - destruct (Hall f) as (pg & Hf & Ht); [set_solver|].
    pose proof (PinStorePage_run st f pg Hinv Hf Ht) as Hpin.
    unfold bind at 1, Page.transaction, bind at 1, deref. rewrite Hf.
    unfold ret, bind at 1, DCHECK.
    rewrite bool_decide_eq_false_2 by done. simpl.
    unfold bind. rewrite Hpin. apply IH.
    + by eapply PinStorePage_invariant.
    + intros g Hg. destruct (Hall g) as (pg' & Hg' & Ht'); [set_solver|].
      simpl. rewrite (lookup_update _ _ _ _ _ ltac:(
        destruct (pin_count_ pg =? 0); exact Hf)).
      destruct (decide (g = f)) as [->|Hne].
      * eexists. split; [done|]. done.
      * exists pg'. split; [|done].
        destruct (pin_count_ pg =? 0); done.
Qed.

(** [StorePage] has no precondition on a consistent pool: it always runs to
    its end. *)
Lemma StorePage_total store page_id fetch_mode st :
  pool_invariant st →
  ∃ r st', PagePool.StorePage store page_id fetch_mode st = Some (r, st').
Proof.
  intros Hinv.
  destruct (page_map_ st !! (store, page_id)) as [f|] eqn:Hlookup.
  { destruct (StorePage_hit_run st store page_id fetch_mode f Hinv Hlookup)
      as (pg & _ & _ & Hrun). eauto. }
  destruct (decide (free_list_ st = [] ∧
                    page_capacity_ st ≤ page_count_ st ∧
                    lru_list_ st = [])) as [(Hfree & Hge & Hlru)|Hroom].
  { unfold PagePool.StorePage, bind at 1, gets. rewrite Hlookup.
    unfold bind. rewrite AllocPage_full_run by done. unfold ret. eauto. }
  destruct (AllocPage_progress st Hinv) as (f & st1 & Halloc).
  { destruct (free_list_ st), (lru_list_ st); try (left; done);
      try (right; right; done).
    right. left. apply not_and_l in Hroom as [?|Hroom]; [done|].
    apply not_and_l in Hroom as [?|?]; [lia|done]. }
  destruct (AllocPage_result _ _ _ Hinv Halloc) as (pg & Hf & Hpin & Ht & Hd).
  destruct (decide (fetch_mode = kIgnorePageData ∨
                    hd kSuccess (read_script (world st1)) = kSuccess))
    as [Hok|Hfail].
  - destruct (AssignPageToStore_success_run st1 f pg store page_id fetch_mode
                Hf Ht Hok) as (st2 & pg2 & Hassign & _).
    erewrite StorePage_miss_success by done. eauto.
  - assert (Hmode : fetch_mode ≠ kIgnorePageData) by tauto.
    assert (Hstatus : hd kSuccess (read_script (world st1)) ≠ kSuccess)
      by tauto.
    destruct fetch_mode; [|done].
    destruct (read_script (world st1)) as [|status rest] eqn:Hscript; [done|].
    simpl in Hstatus.
    destruct (AssignPageToStore_failure_run st1 f pg store page_id status rest
                Hf Ht Hscript Hstatus) as (st2 & Hassign & Hheap2 & _).
    assert (Hf2 : heap st2 !! f =
                  Some (with_dirty false (with_assignment None page_id pg))).
    { rewrite Hheap2. apply list_lookup_insert_eq. by eapply lookup_lt_Some. }
    rewrite (StorePage_miss_failure st store page_id kFetchPageData f status
               st1 st2 _ Hlookup Halloc Hassign Hstatus Hf2) by done.
    eauto.
Qed.

(** ** The log of events and the total pin count *)

Lemma new_events_app st st' events :
  trace (world st') = trace (world st) ++ events →
  new_events st st' = events.
Proof. unfold new_events. intros ->. by rewrite drop_app_length. Qed.

Lemma sum_list_zero (l : list nat) : sum_list l = 0 ↔ ∀ n, n ∈ l → n = 0.
Proof.
  induction l as [|x l IH]; simpl.
  - split; [by intros _ n ?%elem_of_nil | done].
  - split.
    + intros Hsum n [->|Hn]%elem_of_cons; [lia|]. apply IH; [lia|done].
    + intros Hall. rewrite (Hall x) by set_solver. simpl.
      apply IH. intros n Hn. apply Hall. set_solver.
Qed.

Lemma pinned_pages_zero st :
  PagePool.pinned_pages st = 0 ↔
  ∀ (f : PagePtr) pg, heap st !! f = Some pg → pin_count_ pg = 0.
Proof.
  unfold PagePool.pinned_pages. rewrite sum_list_zero. split.
  - intros Hall f pg Hf. apply Hall. apply list_elem_of_fmap.
    exists pg. split; [done|]. by eapply list_elem_of_lookup_2.
  - intros Hall n (pg & -> & Hpg)%list_elem_of_fmap.
    apply list_elem_of_lookup in Hpg as [f Hf]. by eapply Hall.
Qed.

(** ** Reachability of the concrete runs *)

Lemma exec_reachable op st : reachable st → reachable (exec (run_op op) st).
Proof.
  intros Hst. unfold exec.
  destruct (run_op op st) as [[[] st']|] eqn:Hrun; [|done].
  by eapply reachable_step.
Qed.

Lemma run_ops_reachable ops st : reachable st → reachable (run_ops ops st).
Proof.
  revert st. induction ops as [|op ops IH]; intros st Hst; [done|].
  apply IH. by apply exec_reachable.
Qed.

Lemma two_freed_reachable : reachable two_freed.
Proof. apply run_ops_reachable, reachable_new. Defined.

Lemma one_resident_reachable : reachable one_resident.
Proof. apply run_ops_reachable, reachable_new. Defined.

Lemma dirty_pinned_reachable : reachable dirty_pinned.
Proof. apply run_ops_reachable, reachable_new. Defined.

Lemma dirty_victim_reachable reads writes :
  reachable (dirty_victim reads writes).
Proof. apply run_ops_reachable, reachable_new. Defined.

Lemma dirty_victim_invariant reads writes :
  pool_invariant (dirty_victim reads writes).
Proof. apply reachable_invariant, run_ops_reachable, reachable_new. Qed.

(** * The claims *)


(** ** C1: the invariant of the reachable states *)

(** C1. In every state reached from a fresh pool by [StorePage],
    [UnpinStorePage], [UnpinUnassignedPage] and [PinTransactionPages] (and
    by [AllocPage] and the clients' [MarkDirty]), every frame is in exactly
    one of the free list, the LRU list and no list, at most once: in the
    free list iff it is unpinned and unassigned, in the LRU list iff it is
    unpinned and assigned, in no list when it is pinned.  The resident map
    sends a key to a frame iff the frame's assignment is that key, the lists
    and the map hold frames of the pool only, and no two frames share an
    assignment. *)
Theorem reachable_pool_consistent st :
  reachable st →
  (∀ (f : PagePtr) pg, heap st !! f = Some pg →
     (list_membership st f = Free ↔
        pin_count_ pg = 0 ∧ transaction_ pg = None) ∧
     (list_membership st f = LRU ↔
        pin_count_ pg = 0 ∧ transaction_ pg ≠ None) ∧
     (0 < pin_count_ pg → list_membership st f = NoList) ∧
     (f ∈ free_list_ st ↔ list_membership st f = Free) ∧
     (f ∈ lru_list_ st ↔ list_membership st f = LRU) ∧
     (∀ k, page_map_ st !! k = Some f ↔ assignment pg = Some k)) ∧
  NoDup (free_list_ st) ∧
  NoDup (lru_list_ st) ∧
  (∀ f : PagePtr, f ∈ free_list_ st ++ lru_list_ st → is_Some (heap st !! f)) ∧
  (∀ k (f : PagePtr), page_map_ st !! k = Some f → is_Some (heap st !! f)) ∧
  (∀ (f g : PagePtr) pf pg k,
     heap st !! f = Some pf → heap st !! g = Some pg →
     assignment pf = Some k → assignment pg = Some k → f = g).
Proof.
  intros Hinv%reachable_invariant. split_and!.
  - intros f pg Hf. frame_facts Hinv Hf. unfold list_membership.
    destruct (decide (f ∈ free_list_ st)), (decide (f ∈ lru_list_ st));
      split_and!; try done; try tauto; try (intuition (done || lia)).
  - apply Hinv.
  - apply Hinv.
  - intros f [Hf|Hf]%elem_of_app.
    + apply (inv_free _ Hinv) in Hf as (pg & ? & _). eauto.
    + apply (inv_lru _ Hinv) in Hf as (pg & ? & _). eauto.
  - intros k f (pg & ? & _)%(inv_map _ Hinv). eauto.
  - intros f g pf pg k Hf Hg Hkf Hkg.
    apply (inv_map_at _ _ _ Hinv Hf) in Hkf.
    apply (inv_map_at _ _ _ Hinv Hg) in Hkg. congruence.
Qed.

Lemma reachable_pool_consistent_witness :
  reachable one_resident ∧
  (list_membership one_resident 0 = LRU ↔
     0 = 0 ∧ Some (mkTransaction 7 0) ≠ None) ∧
  NoDup (lru_list_ one_resident).
Proof.
  split; [exact one_resident_reachable|].
  destruct (reachable_pool_consistent one_resident one_resident_reachable)
    as (Hframes & _ & Hlru & _).
  split; [|exact Hlru].
  apply (Hframes 0 (mkPage 0 false (Some (mkTransaction 7 0)) 7
                           (replicate 4096 0%N))).
  reflexivity.
Defined.

(** ** C2: a write-back that fails during eviction *)

(** C2, as stated, fails: when the read of the requested page fails too,
    [StorePage] returns the read's [kIoError] and no frame. *)
Lemma write_failure_swallowed_fails :
  ¬ write_failure_swallowed kFetchPageData 7 2
      (dirty_victim [kIoError] [kIoError]).
Proof.
  intros Hclaim.
  destruct (Hclaim 0 []
              (mkPage 0 true (Some (mkTransaction 7 0)) 1 (replicate 4096 0%N))
              (mkTransaction 7 0))
    as (st' & pg' & Hrun & _).
  1-8: first [reflexivity | apply le_n | discriminate].
  apply (f_equal (fmap fst)) in Hrun.
  change (Some (kIoError, None) = Some (kSuccess, Some 0)) in Hrun.
  discriminate Hrun.
Qed.

(** C2, amended. When the eviction's [WritePage] fails, then, whatever
    becomes of the fetch of the requested page: [UnassignPersistedPage] is
    still called on the victim, the victim's store is closed, the victim's
    key leaves the resident map, and the write error is not returned, the
    status of [StorePage] being that of the fetch alone.  When the fetch
    succeeds (the mode is [kIgnorePageData], or [ReadPage] answers
    [kSuccess]), [StorePage] returns [kSuccess] and the victim's frame,
    pinned once and assigned to the requested key. *)
Theorem write_failure_not_propagated fetch_mode store page_id st
    (victim : PagePtr) rest pg t :
  reachable st →
  page_map_ st !! (store, page_id) = None →
  free_list_ st = [] → page_capacity_ st ≤ page_count_ st →
  lru_list_ st = victim :: rest →
  heap st !! victim = Some pg → transaction_ pg = Some t →
  is_dirty_ pg = true →
  hd kSuccess (write_script (world st)) ≠ kSuccess →
  ∃ status result st',
    PagePool.StorePage store page_id fetch_mode st =
      Some ((status, result), st') ∧
    EvWritePage (txn_store t) (page_id_ pg) ∈ new_events st st' ∧
    EvUnassignPersistedPage t victim ∈ new_events st st' ∧
    EvClose (txn_store t) ∈ new_events st st' ∧
    txn_store t ∈ closed_stores (world st') ∧
    page_map_ st' !! (txn_store t, page_id_ pg) = None ∧
    status = (if decide (fetch_mode = kIgnorePageData) then kSuccess
              else hd kSuccess (read_script (world st))) ∧
    (status = kSuccess →
       result = Some victim ∧
       ∃ pg', heap st' !! victim = Some pg' ∧ pin_count_ pg' = 1 ∧
              assignment pg' = Some (store, page_id) ∧
              page_map_ st' !! (store, page_id) = Some victim) ∧
    (status ≠ kSuccess →
       result = None ∧ page_map_ st' !! (store, page_id) = None).
Proof.
  intros Hinv%reachable_invariant Hmiss Hfree Hge Hlru Hf Ht Hd Hwrite.
  destruct (AllocPage_evict_run st victim rest Hinv Hfree Hge Hlru)
    as (pg0 & st1 & Hf0 & Hpin & _ & Hevict & Halloc & _).
  assert (pg0 = pg) as -> by congruence.
  set (st0 := set_lru_list rest
                (set_heap (<[victim := with_pin_count 1 pg]> (heap st)) st))
    in Hevict.
  assert (Hf1 : heap st0 !! victim = Some (with_pin_count 1 pg)).
  { simpl. apply list_lookup_insert_eq. by eapply lookup_lt_Some. }
  assert (Hk : page_map_ st !! (txn_store t, page_id_ pg) = Some victim).
  { apply (inv_map _ Hinv). exists pg. by rewrite (assignment_Some _ t). }
  assert (Hne : (store, page_id) ≠ (txn_store t, page_id_ pg)).
  { intros Heq. rewrite <- Heq in Hk. congruence. }
  destruct (UnassignPageFromStore_dirty_run st0 victim _ t Hf1 Ht Hd)
    as (st1' & Hevict' & Hheap1 & Hmap1 & _ & _ & _ & _ & _ & Hread1 & _
        & Htrace1 & Hclosed1 & _); [simpl; by eauto|].
  assert (st1' = st1) as -> by congruence.
  simpl in Htrace1, Hclosed1, Hread1, Hmap1, Hheap1.
  destruct (decide (hd kSuccess (write_script (world st)) = kSuccess));
    [done|].
  assert (Hf2 : heap st1 !! victim = Some (evicted (with_pin_count 1 pg))).
  { rewrite Hheap1. apply list_lookup_insert_eq. rewrite length_insert.
    by eapply lookup_lt_Some. }
  assert (Hfetch :
    (fetch_mode = kIgnorePageData ∨
       hd kSuccess (read_script (world st)) = kSuccess) ∨
    (fetch_mode = kFetchPageData ∧
     ∃ status rest', read_script (world st) = status :: rest' ∧
                     status ≠ kSuccess)).
  { destruct fetch_mode; [|by left; left].
    destruct (read_script (world st)) as [|status rest'] eqn:Hscript;
      [by left; right|].
    destruct (decide (status = kSuccess)); [by left; right|].
    right. eauto. }
  destruct Hfetch as [Hok|(-> & status & rest' & Hscript & Hstatus)].
  - destruct (AssignPageToStore_success_run st1 victim _ store page_id
                fetch_mode Hf2)
      as (st2 & pg2 & Hassign & Hheap2 & Hpin2 & _ & Ht2 & Hid2 & Hmap2 & _
          & _ & _ & _ & Htrace2 & Hclosed2 & _); [done|by rewrite Hread1|].
    assert (Hnew : ∃ events,
              new_events st st2 =
                [EvMapErase (txn_store t) (page_id_ pg);
                 EvWritePage (txn_store t) (page_id_ pg);
                 EvUnassignPersistedPage t victim;
                 EvClose (txn_store t)] ++ events).
    { eexists. apply new_events_app. rewrite Htrace2, Htrace1.
      rewrite <- !app_assoc. reflexivity. }
    destruct Hnew as [events Hnew].
    exists kSuccess, (Some victim), st2. rewrite Hnew.
    split_and!.
    + by eapply StorePage_miss_success.
    + set_solver.
    + set_solver.
    + set_solver.
    + rewrite Hclosed2, Hclosed1. set_solver.
    + rewrite Hmap2, Hmap1, lookup_insert_ne by done. apply lookup_delete_eq.
    + destruct Hok as [->|Hhd]; [done|].
      destruct (decide (fetch_mode = kIgnorePageData)); done.
    + intros _. split; [done|]. exists pg2. split_and!.
      * rewrite Hheap2. apply list_lookup_insert_eq.
        by eapply lookup_lt_Some.
      * by rewrite Hpin2.
      * unfold assignment. by rewrite Ht2, Hid2.
      * rewrite Hmap2. apply lookup_insert_eq.
    + done.
  - rewrite <- Hread1 in Hscript.
    destruct (AssignPageToStore_failure_run st1 victim _ store page_id status
                rest' Hf2 eq_refl Hscript Hstatus)
      as (st2 & Hassign & Hheap2 & Hmap2 & _ & _ & _ & _ & Htrace2 & Hclosed2
          & _).
    assert (Hf3 : heap st2 !! victim =
              Some (with_dirty false
                      (with_assignment None page_id
                         (evicted (with_pin_count 1 pg))))).
    { rewrite Hheap2. apply list_lookup_insert_eq. by eapply lookup_lt_Some. }
    pose proof (StorePage_miss_failure st store page_id kFetchPageData victim
                  status st1 st2 _ Hmiss Halloc Hassign Hstatus Hf3 eq_refl
                  eq_refl) as Hrun.
    assert (Hnew : ∃ events,
              new_events st st2 =
                [EvMapErase (txn_store t) (page_id_ pg);
                 EvWritePage (txn_store t) (page_id_ pg);
                 EvUnassignPersistedPage t victim;
                 EvClose (txn_store t)] ++ events).
    { eexists. apply new_events_app. rewrite Htrace2, Htrace1.
      rewrite <- !app_assoc. reflexivity. }
    destruct Hnew as [events Hnew].
    eexists status, None, _. split; [exact Hrun|].
    unfold new_events in *. simpl. rewrite Hnew.
    split_and!.
    + set_solver.
    + set_solver.
    + set_solver.
    + rewrite Hclosed2, Hclosed1. set_solver.
    + rewrite Hmap2, Hmap1. apply lookup_delete_eq.
    + rewrite Hread1 in Hscript. by rewrite Hscript.
    + done.
    + intros _. split; [done|].
      rewrite Hmap2, Hmap1, lookup_delete_ne by done. done.
Qed.

Lemma write_failure_not_propagated_witness :
  (∃ status result st',
     PagePool.StorePage 7 2 kFetchPageData
       (dirty_victim [kIoError] [kIoError]) = Some ((status, result), st') ∧
     EvUnassignPersistedPage (mkTransaction 7 0) 0 ∈
       new_events (dirty_victim [kIoError] [kIoError]) st' ∧
     EvClose 7 ∈ new_events (dirty_victim [kIoError] [kIoError]) st' ∧
     7 ∈ closed_stores (world st') ∧
     status = hd kSuccess
                (read_script (world (dirty_victim [kIoError] [kIoError])))) ∧
  (∃ status result st',
     PagePool.StorePage 7 2 kFetchPageData (dirty_victim [] [kIoError]) =
       Some ((status, result), st') ∧
     EvClose 7 ∈ new_events (dirty_victim [] [kIoError]) st' ∧
     status = hd kSuccess
                (read_script (world (dirty_victim [] [kIoError]))) ∧
     (status = kSuccess →
        result = Some 0 ∧
        ∃ pg', heap st' !! 0 = Some pg' ∧ pin_count_ pg' = 1 ∧
               assignment pg' = Some (7, 2) ∧
               page_map_ st' !! (7, 2) = Some 0)).
Proof.
  split.
  - destruct (write_failure_not_propagated kFetchPageData 7 2
                (dirty_victim [kIoError] [kIoError]) 0 []
                (mkPage 0 true (Some (mkTransaction 7 0)) 1
                        (replicate 4096 0%N))
                (mkTransaction 7 0) (dirty_victim_reachable _ _))
      as (status & result & st' & Hrun & _ & Hpersisted & Hclose & Hclosed
          & _ & Hstatus & _).
    1-8: first [reflexivity | apply le_n | discriminate].
    exists status, result, st'. split_and!; assumption.
  - destruct (write_failure_not_propagated kFetchPageData 7 2
                (dirty_victim [] [kIoError]) 0 []
                (mkPage 0 true (Some (mkTransaction 7 0)) 1
                        (replicate 4096 0%N))
                (mkTransaction 7 0) (dirty_victim_reachable _ _))
      as (status & result & st' & Hrun & _ & _ & Hclose & _ & _ & Hstatus
          & Hok & _).
    1-8: first [reflexivity | apply le_n | discriminate].
    exists status, result, st'. split_and!; assumption.
Defined.

(** ** C3: a full pool *)

(** C3. When the free list is empty, [page_count_] has reached
    [page_capacity_] and the LRU list is empty, [StorePage] on a key that
    is not resident returns [kPoolFull], leaves [*result] alone and changes
    nothing: the frames, the resident map and both lists are as before. *)
Theorem StorePage_pool_full st store page_id fetch_mode :
  free_list_ st = [] →
  page_capacity_ st ≤ page_count_ st →
  lru_list_ st = [] →
  page_map_ st !! (store, page_id) = None →
  PagePool.StorePage store page_id fetch_mode st = Some ((kPoolFull, None), st).
Proof.
  intros Hfree Hge Hlru Hmiss.
  unfold PagePool.StorePage, bind at 1, gets. rewrite Hmiss.
  unfold bind. by rewrite AllocPage_full_run.
Qed.

Lemma StorePage_pool_full_witness :
  (free_list_ two_pinned = [] ∧
   page_capacity_ two_pinned ≤ page_count_ two_pinned ∧
   lru_list_ two_pinned = [] ∧
   page_map_ two_pinned !! (7, 3) = None) ∧
  (pin_count_ <$> heap two_pinned) = [1; 1] ∧
  PagePool.StorePage 7 3 kFetchPageData two_pinned =
    Some ((kPoolFull, None), two_pinned).
Proof.
  split; [by split_and!|]. split; [reflexivity|].
  apply (StorePage_pool_full two_pinned 7 3 kFetchPageData);
    [reflexivity | apply le_n | reflexivity | reflexivity].
Defined.

(** ** C4: a fetch that fails *)

(** C4, as stated, fails: the frame for the requested page came from the
    eviction of the resident page (7, 1); when [StorePage] returns
    [kIoError] that page is no longer resident and its frame is in the free
    list, which was empty. *)
Lemma failed_fetch_changes_nothing_fails :
  ¬ failed_fetch_changes_nothing 7 2 (dirty_victim [kIoError] []).
Proof.
  intros Hclaim.
  pose proof (dirty_victim_invariant [kIoError] []) as Hinv.
  destruct (AllocPage_progress _ Hinv) as (f & st1 & Halloc).
  { right. right. change ([0] ≠ []). discriminate. }
  destruct (Hclaim f st1 [] eq_refl Halloc eq_refl)
    as (st' & pg' & Hrun & _ & _ & _ & _ & _ & Hobs).
  destruct (failed_fetch_run 7 2 _ f st1 kIoError [] Hinv eq_refl Halloc
              eq_refl ltac:(discriminate))
    as (st'' & _ & Hrun' & _ & _ & _ & _ & Hfree & _).
  assert (st'' = st') as -> by congruence.
  apply (f_equal (λ o, o.1.1.1.2)) in Hobs.
  change (free_list_ st' = []) in Hobs.
  rewrite Hfree in Hobs. destruct (free_list_ st1); discriminate Hobs.
Qed.

(** C4, amended. When [AllocPage] has a frame to give and the read of the
    requested page fails, [StorePage] returns the status of the read
    ([kIoError] when the medium says so) and no frame; the frame [AllocPage]
    gave ends unpinned, unassigned and on the free list, and the requested
    key is not resident.  Beyond the failed read, the only change is what
    [AllocPage] did to get the frame, which is not undone: the growth of
    the pool or the eviction of the LRU victim.  When the frame came from
    the free list nothing observable changes: the free list holds the same
    frames, and the LRU list, the resident map, the number of frames and
    the pins, dirty flags and assignments of all frames are as before. *)
Theorem failed_fetch_returns_frame store page_id st status rest :
  reachable st →
  page_map_ st !! (store, page_id) = None →
  free_list_ st ≠ [] ∨ page_count_ st < page_capacity_ st ∨
    lru_list_ st ≠ [] →
  read_script (world st) = status :: rest →
  status ≠ kSuccess →
  ∃ (f : PagePtr) st1 st' pg',
    PagePool.AllocPage st = Some (Some f, st1) ∧
    PagePool.StorePage store page_id kFetchPageData st =
      Some ((status, None), st') ∧
    heap st' !! f = Some pg' ∧ pin_count_ pg' = 0 ∧
    transaction_ pg' = None ∧
    f ∈ free_list_ st' ∧
    free_list_ st' ≡ₚ f :: free_list_ st1 ∧
    lru_list_ st' = lru_list_ st1 ∧
    page_map_ st' = page_map_ st1 ∧
    page_count_ st' = page_count_ st1 ∧
    page_map_ st' !! (store, page_id) = None ∧
    (∀ g : PagePtr, g ≠ f → heap st' !! g = heap st1 !! g) ∧
    (free_list_ st ≠ [] →
       free_list_ st' ≡ₚ free_list_ st ∧
       lru_list_ st' = lru_list_ st ∧
       page_map_ st' = page_map_ st ∧
       page_count_ st' = page_count_ st ∧
       ((λ pg, (pin_count_ pg, is_dirty_ pg, assignment pg)) <$> heap st') =
       ((λ pg, (pin_count_ pg, is_dirty_ pg, assignment pg)) <$> heap st)).
Proof.
  intros Hinv%reachable_invariant Hmiss Hroom Hscript Hstatus.
  destruct (AllocPage_progress st Hinv Hroom) as (f & st1 & Halloc).
  destruct (failed_fetch_run store page_id st f st1 status rest Hinv Hmiss
              Halloc Hscript Hstatus)
    as (st' & pg' & Hrun & Hf & Hpin & Ht & Hd & Hfree & Hlru & Hmap & Hcount
        & Hgone & Hframe).
  assert (Hperm : free_list_ st' ≡ₚ f :: free_list_ st1).
  { rewrite Hfree. symmetry. apply Permutation_cons_append. }
  exists f, st1, st', pg'. split_and!; try done.
  - rewrite Hperm. apply elem_of_cons. by left.
  - intros Hnonempty.
    destruct (free_list_ st) as [|f0 rest0] eqn:Hfree0; [done|].
    destruct (AllocPage_free_run st f0 rest0 Hinv Hfree0)
      as (pg & Hf0 & Hpin0 & Ht0 & Hd0 & Halloc').
    rewrite Halloc' in Halloc. injection Halloc as <- <-.
    simpl in Hperm, Hlru, Hmap, Hcount, Hframe.
    split_and!; try done.
    apply list_eq. intros g. rewrite !list_lookup_fmap.
    destruct (decide (g = f0)) as [->|Hne].
    + rewrite Hf, Hf0. simpl.
      by rewrite Hpin, Hpin0, Hd, Hd0, !assignment_None.
    + rewrite (Hframe g Hne). by rewrite list_lookup_insert_ne.
Qed.

Lemma two_freed_read_fails_reachable : reachable two_freed_read_fails.
Proof. apply run_ops_reachable, reachable_new. Qed.

Lemma failed_fetch_returns_frame_witness :
  (∃ (f : PagePtr) st1 st' pg',
     PagePool.AllocPage (dirty_victim [kIoError] []) = Some (Some f, st1) ∧
     PagePool.StorePage 7 2 kFetchPageData (dirty_victim [kIoError] []) =
       Some ((kIoError, None), st') ∧
     heap st' !! f = Some pg' ∧ pin_count_ pg' = 0 ∧
     transaction_ pg' = None ∧ f ∈ free_list_ st' ∧
     page_map_ st' !! (7, 2) = None) ∧
  (∃ st',
     PagePool.StorePage 7 2 kFetchPageData two_freed_read_fails =
       Some ((kIoError, None), st') ∧
     free_list_ st' ≡ₚ free_list_ two_freed_read_fails ∧
     lru_list_ st' = lru_list_ two_freed_read_fails ∧
     page_map_ st' = page_map_ two_freed_read_fails ∧
     page_count_ st' = page_count_ two_freed_read_fails).
Proof.
  split.
  - destruct (failed_fetch_returns_frame 7 2 (dirty_victim [kIoError] [])
                kIoError [] (dirty_victim_reachable _ _))
      as (f & st1 & st' & pg' & Halloc & Hrun & Hf & Hpin & Ht & Hfree
          & _ & _ & _ & _ & Hmiss & _).
    + reflexivity.
    + right. right. change ([0] ≠ []). discriminate.
    + reflexivity.
    + discriminate.
    + exists f, st1, st', pg'. split_and!; assumption.
  - destruct (failed_fetch_returns_frame 7 2 two_freed_read_fails
                kIoError [] two_freed_read_fails_reachable)
      as (f & st1 & st' & pg' & _ & Hrun & _ & _ & _ & _ & _ & _ & _ & _ & _
          & _ & Hsame).
    + reflexivity.
    + left. change ([0; 1] ≠ []). discriminate.
    + reflexivity.
    + discriminate.
    + destruct Hsame as (Hfree & Hlru & Hmap & Hcount & _).
      { change ([0; 1] ≠ []). discriminate. }
      exists st'. split_and!; assumption.
Defined.

(** ** C5: the decision tree of [AllocPage] *)

(** C5. [AllocPage] decides in this order: (1) a non-empty free list gives
    its front frame, which is unassigned and clean, pinned; (2) otherwise,
    below capacity, [page_count_] is incremented and a new zero-initialized
    frame is returned, pinned once and unassigned; (3) otherwise a non-empty
    LRU list gives its front frame, pinned and evicted through
    [UnassignPageFromStore]; (4) otherwise the result is null and the state
    is untouched.  The frames ever created number [page_count_], which never
    exceeds [page_capacity_]. *)
Theorem AllocPage_decision_tree st :
  reachable st →
  (∀ (f : PagePtr) rest, free_list_ st = f :: rest →
     ∃ pg, heap st !! f = Some pg ∧ pin_count_ pg = 0 ∧
           transaction_ pg = None ∧ is_dirty_ pg = false ∧
           PagePool.AllocPage st =
           Some (Some f, set_heap (<[f := with_pin_count 1 pg]> (heap st))
                           (set_free_list rest st))) ∧
  (free_list_ st = [] → page_count_ st < page_capacity_ st →
     PagePool.AllocPage st =
     Some (Some (length (heap st)),
           set_world (log_event (EvCreate (length (heap st))) (world st))
             (set_heap
                (heap st ++
                 [mkPage 1 false None 0
                         (replicate (N.to_nat (page_size_ st)) 0%N)])
                (set_page_count (S (page_count_ st)) st)))) ∧
  (free_list_ st = [] → page_capacity_ st ≤ page_count_ st →
   ∀ (f : PagePtr) rest, lru_list_ st = f :: rest →
     ∃ pg st',
       heap st !! f = Some pg ∧ pin_count_ pg = 0 ∧ transaction_ pg ≠ None ∧
       PagePool.UnassignPageFromStore f
         (set_lru_list rest
            (set_heap (<[f := with_pin_count 1 pg]> (heap st)) st)) =
         Some (tt, st') ∧
       PagePool.AllocPage st = Some (Some f, st') ∧
       heap st' = <[f := evicted (with_pin_count 1 pg)]> (heap st) ∧
       (∀ k, assignment pg = Some k →
             page_map_ st' = delete k (page_map_ st)) ∧
       lru_list_ st' = rest ∧
       free_list_ st' = [] ∧
       page_count_ st' = page_count_ st) ∧
  (free_list_ st = [] → page_capacity_ st ≤ page_count_ st →
   lru_list_ st = [] →
     PagePool.AllocPage st = Some (None, st)) ∧
  length (heap st) = page_count_ st ∧
  page_count_ st ≤ page_capacity_ st.
Proof.
  intros Hinv%reachable_invariant. split_and!.
  - intros f rest. by apply AllocPage_free_run.
  - apply AllocPage_grow_run.
  - intros Hfree Hge f rest. by apply AllocPage_evict_run.
  - apply AllocPage_full_run.
  - apply Hinv.
  - apply Hinv.
Qed.

Lemma AllocPage_decision_tree_witness :
  reachable two_freed ∧
  length (heap two_freed) = page_count_ two_freed ∧
  page_count_ two_freed ≤ page_capacity_ two_freed.
Proof.
  split; [exact two_freed_reachable|].
  apply (AllocPage_decision_tree two_freed two_freed_reachable).
Defined.

(** ** C6: the hit path *)

(** C6. When the key is resident, [StorePage] returns [kSuccess] and the
    frame the resident map holds: the frame leaves the LRU list if it was
    unpinned, the lists are untouched if it was pinned, and its pin count
    grows by one.  Nothing else changes, whatever the fetch mode: no frame
    is created, the store is not read, and the resident map still sends the
    key to the same frame, so a further [StorePage] returns it again. *)
Theorem StorePage_hit st store page_id fetch_mode (f : PagePtr) :
  reachable st →
  page_map_ st !! (store, page_id) = Some f →
  ∃ pg st',
    heap st !! f = Some pg ∧
    PagePool.StorePage store page_id fetch_mode st =
      Some ((kSuccess, Some f), st') ∧
    heap st' = <[f := with_pin_count (S (pin_count_ pg)) pg]> (heap st) ∧
    lru_list_ st' =
      (if pin_count_ pg =? 0 then LinkedList.erase f (lru_list_ st)
       else lru_list_ st) ∧
    (f ∉ lru_list_ st') ∧
    free_list_ st' = free_list_ st ∧
    page_count_ st' = page_count_ st ∧
    page_map_ st' = page_map_ st ∧
    world st' = world st ∧
    ∀ fetch_mode', ∃ st'',
      PagePool.StorePage store page_id fetch_mode' st' =
        Some ((kSuccess, Some f), st'').
Proof.
  intros Hreach Hk. pose proof (reachable_invariant _ Hreach) as Hinv.
  destruct (StorePage_hit_run st store page_id fetch_mode f Hinv Hk)
    as (pg & Hf & Ha & Hrun).
  eexists pg, _. split; [done|]. split; [exact Hrun|].
  assert (Hinv' : pool_invariant
            (set_heap (<[f:=with_pin_count (S (pin_count_ pg)) pg]> (heap st))
               (if pin_count_ pg =? 0
                then set_lru_list (LinkedList.erase f (lru_list_ st)) st
                else st))).
  { eapply StorePage_invariant; [exact Hinv | exact Hrun]. }
  frame_facts Hinv Hf.
  destruct (pin_count_ pg =? 0) eqn:Hpin; bool_simpl; simpl;
    (split_and!; try done;
     [ rewrite ?elem_of_erase; tauto
     | intros fetch_mode';
       edestruct (StorePage_hit_run _ store page_id fetch_mode' f Hinv')
         as (pg' & _ & _ & Hrun'); [exact Hk|]; eauto ]).
Qed.

Lemma StorePage_hit_witness :
  page_map_ one_resident !! (7, 7) = Some 0 ∧
  lru_list_ one_resident = [0] ∧
  ∃ pg st',
    heap one_resident !! 0 = Some pg ∧
    PagePool.StorePage 7 7 kFetchPageData one_resident =
      Some ((kSuccess, Some 0), st') ∧
    (0 ∉ lru_list_ st').
Proof.
  split; [reflexivity|]. split; [reflexivity|].
  destruct (StorePage_hit one_resident 7 7 kFetchPageData 0
              one_resident_reachable)
    as (pg & st' & Hf & Hrun & _ & _ & Hlru & _); [reflexivity|].
  exists pg, st'. done.
Defined.

(** ** C7: the order in which freed frames are reused *)

(** C7, on the code: frames 0 and 1 are handed out and freed, frame 0
    first; the free list is then [0; 1] and the next [AllocPage] reuses
    frame 0, the frame freed first, not frame 1, the frame freed last. *)
Theorem free_list_reuses_first_freed :
  free_list_ two_freed = [0; 1] ∧
  fst <$> PagePool.AllocPage two_freed = Some (Some 0).
Proof. split; reflexivity. Qed.

(** ** C8: write-back and the resident map during eviction *)

(** C8. During the eviction of a dirty frame, the caller of
    [UnassignPageFromStore] sees the page written back before it sees the
    entry of the old key gone: the entry is there when the call starts, and
    when the call returns [WritePage] has been called and the entry is
    gone, so that no state the caller sees lacks the entry without the
    write-back in the log.  After the call no lookup in the resident map
    gives the evicted frame.  Inside the call the key is erased first and
    [WritePage] is called next, which no caller can observe. *)
Theorem write_back_precedes_removal_for_caller st (f : PagePtr) pg t :
  reachable st →
  heap st !! f = Some pg → transaction_ pg = Some t → is_dirty_ pg = true →
  ∃ st' rest,
    PagePool.UnassignPageFromStore f st = Some (tt, st') ∧
    page_map_ st !! (txn_store t, page_id_ pg) = Some f ∧
    EvWritePage (txn_store t) (page_id_ pg) ∈ new_events st st' ∧
    page_map_ st' !! (txn_store t, page_id_ pg) = None ∧
    write_back_seen_before_removal (txn_store t, page_id_ pg) st st' ∧
    (∀ k, page_map_ st' !! k ≠ Some f) ∧
    new_events st st' =
      EvMapErase (txn_store t) (page_id_ pg) ::
      EvWritePage (txn_store t) (page_id_ pg) :: rest ∧
    logged_before (EvMapErase (txn_store t) (page_id_ pg))
                  (EvWritePage (txn_store t) (page_id_ pg))
                  (new_events st st').
Proof.
  intros Hinv%reachable_invariant Hf Ht Hd.
  assert (Hk : page_map_ st !! (txn_store t, page_id_ pg) = Some f).
  { apply (inv_map _ Hinv). exists pg. by rewrite (assignment_Some _ t). }
  destruct (UnassignPageFromStore_dirty_run st f pg t Hf Ht Hd)
    as (st' & Hrun & _ & Hmap & _ & _ & _ & _ & _ & _ & _ & Htrace & _);
    [by eauto|].
  apply new_events_app in Htrace.
  assert (Hwritten :
            EvWritePage (txn_store t) (page_id_ pg) ∈ new_events st st').
  { rewrite Htrace. simpl. rewrite !elem_of_cons. auto. }
  exists st'. eexists. split_and!; [done|done|done| | | |exact Htrace|].
  - rewrite Hmap. apply lookup_delete_eq.
  - intros s [->| ->] Hgone; [congruence|done].
  - intros k Hkf. rewrite Hmap in Hkf.
    destruct (decide (k = (txn_store t, page_id_ pg))) as [->|Hne].
    + by rewrite lookup_delete_eq in Hkf.
    + rewrite lookup_delete_ne in Hkf by done.
      apply (inv_map_at _ _ _ Hinv Hf) in Hkf.
      rewrite (assignment_Some _ t) in Hkf by done. congruence.
  - rewrite Htrace. exists 0, 1. simpl. split_and!; [done..|lia].
Qed.

Lemma write_back_precedes_removal_for_caller_witness :
  ∃ st' rest,
    PagePool.UnassignPageFromStore 0 dirty_pinned = Some (tt, st') ∧
    page_map_ dirty_pinned !! (7, 1) = Some 0 ∧
    EvWritePage 7 1 ∈ new_events dirty_pinned st' ∧
    page_map_ st' !! (7, 1) = None ∧
    write_back_seen_before_removal (7, 1) dirty_pinned st' ∧
    (∀ k, page_map_ st' !! k ≠ Some 0) ∧
    new_events dirty_pinned st' = EvMapErase 7 1 :: EvWritePage 7 1 :: rest ∧
    logged_before (EvMapErase 7 1) (EvWritePage 7 1)
                  (new_events dirty_pinned st').
Proof.
  apply (write_back_precedes_removal_for_caller dirty_pinned 0
           (mkPage 1 true (Some (mkTransaction 7 0)) 1
                   (replicate 4096 0%N))
           (mkTransaction 7 0) dirty_pinned_reachable);
    reflexivity.
Defined.

(** ** C9: destruction *)

(** C9. The destructor asserts that the total pin count is zero; it then
    releases every frame of the free list and every frame of the LRU list,
    which are all the frames of the pool.  It logs no [WritePage] and
    leaves the data files as they are, so what the dirty frames of the LRU
    list hold is lost. *)
Theorem destroy_releases_without_write_back st :
  reachable st →
  (PagePool.pinned_pages st ≠ 0 → PagePool.destroy st = None) ∧
  (PagePool.pinned_pages st = 0 →
     PagePool.destroy st =
       Some (mkWorld
               (trace (world st) ++
                (EvRelease <$> free_list_ st) ++ (EvRelease <$> lru_list_ st))
               (read_script (world st)) (write_script (world st))
               (disk (world st)) (closed_stores (world st))) ∧
     (∀ f : PagePtr, f < length (heap st) →
        f ∈ free_list_ st ++ lru_list_ st) ∧
     (∀ store page_id,
        EvWritePage store page_id ∉
          (EvRelease <$> free_list_ st) ++ (EvRelease <$> lru_list_ st))).
Proof.
  intros Hinv%reachable_invariant. split.
  - intros Hpinned. apply Nat.eqb_neq in Hpinned.
    unfold PagePool.destroy, bind at 1, DCHECK. by rewrite Hpinned.
  - intros Hpinned. split_and!.
    + unfold PagePool.destroy, bind at 1, DCHECK. rewrite Hpinned. simpl.
      unfold bind at 1, gets. unfold bind at 1.
      rewrite release_all_run.
      2: { intros f (pg & ? & _)%(inv_free _ Hinv). eauto. }
      unfold bind, gets. rewrite release_all_run.
      2: { intros f (pg & ? & _)%(inv_lru _ Hinv). simpl. eauto. }
      simpl. by rewrite <- app_assoc.
    + intros f [pg Hf]%lookup_lt_is_Some_2.
      pose proof (proj1 (pinned_pages_zero st) Hpinned f pg Hf) as Hpin.
      rewrite elem_of_app, (inv_free_at _ _ _ Hinv Hf),
        (inv_lru_at _ _ _ Hinv Hf).
      destruct (transaction_ pg); [right|left]; done.
    + intros store page_id [H|H]%elem_of_app;
        apply list_elem_of_fmap in H as (? & ? & _); done.
Qed.

Lemma destroy_releases_without_write_back_witness :
  (is_dirty_ <$> heap (dirty_victim [] [])) = [true] ∧
  lru_list_ (dirty_victim [] []) = [0] ∧
  PagePool.pinned_pages (dirty_victim [] []) = 0 ∧
  PagePool.destroy (dirty_victim [] []) =
    Some (mkWorld
            [EvCreate 0; EvAssignPage (mkTransaction 7 0) 0 1; EvReadPage 7 1;
             EvMapInsert 7 1 0; EvRelease 0]
            [] [] ∅ []).
Proof.
  split; [reflexivity|]. split; [reflexivity|]. split; [reflexivity|].
  destruct (destroy_releases_without_write_back (dirty_victim [] [])
              (dirty_victim_reachable [] [])) as [_ Hdestroy].
  destruct Hdestroy as (Hrun & _); [reflexivity|].
  rewrite Hrun. reflexivity.
Defined.

(** ** C10: the statuses of the libc VFS *)

Ltac unfold_libc :=
  repeat progress
    unfold Vfs.OpenForRandomAccess, Vfs.OpenForBlockAccess, Vfs.RemoveFile,
      LibcVfs.OpenLibcFile, LibcVfs.ReadLibcFile, LibcVfs.WriteLibcFile,
      LibcVfs.SyncLibcFile, LibcBlockAccessFile.new,
      LibcBlockAccessFile.Read, LibcBlockAccessFile.Write,
      LibcBlockAccessFile.Sync, LibcBlockAccessFile.Lock,
      LibcBlockAccessFile.Close, LibcRandomAccessFile.Read,
      LibcRandomAccessFile.Write, LibcRandomAccessFile.Flush,
      LibcRandomAccessFile.Sync, LibcRandomAccessFile.Close,
      Libc.fopen, Libc.fclose, Libc.fseek, Libc.ftell, Libc.fread,
      Libc.fwrite, Libc.fflush, Libc.setbuf, Libc.remove, Libc.open_stream,
      Libc.flush, Libc.view, Libc.set_file, Libc.set_stream,
      Libc.set_unwritten, Libc.stream, Libc.contents, Libc.fault,
      bind, ret, gets, modify, DCHECK in *.

Lemma OpenLibcFile_total platform path create_if_missing error_if_exists libc :
  (error_if_exists = true → create_if_missing = true) →
  ∃ fp size libc',
    LibcVfs.OpenLibcFile platform path create_if_missing error_if_exists libc =
      Some ((fp, size), libc') ∧
    (fp = None → size = 0%N) ∧
    (∀ n, fp = Some n → is_Some (Libc.streams libc' !! n)).
Proof.
  intros Hpre.
  destruct (LibcVfs.OpenLibcFile platform path create_if_missing
              error_if_exists libc) as [[[fp size] libc']|] eqn:Hrun.
  - exists fp, size, libc'. split; [done|].
    unfold_libc. simpl in Hrun.
    repeat (case_match; simplify_map_eq/=; try done); split; try done;
      intros n ?; simplify_map_eq; eauto.
  - exfalso. unfold_libc. simpl in Hrun.
    repeat (case_match; simplify_map_eq/=; try done).
    all: try (destruct error_if_exists, create_if_missing; simpl in *; naive_solver).
Qed.

Lemma OpenLibcFile_missing platform path libc :
  Libc.files libc !! path = None →
  ∃ libc',
    LibcVfs.OpenLibcFile platform path false false libc =
      Some ((None, 0%N), libc').
Proof.
  intros Hmissing. unfold_libc. simpl.
  destruct (Libc.faults libc) as [|[] ?]; simpl; rewrite ?Hmissing; eauto.
Qed.

Ltac status_cases H :=
  unfold_libc; simpl in H;
  repeat (case_match; simplify_eq/=; try done);
  unfold libc_status; auto.

(** C10. The libc VFS gives no status other than [kSuccess] and
    [kIoError].  [Lock] answers [kSuccess] in every state and changes
    nothing: no lock is taken and [kAlreadyLocked] is never given.
    [OpenForRandomAccess] and [OpenForBlockAccess] answer [kSuccess] with a
    file, or [kIoError] with none; every failure to open is [kIoError], in
    particular that of a missing file that is not to be created, so
    [kNotFound] is never given. *)
Theorem libc_vfs_statuses platform libc :
  (∀ file, LibcBlockAccessFile.Lock file libc = Some (kSuccess, libc)) ∧
  (∀ path create_if_missing error_if_exists,
     (error_if_exists = true → create_if_missing = true) →
     ∃ status file size libc',
       Vfs.OpenForRandomAccess platform path create_if_missing
         error_if_exists libc = Some ((status, file, size), libc') ∧
       (status = kSuccess ∧ is_Some file ∨
        status = kIoError ∧ file = None ∧ size = 0%N)) ∧
  (∀ path block_shift create_if_missing error_if_exists,
     (error_if_exists = true → create_if_missing = true) →
     ∃ status file size libc',
       Vfs.OpenForBlockAccess platform path block_shift create_if_missing
         error_if_exists libc = Some ((status, file, size), libc') ∧
       (status = kSuccess ∧ is_Some file ∨
        status = kIoError ∧ file = None ∧ size = 0%N)) ∧
  (∀ path block_shift, Libc.files libc !! path = None →
     ∃ libc',
       Vfs.OpenForRandomAccess platform path false false libc =
         Some ((kIoError, None, 0%N), libc') ∧
       Vfs.OpenForBlockAccess platform path block_shift false false libc =
         Some ((kIoError, None, 0%N), libc')) ∧
  (∀ path, ∃ status libc',
     Vfs.RemoveFile path libc = Some (status, libc') ∧ libc_status status) ∧
  (∀ file offset size status data libc',
     LibcBlockAccessFile.Read file offset size libc =
       Some ((status, data), libc') → libc_status status) ∧
  (∀ file data offset status libc',
     LibcBlockAccessFile.Write file data offset libc = Some (status, libc') →
     libc_status status) ∧
  (∀ file status libc',
     LibcBlockAccessFile.Sync file libc = Some (status, libc') →
     libc_status status) ∧
  (∀ file status libc',
     LibcBlockAccessFile.Close file libc = Some (status, libc') →
     status = kSuccess) ∧
  (∀ file offset size status data libc',
     LibcRandomAccessFile.Read file offset size libc =
       Some ((status, data), libc') → libc_status status) ∧
  (∀ file data offset status libc',
     LibcRandomAccessFile.Write file data offset libc = Some (status, libc') →
     libc_status status) ∧
  (∀ file status libc',
     LibcRandomAccessFile.Flush file libc = Some (status, libc') →
     libc_status status) ∧
  (∀ file status libc',
     LibcRandomAccessFile.Sync file libc = Some (status, libc') →
     libc_status status) ∧
  (∀ file status libc',
     LibcRandomAccessFile.Close file libc = Some (status, libc') →
     status = kSuccess).
Proof.
  split_and!.
  - done.
  - intros path create_if_missing error_if_exists Hpre.
    destruct (OpenLibcFile_total platform path create_if_missing
                error_if_exists libc Hpre)
      as (fp & size & libc' & Hrun & Hnull & _).
    unfold Vfs.OpenForRandomAccess, bind. rewrite Hrun.
    destruct fp as [fp|]; unfold ret; eauto 10.
  - intros path block_shift create_if_missing error_if_exists Hpre.
    destruct (OpenLibcFile_total platform path create_if_missing
                error_if_exists libc Hpre)
      as (fp & size & libc' & Hrun & Hnull & Hopen).
    unfold Vfs.OpenForBlockAccess, bind at 1. rewrite Hrun.
    destruct fp as [fp|]; unfold ret; [|by eauto 10].
    destruct (Hopen fp eq_refl) as [s Hs].
    unfold_libc. rewrite Hs. eauto 10.
  - intros path block_shift Hmissing.
    destruct (OpenLibcFile_missing platform path libc Hmissing)
      as [libc' Hrun].
    exists libc'.
    unfold Vfs.OpenForRandomAccess, Vfs.OpenForBlockAccess, bind.
    by rewrite Hrun.
  - intros path. unfold_libc. unfold libc_status.
    destruct (Libc.faults libc) as [|[] ?]; simpl;
      destruct (Libc.files libc !! path); simpl; eauto.
  - intros file offset size status data libc' H. status_cases H.
  - intros file data offset status libc' H. status_cases H.
  - intros file status libc' H. status_cases H.
  - intros file status libc' H. status_cases H.
  - intros file offset size status data libc' H. status_cases H.
  - intros file data offset status libc' H. status_cases H.
  - intros file status libc' H. status_cases H.
  - intros file status libc' H. status_cases H.
  - intros file status libc' H. status_cases H.
Qed.

Lemma libc_vfs_statuses_witness :
  Vfs.OpenForRandomAccess LibcVfs.Posix "test_store.berry" false false
    empty_libc = Some ((kIoError, None, 0%N), empty_libc) ∧
  ∃ status file size libc',
    Vfs.OpenForBlockAccess LibcVfs.Posix "test_page.berry" 12 true false
      empty_libc = Some ((status, file, size), libc') ∧
    (status = kSuccess ∧ is_Some file ∨
     status = kIoError ∧ file = None ∧ size = 0%N).
Proof.
  split; [reflexivity|].
  apply (libc_vfs_statuses LibcVfs.Posix empty_libc). discriminate.
Defined.
(** * Further properties of the pool *)

(** ** How [StorePage] decomposes *)

Lemma StorePage_hit_inv store page_id fetch_mode st (f : PagePtr) x st' :
  page_map_ st !! (store, page_id) = Some f →
  PagePool.StorePage store page_id fetch_mode st = Some (x, st') →
  x = (kSuccess, Some f) ∧ PagePool.PinStorePage f st = Some (tt, st').
Proof.
  intros Hk H. unfold PagePool.StorePage in H.
  apply bind_Some in H as (map & st0 & Hmap & H).
  unfold gets in Hmap. simplify_eq. rewrite Hk in H.
  apply bind_Some in H as (pg & st1 & Hpg & H).
  apply bind_Some in H as ([] & st2 & Hd & H).
  apply bind_Some in H as ([] & st3 & Hpin & H).
  unfold deref in Hpg. destruct (heap st0 !! f); [|done].
  unfold DCHECK in Hd. destruct (bool_decide _); [|done].
  unfold ret in H. by simplify_eq.
Qed.

Lemma StorePage_miss_inv store page_id fetch_mode st status result st' :
  page_map_ st !! (store, page_id) = None →
  PagePool.StorePage store page_id fetch_mode st =
    Some ((status, result), st') →
  (PagePool.AllocPage st = Some (None, st') ∧
   status = kPoolFull ∧ result = None) ∨
  (∃ (f : PagePtr) st1,
     PagePool.AllocPage st = Some (Some f, st1) ∧
     PagePool.AssignPageToStore f store page_id fetch_mode st1 =
       Some (kSuccess, st') ∧
     status = kSuccess ∧ result = Some f) ∨
  (∃ (f : PagePtr) st1 st2,
     PagePool.AllocPage st = Some (Some f, st1) ∧
     PagePool.AssignPageToStore f store page_id fetch_mode st1 =
       Some (status, st2) ∧
     status ≠ kSuccess ∧ result = None ∧
     PagePool.UnpinUnassignedPage f st2 = Some (tt, st')).
Proof.
  intros Hk H. unfold PagePool.StorePage in H.
  apply bind_Some in H as (map & st0 & Hmap & H).
  unfold gets in Hmap. simplify_eq. rewrite Hk in H.
  apply bind_Some in H as (alloc & st1 & Halloc & H).
  destruct alloc as [f|].
  - apply bind_Some in H as (status' & st2 & Hassign & H).
    destruct (decide (status' = kSuccess)) as [->|Hstatus].
    + unfold ret in H. simplify_eq. right. left. eauto 10.
    + apply bind_Some in H as ([] & st3 & Hunpin & H).
      apply bind_Some in H as (unpinned & st4 & Hisun & H).
      apply bind_Some in H as ([] & st5 & Hd & H).
      unfold ret in H. simplify_eq.
      unfold DCHECK in Hd. destruct unpinned; [|done]. simplify_eq.
      unfold Page.IsUnpinned, bind, deref, ret in Hisun.
      destruct (heap st3 !! f); [|done]. simplify_eq.
      right. right. eauto 10.
  - unfold ret in H. simplify_eq. left. done.
Qed.

(** ** The frames an operation leaves alone *)

Lemma PinStorePage_frame (f g : PagePtr) st st' :
  PagePool.PinStorePage f st = Some (tt, st') → g ≠ f →
  heap st' !! g = heap st !! g.
Proof.
  intros H Hne. unfold PagePool.PinStorePage in H.
  run_inv H; by rewrite list_lookup_insert_ne.
Qed.

Lemma UnpinUnassignedPage_frame (f g : PagePtr) st st' :
  PagePool.UnpinUnassignedPage f st = Some (tt, st') → g ≠ f →
  heap st' !! g = heap st !! g.
Proof.
  intros H Hne. unfold PagePool.UnpinUnassignedPage in H.
  run_inv H; by rewrite list_lookup_insert_ne.
Qed.

Lemma AssignPageToStore_frame (f g : PagePtr) store page_id fetch_mode
    st status st' :
  PagePool.AssignPageToStore f store page_id fetch_mode st =
    Some (status, st') →
  g ≠ f → heap st' !! g = heap st !! g.
Proof.
  intros H Hne.
  unfold PagePool.AssignPageToStore, PagePool.FetchStorePage in H.
  run_inv H; by rewrite ?list_lookup_insert_ne.
Qed.

Lemma AllocPage_frame (f g : PagePtr) st st' :
  PagePool.AllocPage st = Some (Some f, st') → g ≠ f →
  heap st' !! g = heap st !! g.
Proof.
  intros H Hne.
  unfold PagePool.AllocPage, PagePool.UnassignPageFromStore, Page.Create in H.
  run_inv H; rewrite ?list_lookup_insert_ne by done; try done.
  destruct (decide (g < length (heap st))).
  - by rewrite lookup_app_l.
  - rewrite !lookup_ge_None_2; [done|lia|].
    rewrite length_app. simpl. lia.
Qed.

(** ** What [AssignPageToStore] and [UnpinUnassignedPage] leave behind *)

Lemma AssignPageToStore_inv (f : PagePtr) pg store page_id fetch_mode
    st status st' :
  heap st !! f = Some pg →
  PagePool.AssignPageToStore f store page_id fetch_mode st =
    Some (status, st') →
  ∃ pg',
    heap st' = <[f := pg']> (heap st) ∧
    pin_count_ pg' = pin_count_ pg ∧
    free_list_ st' = free_list_ st ∧
    lru_list_ st' = lru_list_ st ∧
    page_count_ st' = page_count_ st ∧
    page_size_ st' = page_size_ st ∧
    (status = kSuccess →
       transaction_ pg' = Some (StoreImpl.init_transaction store) ∧
       page_id_ pg' = page_id ∧
       page_map_ st' = <[(store, page_id) := f]> (page_map_ st)) ∧
    (status ≠ kSuccess →
       transaction_ pg' = None ∧ is_dirty_ pg' = false ∧
       page_map_ st' = page_map_ st ∧ fetch_mode = kFetchPageData) ∧
    (fetch_mode = kIgnorePageData →
       status = kSuccess ∧
       buffer_ pg' = replicate (N.to_nat (page_size_ st)) 205%N ∧
       read_script (world st') = read_script (world st) ∧
       trace (world st') =
         trace (world st) ++
         [EvAssignPage (StoreImpl.init_transaction store) f page_id;
          EvMapInsert store page_id f]).
Proof.
  intros Hf H.
  unfold PagePool.AssignPageToStore, PagePool.FetchStorePage,
    StoreImpl.init_transaction in H.
  run_inv H; heap_simpl; eexists; (split; [reflexivity|]); simpl;
    rewrite <- ?app_assoc; split_and!; try done.
Qed.

Lemma UnpinUnassignedPage_inv (f : PagePtr) st st' :
  PagePool.UnpinUnassignedPage f st = Some (tt, st') →
  ∃ pg,
    heap st !! f = Some pg ∧ transaction_ pg = None ∧ pin_count_ pg ≠ 0 ∧
    heap st' = <[f := with_pin_count (pred (pin_count_ pg)) pg]> (heap st) ∧
    free_list_ st' =
      (if pin_count_ pg =? 1 then free_list_ st ++ [f] else free_list_ st) ∧
    lru_list_ st' = lru_list_ st ∧
    page_map_ st' = page_map_ st ∧
    page_count_ st' = page_count_ st ∧
    world st' = world st.
Proof.
  intros H. unfold PagePool.UnpinUnassignedPage in H.
  run_inv H; heap_simpl; bool_simpl; eexists; (split; [done|]); simpl.
  - rename select (pred _ = 0) into Hp.
    assert (pin_count_ p2 = 1) as -> by lia. done.
  - rename select (pred _ ≠ 0) into Hp.
    destruct (pin_count_ p2) as [|[|n]]; done.
Qed.

(** The log only grows, and [AllocPage] never reads a store. *)
Lemma AllocPage_log st r st' :
  PagePool.AllocPage st = Some (r, st') →
  read_script (world st') = read_script (world st) ∧
  ∃ events,
    trace (world st') = trace (world st) ++ events ∧
    ∀ store page_id, EvReadPage store page_id ∉ events.
Proof.
  intros H.
  unfold PagePool.AllocPage, PagePool.UnassignPageFromStore, Page.Create in H.
  run_inv H; (split; [done|]).
  all: try (exists []; rewrite app_nil_r; split; [done|set_solver]).
  all: eexists; (split; [rewrite <- ?app_assoc; reflexivity|]); set_solver.
Qed.

(** A null result of [AllocPage]: the pool is full and nothing changed. *)
Lemma AllocPage_None_inv st st' :
  PagePool.AllocPage st = Some (None, st') →
  free_list_ st = [] ∧ page_capacity_ st ≤ page_count_ st ∧
  lru_list_ st = [] ∧ st' = st.
Proof.
  intros H. unfold PagePool.AllocPage, PagePool.UnassignPageFromStore in H.
  run_inv H. bool_simpl.
  rename select (LinkedList.front (free_list_ _) = None) into Hfree.
  rename select (LinkedList.front (lru_list_ _) = None) into Hlru.
  destruct (free_list_ st'), (lru_list_ st'); done.
Qed.

(** ** X1: what [StorePage] promises its caller *)

(** X1. On every reachable state [StorePage] runs to its end, whatever the
    request.  It leaves a frame in [*result] exactly when it returns
    [kSuccess]; that frame is then pinned, assigned to the requested key,
    and the one the resident map holds for the key.  When it returns
    another status the requested key is not resident afterwards. *)
Theorem StorePage_contract store page_id fetch_mode st :
  reachable st →
  ∃ status result st',
    PagePool.StorePage store page_id fetch_mode st =
      Some ((status, result), st') ∧
    (status = kSuccess ↔ is_Some result) ∧
    (∀ f : PagePtr, result = Some f →
       ∃ pg, heap st' !! f = Some pg ∧ 0 < pin_count_ pg ∧
             assignment pg = Some (store, page_id) ∧
             page_map_ st' !! (store, page_id) = Some f) ∧
    (result = None → page_map_ st' !! (store, page_id) = None).
Proof.
  intros Hinv%reachable_invariant.
  destruct (StorePage_total store page_id fetch_mode st Hinv)
    as ([status result] & st' & Hrun).
  exists status, result, st'. split; [done|].
  destruct (page_map_ st !! (store, page_id)) as [f|] eqn:Hk.
  - destruct (StorePage_hit_run st store page_id fetch_mode f Hinv Hk)
      as (pg & Hf & Ha & Hrun').
    rewrite Hrun' in Hrun. simplify_eq. split_and!; [done| |done].
    intros f' [= <-]. eexists. split_and!.
    + simpl. apply list_lookup_insert_eq.
      destruct (pin_count_ pg =? 0); by eapply lookup_lt_Some.
    + simpl. lia.
    + done.
    + by destruct (pin_count_ pg =? 0).
  - destruct (StorePage_miss_inv _ _ _ _ _ _ _ Hk Hrun)
      as [(Halloc & -> & ->)|[(f & st1 & Halloc & Hassign & -> & ->)|
          (f & st1 & st2 & Halloc & Hassign & Hstatus & -> & Hunpin)]].
    + split_and!; [split; [done|by intros [? ?]]|done|].
      intros _. eapply AllocPage_page_map; eauto.
    + destruct (AllocPage_result _ _ _ Hinv Halloc)
        as (pg & Hf & Hpin & Ht & Hd).
      destruct (AssignPageToStore_inv _ _ _ _ _ _ _ _ Hf Hassign)
        as (pg' & Hheap & Hpin' & _ & _ & _ & _ & Hok & _).
      destruct (Hok eq_refl) as (Ht' & Hid' & Hmap').
      split_and!; [done| |done].
      intros f' [= <-]. exists pg'. split_and!.
      * rewrite Hheap. apply list_lookup_insert_eq. by eapply lookup_lt_Some.
      * lia.
      * unfold assignment. by rewrite Ht', Hid'.
      * rewrite Hmap'. apply lookup_insert_eq.
    + destruct (AllocPage_result _ _ _ Hinv Halloc)
        as (pg & Hf & Hpin & Ht & Hd).
      destruct (AssignPageToStore_inv _ _ _ _ _ _ _ _ Hf Hassign)
        as (pg' & Hheap & Hpin' & _ & _ & _ & _ & _ & Hfail & _).
      destruct (Hfail Hstatus) as (_ & _ & Hmap2 & _).
      destruct (UnpinUnassignedPage_inv _ _ _ Hunpin)
        as (pg2 & _ & _ & _ & _ & _ & _ & Hmap3 & _).
      split_and!; [split; [done|by intros [? ?]]|done|].
      intros _. rewrite Hmap3, Hmap2. eapply AllocPage_page_map; eauto.
Qed.

Lemma two_pinned_reachable : reachable two_pinned.
Proof. apply run_ops_reachable, reachable_new. Defined.

Lemma StorePage_contract_witness :
  ∃ status result st',
    PagePool.StorePage 7 3 kFetchPageData two_pinned =
      Some ((status, result), st') ∧
    (status = kSuccess ↔ is_Some result) ∧
    (∀ f : PagePtr, result = Some f →
       ∃ pg, heap st' !! f = Some pg ∧ 0 < pin_count_ pg ∧
             assignment pg = Some (7, 3) ∧
             page_map_ st' !! (7, 3) = Some f) ∧
    (result = None → page_map_ st' !! (7, 3) = None).
Proof.
  exact (StorePage_contract 7 3 kFetchPageData two_pinned
           two_pinned_reachable).
Defined.

(** ** X2: the frames [StorePage] leaves alone *)

(** X2. A call of [StorePage] changes at most one frame: the frame it
    returns or, when it fails after allocation, the frame it allocated.
    Every other frame keeps its pin count, dirty flag, assignment and
    buffer. *)
Theorem StorePage_changes_one_frame store page_id fetch_mode st :
  reachable st →
  ∃ status result st' (f : PagePtr),
    PagePool.StorePage store page_id fetch_mode st =
      Some ((status, result), st') ∧
    (∀ r, result = Some r → r = f) ∧
    (∀ g : PagePtr, g ≠ f → heap st' !! g = heap st !! g).
Proof.
  intros Hinv%reachable_invariant.
  destruct (StorePage_total store page_id fetch_mode st Hinv)
    as ([status result] & st' & Hrun).
  destruct (page_map_ st !! (store, page_id)) as [f|] eqn:Hk.
  - destruct (StorePage_hit_inv _ _ _ _ _ _ _ Hk Hrun) as ([= -> ->] & Hpin).
    exists kSuccess, (Some f), st', f. split_and!; [done|congruence|].
    intros g Hg. by eapply PinStorePage_frame.
  - destruct (StorePage_miss_inv _ _ _ _ _ _ _ Hk Hrun)
      as [(Halloc & -> & ->)|[(f & st1 & Halloc & Hassign & -> & ->)|
          (f & st1 & st2 & Halloc & Hassign & Hstatus & -> & Hunpin)]].
    + destruct (AllocPage_None_inv _ _ Halloc) as (_ & _ & _ & ->).
      exists kPoolFull, None, st, 0. done.
    + exists kSuccess, (Some f), st', f. split_and!; [done|congruence|].
      intros g Hg.
      rewrite (AssignPageToStore_frame _ _ _ _ _ _ _ _ Hassign Hg).
      by eapply AllocPage_frame.
    + exists status, None, st', f. split_and!; [done..|].
      intros g Hg.
      rewrite (UnpinUnassignedPage_frame _ _ _ _ Hunpin Hg).
      rewrite (AssignPageToStore_frame _ _ _ _ _ _ _ _ Hassign Hg).
      by eapply AllocPage_frame.
Qed.

Lemma StorePage_changes_one_frame_witness :
  ∃ status result st' (f : PagePtr),
    PagePool.StorePage 7 2 kFetchPageData (dirty_victim [kIoError] []) =
      Some ((status, result), st') ∧
    (∀ r, result = Some r → r = f) ∧
    (∀ g : PagePtr, g ≠ f →
       heap st' !! g = heap (dirty_victim [kIoError] []) !! g).
Proof.
  exact (StorePage_changes_one_frame 7 2 kFetchPageData
           (dirty_victim [kIoError] []) (dirty_victim_reachable _ _)).
Defined.

(** ** X3: a request that ignores the page data *)

(** X3. With fetch mode [kIgnorePageData], [StorePage] never reads a store:
    it consumes no answer of the media and logs no [ReadPage].  It returns
    [kSuccess], or [kPoolFull] exactly when the key is not resident and the
    pool has no free frame, no spare capacity and no unpinned frame.  On a
    miss the checked build hands the frame over with its buffer filled with
    the byte 0xCD. *)
Theorem StorePage_ignore_data store page_id st :
  reachable st →
  ∃ status result st' events,
    PagePool.StorePage store page_id kIgnorePageData st =
      Some ((status, result), st') ∧
    (status = kSuccess ∨ status = kPoolFull) ∧
    (status = kPoolFull ↔
       page_map_ st !! (store, page_id) = None ∧ free_list_ st = [] ∧
       page_capacity_ st ≤ page_count_ st ∧ lru_list_ st = []) ∧
    read_script (world st') = read_script (world st) ∧
    trace (world st') = trace (world st) ++ events ∧
    (∀ s p, EvReadPage s p ∉ events) ∧
    (page_map_ st !! (store, page_id) = None →
     ∀ f : PagePtr, result = Some f →
       ∃ pg, heap st' !! f = Some pg ∧
             buffer_ pg = replicate (N.to_nat (page_size_ st)) 205%N).
Proof.
  intros Hinv%reachable_invariant.
  destruct (StorePage_total store page_id kIgnorePageData st Hinv)
    as ([status result] & st' & Hrun).
  destruct (page_map_ st !! (store, page_id)) as [f|] eqn:Hk.
  - destruct (StorePage_hit_run st store page_id kIgnorePageData f Hinv Hk)
      as (pg & Hf & Ha & Hrun').
    rewrite Hrun' in Hrun. simplify_eq.
    eexists kSuccess, (Some f), _, []. rewrite app_nil_r.
    split_and!; [exact Hrun'|by left|split; [done|by intros [? _]]|..];
      try (by destruct (pin_count_ pg =? 0)).
    set_solver.
  - destruct (StorePage_miss_inv _ _ _ _ _ _ _ Hk Hrun)
      as [(Halloc & -> & ->)|[(f & st1 & Halloc & Hassign & -> & ->)|
          (f & st1 & st2 & Halloc & Hassign & Hstatus & -> & Hunpin)]].
    + destruct (AllocPage_None_inv _ _ Halloc) as (Hfree & Hge & Hlru & ->).
      exists kPoolFull, None, st, []. rewrite app_nil_r.
      split_and!; try done; [by right|set_solver].
    + destruct (AllocPage_result _ _ _ Hinv Halloc)
        as (pg & Hf & Hpin & Ht & Hd).
      destruct (AllocPage_log _ _ _ Halloc)
        as (Hread1 & events1 & Htrace1 & Hnoread).
      destruct (AssignPageToStore_inv _ _ _ _ _ _ _ _ Hf Hassign)
        as (pg' & Hheap & _ & _ & _ & _ & Hsize & _ & _ & Hignore).
      destruct (Hignore eq_refl) as (_ & Hbuffer & Hread2 & Htrace2).
      assert (Hsize1 : page_size_ st1 = page_size_ st).
      { clear -Halloc. unfold PagePool.AllocPage,
          PagePool.UnassignPageFromStore, Page.Create in Halloc.
        run_inv Halloc; done. }
      exists kSuccess, (Some f), st',
        (events1 ++ [EvAssignPage (StoreImpl.init_transaction store) f page_id;
                     EvMapInsert store page_id f]).
      split_and!; try done.
      * by left.
      * split; [done|]. intros (_ & Hfree & Hge & Hlru).
        rewrite AllocPage_full_run in Halloc by done. done.
      * by rewrite Hread2.
      * by rewrite Htrace2, Htrace1, <- app_assoc.
      * intros s p [?|Hin]%elem_of_app; [by eapply Hnoread|].
        set_solver.
      * intros _ f' [= <-]. exists pg'. split.
        -- rewrite Hheap. apply list_lookup_insert_eq.
           by eapply lookup_lt_Some.
        -- by rewrite Hbuffer, Hsize1.
    + destruct (AllocPage_result _ _ _ Hinv Halloc)
        as (pg & Hf & Hpin & Ht & Hd).
      destruct (AssignPageToStore_inv _ _ _ _ _ _ _ _ Hf Hassign)
        as (pg' & _ & _ & _ & _ & _ & _ & _ & _ & Hignore).
      by destruct (Hignore eq_refl) as (? & _).
Qed.

Lemma StorePage_ignore_data_witness :
  ∃ status result st' events,
    PagePool.StorePage 7 9 kIgnorePageData one_resident =
      Some ((status, result), st') ∧
    (status = kSuccess ∨ status = kPoolFull) ∧
    (status = kPoolFull ↔
       page_map_ one_resident !! (7, 9) = None ∧
       free_list_ one_resident = [] ∧
       page_capacity_ one_resident ≤ page_count_ one_resident ∧
       lru_list_ one_resident = []) ∧
    read_script (world st') = read_script (world one_resident) ∧
    trace (world st') = trace (world one_resident) ++ events ∧
    (∀ s p, EvReadPage s p ∉ events) ∧
    (page_map_ one_resident !! (7, 9) = None →
     ∀ f : PagePtr, result = Some f →
       ∃ pg, heap st' !! f = Some pg ∧
             buffer_ pg =
               replicate (N.to_nat (page_size_ one_resident)) 205%N).
Proof.
  exact (StorePage_ignore_data 7 9 one_resident one_resident_reachable).
Defined.

(** ** Where [AllocPage] finds its frame, and what stays as it was *)

(** The frame [AllocPage] hands out was not pinned: it is new, or it was
    waiting in one of the two lists. *)
Lemma AllocPage_source st (f : PagePtr) st' :
  pool_invariant st →
  PagePool.AllocPage st = Some (Some f, st') →
  heap st !! f = None ∨ ∃ pg, heap st !! f = Some pg ∧ pin_count_ pg = 0.
Proof.
  intros Hinv Halloc.
  destruct (free_list_ st) as [|f0 rest] eqn:Hfree.
  - destruct (decide (page_count_ st < page_capacity_ st)) as [Hlt|Hge].
    + rewrite AllocPage_grow_run in Halloc by done. simplify_eq.
      left. by apply lookup_ge_None_2.
    + destruct (lru_list_ st) as [|v rest] eqn:Hlru.
      * rewrite AllocPage_full_run in Halloc by (done || lia). done.
      * destruct (AllocPage_evict_run st v rest Hinv Hfree ltac:(lia) Hlru)
          as (pg & st1 & Hv & Hpin & _ & _ & Hrun & _).
        rewrite Hrun in Halloc. simplify_eq. right. eauto.
  - destruct (AllocPage_free_run st f0 rest Hinv Hfree)
      as (pg & Hf & Hpin & _ & _ & Hrun).
    rewrite Hrun in Halloc. simplify_eq. right. eauto.
Qed.

Lemma AllocPage_config st r st' :
  PagePool.AllocPage st = Some (r, st') →
  page_shift_ st' = page_shift_ st ∧ page_size_ st' = page_size_ st ∧
  page_capacity_ st' = page_capacity_ st.
Proof.
  intros H.
  unfold PagePool.AllocPage, PagePool.UnassignPageFromStore, Page.Create in H.
  run_inv H; done.
Qed.

(** [AssignPageToStore] writes to no store and closes none. *)
Lemma AssignPageToStore_world (f : PagePtr) store page_id fetch_mode
    st status st' :
  PagePool.AssignPageToStore f store page_id fetch_mode st =
    Some (status, st') →
  page_shift_ st' = page_shift_ st ∧
  page_capacity_ st' = page_capacity_ st ∧
  write_script (world st') = write_script (world st) ∧
  disk (world st') = disk (world st) ∧
  closed_stores (world st') = closed_stores (world st) ∧
  ∃ events,
    trace (world st') = trace (world st) ++ events ∧
    ∀ s p, EvWritePage s p ∉ events.
Proof.
  intros H.
  unfold PagePool.AssignPageToStore, PagePool.FetchStorePage,
    StoreImpl.init_transaction in H.
  run_inv H; split_and!; try done.
  all: eexists; (split; [rewrite <- ?app_assoc; reflexivity|]); set_solver.
Qed.

Lemma UnpinUnassignedPage_config (f : PagePtr) st st' :
  PagePool.UnpinUnassignedPage f st = Some (tt, st') →
  page_shift_ st' = page_shift_ st ∧ page_size_ st' = page_size_ st ∧
  page_capacity_ st' = page_capacity_ st.
Proof.
  intros H. unfold PagePool.UnpinUnassignedPage in H. run_inv H; done.
Qed.

(** The three ways a miss of [StorePage] ends, with the frame that
    [AllocPage] chose. *)
Lemma StorePage_miss_cases store page_id fetch_mode st (f : PagePtr) st1 :
  pool_invariant st →
  page_map_ st !! (store, page_id) = None →
  PagePool.AllocPage st = Some (Some f, st1) →
  ∃ status result st' st2 pg1 pg2,
    PagePool.StorePage store page_id fetch_mode st =
      Some ((status, result), st') ∧
    heap st1 !! f = Some pg1 ∧ pin_count_ pg1 = 1 ∧
    PagePool.AssignPageToStore f store page_id fetch_mode st1 =
      Some (status, st2) ∧
    heap st2 = <[f := pg2]> (heap st1) ∧
    free_list_ st2 = free_list_ st1 ∧
    lru_list_ st2 = lru_list_ st1 ∧
    page_count_ st2 = page_count_ st1 ∧
    world st' = world st2 ∧
    lru_list_ st' = lru_list_ st1 ∧
    page_count_ st' = page_count_ st1 ∧
    page_map_ st' = page_map_ st2 ∧
    (status = kSuccess →
       result = Some f ∧ st' = st2 ∧
       page_map_ st2 = <[(store, page_id) := f]> (page_map_ st1)) ∧
    (status ≠ kSuccess →
       result = None ∧ page_map_ st2 = page_map_ st1 ∧
       free_list_ st' = free_list_ st1 ++ [f] ∧
       heap st' = <[f := with_pin_count 0 pg2]> (heap st1)).
Proof.
  intros Hinv Hmiss Halloc.
  destruct (StorePage_total store page_id fetch_mode st Hinv)
    as ([status result] & st' & Hrun).
  destruct (AllocPage_result _ _ _ Hinv Halloc) as (pg1 & Hf & Hpin & Ht & Hd).
  destruct (StorePage_miss_inv _ _ _ _ _ _ _ Hmiss Hrun)
    as [(Halloc' & _)|[(f' & st1' & Halloc' & Hassign & -> & ->)|
        (f' & st1' & st2 & Halloc' & Hassign & Hstatus & -> & Hunpin)]];
    rewrite Halloc in Halloc'; simplify_eq.
  - destruct (AssignPageToStore_inv _ _ _ _ _ _ _ _ Hf Hassign)
      as (pg2 & Hheap & _ & Hfree & Hlru & Hcount & _ & Hok & _).
    destruct (Hok eq_refl) as (_ & _ & Hmap).
    exists kSuccess, (Some f'), st', st', pg1, pg2.
    split_and!; done.
  - destruct (AssignPageToStore_inv _ _ _ _ _ _ _ _ Hf Hassign)
      as (pg2 & Hheap & Hpin2 & Hfree & Hlru & Hcount & _ & _ & Hfail & _).
    destruct (Hfail Hstatus) as (Ht2 & _ & Hmap & _).
    destruct (UnpinUnassignedPage_inv _ _ _ Hunpin)
      as (pg2' & Hf2 & _ & _ & Hheap' & Hfree' & Hlru' & Hmap' & Hcount' & Hw).
    assert (pg2' = pg2) as ->.
    { rewrite Hheap in Hf2.
      rewrite list_lookup_insert_eq in Hf2 by (by eapply lookup_lt_Some).
      by simplify_eq. }
    rewrite Hpin2, Hpin in Hheap', Hfree'. simpl in Hheap', Hfree'.
    exists status, None, st', st2, pg1, pg2.
    split_and!; try done; try congruence.
    intros _. split_and!; try done; try congruence.
    rewrite Hheap', Hheap. by rewrite list_insert_insert_eq.
Qed.

(** ** X4: eviction takes the front of the LRU list *)

(** X4. When the key is not resident, the free list is empty and the pool is
    at capacity, [StorePage] evicts exactly the front of the LRU list: the
    rest of the LRU list is kept in order, the victim's key leaves the
    resident map, every other key but the requested one maps as before, and
    no frame is created.  If the fetch succeeds the victim's frame is the
    result and holds the requested page; if it fails the frame becomes the
    only free one. *)
Theorem StorePage_evicts_lru_front store page_id fetch_mode st
    (v : PagePtr) rest :
  reachable st →
  page_map_ st !! (store, page_id) = None →
  free_list_ st = [] →
  page_capacity_ st ≤ page_count_ st →
  lru_list_ st = v :: rest →
  ∃ pg key status result st',
    heap st !! v = Some pg ∧ assignment pg = Some key ∧
    page_map_ st !! key = Some v ∧
    PagePool.StorePage store page_id fetch_mode st =
      Some ((status, result), st') ∧
    lru_list_ st' = rest ∧
    page_count_ st' = page_count_ st ∧
    page_map_ st' !! key = None ∧
    (∀ k, k ≠ key → k ≠ (store, page_id) →
          page_map_ st' !! k = page_map_ st !! k) ∧
    (status = kSuccess →
       result = Some v ∧ free_list_ st' = [] ∧
       page_map_ st' !! (store, page_id) = Some v) ∧
    (status ≠ kSuccess →
       result = None ∧ free_list_ st' = [v] ∧
       page_map_ st' !! (store, page_id) = None).
Proof.
  intros Hinv%reachable_invariant Hmiss Hfree Hge Hlru.
  destruct (AllocPage_evict_run st v rest Hinv Hfree Hge Hlru)
    as (pg & st1 & Hv & Hpin & Ht & _ & Halloc & _ & Hmap1 & Hlru1 & Hfree1
        & Hcount1).
  destruct (transaction_ pg) as [t|] eqn:Ht'; [|done].
  pose proof (assignment_Some pg t Ht') as Ha.
  assert (Hkey : page_map_ st !! (txn_store t, page_id_ pg) = Some v).
  { apply (inv_map _ Hinv). exists pg. by rewrite Ha. }
  assert (Hne : (txn_store t, page_id_ pg) ≠ (store, page_id)).
  { intros Heq. rewrite Heq in Hkey. congruence. }
  specialize (Hmap1 _ Ha).
  destruct (StorePage_miss_cases store page_id fetch_mode st v st1 Hinv Hmiss
              Halloc)
    as (status & result & st' & st2 & pg1 & pg2 & Hrun & _ & _ & _ & _ &
        Hfree2 & _ & _ & _ & Hlru' & Hcount' & Hmap' & Hok & Hfail).
  exists pg, (txn_store t, page_id_ pg), status, result, st'.
  split_and!; try done; try congruence.
  - destruct (decide (status = kSuccess)) as [Hs|Hs].
    + destruct (Hok Hs) as (_ & _ & Hmap2).
      rewrite Hmap', Hmap2, Hmap1, lookup_insert_ne by done.
      apply lookup_delete_eq.
    + destruct (Hfail Hs) as (_ & Hmap2 & _).
      rewrite Hmap', Hmap2, Hmap1. apply lookup_delete_eq.
  - intros k Hk1 Hk2.
    destruct (decide (status = kSuccess)) as [Hs|Hs].
    + destruct (Hok Hs) as (_ & _ & Hmap2).
      rewrite Hmap', Hmap2, Hmap1, lookup_insert_ne by done.
      by apply lookup_delete_ne.
    + destruct (Hfail Hs) as (_ & Hmap2 & _).
      rewrite Hmap', Hmap2, Hmap1. by apply lookup_delete_ne.
  - intros Hs. destruct (Hok Hs) as (-> & -> & Hmap2).
    split_and!; [done|congruence|].
    rewrite Hmap2. apply lookup_insert_eq.
  - intros Hs. destruct (Hfail Hs) as (-> & Hmap2 & Hfree' & _).
    split_and!; [done|by rewrite Hfree', Hfree1|].
    rewrite Hmap', Hmap2, Hmap1, lookup_delete_ne by done. done.
Qed.

Lemma StorePage_evicts_lru_front_witness :
  ∃ pg key status result st',
    heap (dirty_victim [] []) !! 0 = Some pg ∧ assignment pg = Some key ∧
    page_map_ (dirty_victim [] []) !! key = Some 0 ∧
    PagePool.StorePage 7 2 kFetchPageData (dirty_victim [] []) =
      Some ((status, result), st') ∧
    lru_list_ st' = [] ∧
    page_count_ st' = page_count_ (dirty_victim [] []) ∧
    page_map_ st' !! key = None ∧
    (∀ k, k ≠ key → k ≠ (7, 2) →
          page_map_ st' !! k = page_map_ (dirty_victim [] []) !! k) ∧
    (status = kSuccess →
       result = Some 0 ∧ free_list_ st' = [] ∧
       page_map_ st' !! (7, 2) = Some 0) ∧
    (status ≠ kSuccess →
       result = None ∧ free_list_ st' = [0] ∧
       page_map_ st' !! (7, 2) = None).
Proof.
  apply (StorePage_evicts_lru_front 7 2 kFetchPageData (dirty_victim [] [])
           0 [] (dirty_victim_reachable _ _)).
  - reflexivity.
  - reflexivity.
  - apply le_n.
  - reflexivity.
Defined.

(** [AssignPageToStore] never marks a frame dirty. *)
Lemma AssignPageToStore_dirty (f : PagePtr) pg store page_id fetch_mode
    st status st' :
  heap st !! f = Some pg → is_dirty_ pg = false →
  PagePool.AssignPageToStore f store page_id fetch_mode st =
    Some (status, st') →
  ∃ pg', heap st' !! f = Some pg' ∧ is_dirty_ pg' = false.
Proof.
  intros Hf Hd H.
  unfold PagePool.AssignPageToStore, PagePool.FetchStorePage,
    StoreImpl.init_transaction in H.
  run_inv H; heap_simpl; eexists;
    (split; [apply list_lookup_insert_eq; by eapply lookup_lt_Some|done]).
Qed.

(** ** X5: eviction is the last resort *)

(** X5. While a free frame or spare capacity is left, a miss of [StorePage]
    evicts nothing: the LRU list, the frames that hold a page, every other
    key of the resident map and the stores' data files are as before, and
    no store is closed. *)
Theorem StorePage_eviction_last_resort store page_id fetch_mode st :
  reachable st →
  page_map_ st !! (store, page_id) = None →
  free_list_ st ≠ [] ∨ page_count_ st < page_capacity_ st →
  ∃ status result st',
    PagePool.StorePage store page_id fetch_mode st =
      Some ((status, result), st') ∧
    lru_list_ st' = lru_list_ st ∧
    (∀ g pg, heap st !! g = Some pg → transaction_ pg ≠ None →
             heap st' !! g = Some pg) ∧
    (∀ k, k ≠ (store, page_id) → page_map_ st' !! k = page_map_ st !! k) ∧
    write_script (world st') = write_script (world st) ∧
    disk (world st') = disk (world st) ∧
    closed_stores (world st') = closed_stores (world st).
Proof.
  intros Hinv%reachable_invariant Hmiss Hroom.
  assert (∃ (f : PagePtr) st1,
            PagePool.AllocPage st = Some (Some f, st1) ∧
            lru_list_ st1 = lru_list_ st ∧ page_map_ st1 = page_map_ st ∧
            write_script (world st1) = write_script (world st) ∧
            disk (world st1) = disk (world st) ∧
            closed_stores (world st1) = closed_stores (world st) ∧
            (∀ g pg, heap st !! g = Some pg → transaction_ pg ≠ None →
                     g ≠ f ∧ heap st1 !! g = Some pg))
    as (f & st1 & Halloc & Hlru1 & Hmap1 & Hws1 & Hdisk1 & Hclosed1 & Hheap1).
  { destruct (free_list_ st) as [|f rest] eqn:Hfree.
    - destruct Hroom as [?|Hlt]; [done|].
      eexists _, _. split; [by apply AllocPage_grow_run|]. simpl.
      split_and!; try done. intros g pg Hg _.
      pose proof (lookup_lt_Some _ _ _ Hg). split; [lia|].
      by rewrite lookup_app_l.
    - destruct (AllocPage_free_run st f rest Hinv Hfree)
        as (pg0 & Hf & _ & Ht0 & _ & Hrun).
      eexists _, _. split; [exact Hrun|]. simpl.
      split_and!; try done. intros g pg Hg Ht.
      assert (g ≠ f) by (intros ->; congruence).
      split; [done|]. by rewrite list_lookup_insert_ne. }
  destruct (StorePage_miss_cases store page_id fetch_mode st f st1 Hinv Hmiss
              Halloc)
    as (status & result & st' & st2 & pg1 & pg2 & Hrun & _ & _ & Hassign &
        Hheap2 & _ & _ & _ & Hw & Hlru' & _ & Hmap' & Hok & Hfail).
  destruct (AssignPageToStore_world _ _ _ _ _ _ _ Hassign)
    as (_ & _ & Hws2 & Hdisk2 & Hclosed2 & _).
  exists status, result, st'. rewrite Hw.
  split_and!; try done; try congruence.
  - intros g pg Hg Ht. destruct (Hheap1 g pg Hg Ht) as [Hne Hg1].
    destruct (decide (status = kSuccess)) as [Hs|Hs].
    + destruct (Hok Hs) as (_ & -> & _).
      by rewrite Hheap2, list_lookup_insert_ne.
    + destruct (Hfail Hs) as (_ & _ & _ & ->).
      by rewrite list_lookup_insert_ne.
  - intros k Hk. rewrite Hmap'.
    destruct (decide (status = kSuccess)) as [Hs|Hs].
    + destruct (Hok Hs) as (_ & _ & ->).
      by rewrite lookup_insert_ne, Hmap1.
    + destruct (Hfail Hs) as (_ & -> & _). by rewrite Hmap1.
Qed.

Lemma StorePage_eviction_last_resort_witness :
  ∃ status result st',
    PagePool.StorePage 7 9 kFetchPageData one_resident =
      Some ((status, result), st') ∧
    lru_list_ st' = lru_list_ one_resident ∧
    (∀ g pg, heap one_resident !! g = Some pg → transaction_ pg ≠ None →
             heap st' !! g = Some pg) ∧
    (∀ k, k ≠ (7, 9) → page_map_ st' !! k = page_map_ one_resident !! k) ∧
    write_script (world st') = write_script (world one_resident) ∧
    disk (world st') = disk (world one_resident) ∧
    closed_stores (world st') = closed_stores (world one_resident).
Proof.
  apply (StorePage_eviction_last_resort 7 9 kFetchPageData one_resident
           one_resident_reachable).
  - reflexivity.
  - right. apply le_S, le_S, le_n.
Defined.

(** ** X6: what eviction writes *)

(** X6. The frame evicted by [StorePage] is written back exactly when it is
    dirty.  A clean victim causes no write.  A dirty victim consumes one
    answer of the medium: if the write succeeds, its buffer is the content
    of its page in the data file afterwards; if the write fails, the data
    file is as before, the buffer is dropped all the same and the victim's
    store is closed. *)
Theorem StorePage_eviction_write_back store page_id fetch_mode st
    (v : PagePtr) rest :
  reachable st →
  page_map_ st !! (store, page_id) = None →
  free_list_ st = [] →
  page_capacity_ st ≤ page_count_ st →
  lru_list_ st = v :: rest →
  ∃ pg t status result st' events,
    heap st !! v = Some pg ∧ transaction_ pg = Some t ∧
    PagePool.StorePage store page_id fetch_mode st =
      Some ((status, result), st') ∧
    trace (world st') = trace (world st) ++ events ∧
    (is_dirty_ pg = false →
       (∀ s p, EvWritePage s p ∉ events) ∧
       write_script (world st') = write_script (world st) ∧
       disk (world st') = disk (world st) ∧
       closed_stores (world st') = closed_stores (world st)) ∧
    (is_dirty_ pg = true →
       EvWritePage (txn_store t) (page_id_ pg) ∈ events ∧
       write_script (world st') = tail (write_script (world st)) ∧
       (hd kSuccess (write_script (world st)) = kSuccess →
          disk (world st') =
            <[(txn_store t, page_id_ pg) := buffer_ pg]> (disk (world st)) ∧
          closed_stores (world st') = closed_stores (world st)) ∧
       (hd kSuccess (write_script (world st)) ≠ kSuccess →
          disk (world st') = disk (world st) ∧
          closed_stores (world st') = txn_store t :: closed_stores (world st)))
    ∧ (∃ pg', heap st' !! v = Some pg' ∧ is_dirty_ pg' = false).
Proof.
  intros Hinv%reachable_invariant Hmiss Hfree Hge Hlru.
  destruct (AllocPage_evict_run st v rest Hinv Hfree Hge Hlru)
    as (pg & st1 & Hv & Hpin & Ht & Hunassign & Halloc & Hheap1 & _).
  destruct (transaction_ pg) as [t|] eqn:Ht'; [|done]. clear Ht.
  pose proof (assignment_Some pg t Ht') as Ha.
  assert (Hkey : page_map_ st !! (txn_store t, page_id_ pg) = Some v).
  { apply (inv_map _ Hinv). exists pg. by rewrite Ha. }
  set (st0 := set_lru_list rest
                (set_heap (<[v := with_pin_count 1 pg]> (heap st)) st)) in *.
  assert (Hv0 : heap st0 !! v = Some (with_pin_count 1 pg)).
  { simpl. apply list_lookup_insert_eq. by eapply lookup_lt_Some. }
  destruct (StorePage_miss_cases store page_id fetch_mode st v st1 Hinv Hmiss
              Halloc)
    as (status & result & st' & st2 & pg1 & pg2 & Hrun & Hv1 & _ & Hassign &
        Hheap2 & _ & _ & _ & Hw & _ & _ & _ & Hok & Hfail).
  destruct (AssignPageToStore_world _ _ _ _ _ _ _ Hassign)
    as (_ & _ & Hws2 & Hdisk2 & Hclosed2 & events2 & Htrace2 & Hnowrite2).
  assert (Hclean : ∃ pg', heap st' !! v = Some pg' ∧ is_dirty_ pg' = false).
  { destruct (AllocPage_result _ _ _ Hinv Halloc)
      as (pg1' & Hv1' & _ & _ & Hd1).
    destruct (AssignPageToStore_dirty _ _ _ _ _ _ _ _ Hv1' Hd1 Hassign)
      as (pg2' & Hv2 & Hd2).
    assert (Hlt : v < length (heap st1)) by (by eapply lookup_lt_Some).
    assert (pg2' = pg2) as ->.
    { rewrite Hheap2, list_lookup_insert_eq in Hv2 by done. by simplify_eq. }
    destruct (decide (status = kSuccess)) as [Hs|Hs].
    - destruct (Hok Hs) as (_ & -> & _). eauto.
    - destruct (Hfail Hs) as (_ & _ & _ & Hheap').
      exists (with_pin_count 0 pg2). split; [|done].
      rewrite Hheap'. by apply list_lookup_insert_eq. }
  destruct (is_dirty_ pg) eqn:Hd.
  - destruct (UnassignPageFromStore_dirty_run st0 v (with_pin_count 1 pg) t)
      as (st1' & Hrun1 & _ & _ & _ & _ & _ & _ & _ & _ & Hws1 & Htrace1
          & Hclosed1 & Hdisk1); [done..|].
    rewrite Hunassign in Hrun1. injection Hrun1 as <-.
    change (world st0) with (world st) in *.
    change (page_id_ (with_pin_count 1 pg)) with (page_id_ pg) in *.
    change (buffer_ (with_pin_count 1 pg)) with (buffer_ pg) in *.
    remember ([EvMapErase (txn_store t) (page_id_ pg);
               EvWritePage (txn_store t) (page_id_ pg);
               EvUnassignPersistedPage t v] ++
              (if decide (hd kSuccess (write_script (world st)) = kSuccess)
               then [] else [EvClose (txn_store t)])) as events1 eqn:Hev.
    exists pg, t, status, result, st', (events1 ++ events2).
    split; [done|]. split; [done|]. split; [done|].
    split; [by rewrite Hw, Htrace2, Htrace1, <- app_assoc|].
    split; [intros ?; congruence|]. split; [|done].
    intros _. rewrite Hw, Hws2, Hdisk2, Hclosed2.
    split; [|split; [done|split]].
    + rewrite elem_of_app. left. rewrite Hev.
      simpl. rewrite !elem_of_cons. auto.
    + intros Hhd. rewrite decide_True in Hdisk1 by done.
      by rewrite decide_True in Hclosed1 by done.
    + intros Hhd. rewrite decide_False in Hdisk1 by done.
      by rewrite decide_False in Hclosed1 by done.
  - destruct (UnassignPageFromStore_clean_run st0 v (with_pin_count 1 pg) t)
      as (st1' & Hrun1 & _ & _ & _ & _ & _ & _ & _ & _ & Hws1 & Htrace1
          & Hclosed1 & Hdisk1); [done..|].
    rewrite Hunassign in Hrun1. injection Hrun1 as <-.
    change (world st0) with (world st) in *.
    change (page_id_ (with_pin_count 1 pg)) with (page_id_ pg) in *.
    exists pg, t, status, result, st',
      ([EvMapErase (txn_store t) (page_id_ pg); EvUnassignPage t v]
       ++ events2).
    split; [done|]. split; [done|]. split; [done|].
    split; [by rewrite Hw, Htrace2, Htrace1, <- app_assoc|].
    split; [|split; [intros ?; congruence|done]].
    intros _. rewrite Hw, Hws2, Hdisk2, Hclosed2.
    split; [|done].
    intros s p [Hin|Hin]%elem_of_app; [|by eapply Hnowrite2].
    apply elem_of_cons in Hin as [?|Hin]; [done|].
    apply elem_of_cons in Hin as [?|Hin]; [done|].
    by apply elem_of_nil in Hin.
Qed.

Lemma StorePage_eviction_write_back_witness :
  ∃ pg t status result st' events,
    heap (dirty_victim [] []) !! 0 = Some pg ∧ transaction_ pg = Some t ∧
    PagePool.StorePage 7 2 kFetchPageData (dirty_victim [] []) =
      Some ((status, result), st') ∧
    trace (world st') = trace (world (dirty_victim [] [])) ++ events ∧
    (is_dirty_ pg = false →
       (∀ s p, EvWritePage s p ∉ events) ∧
       write_script (world st') = write_script (world (dirty_victim [] [])) ∧
       disk (world st') = disk (world (dirty_victim [] [])) ∧
       closed_stores (world st') =
         closed_stores (world (dirty_victim [] []))) ∧
    (is_dirty_ pg = true →
       EvWritePage (txn_store t) (page_id_ pg) ∈ events ∧
       write_script (world st') =
         tail (write_script (world (dirty_victim [] []))) ∧
       (hd kSuccess (write_script (world (dirty_victim [] []))) = kSuccess →
          disk (world st') =
            <[(txn_store t, page_id_ pg) := buffer_ pg]>
              (disk (world (dirty_victim [] []))) ∧
          closed_stores (world st') =
            closed_stores (world (dirty_victim [] []))) ∧
       (hd kSuccess (write_script (world (dirty_victim [] []))) ≠ kSuccess →
          disk (world st') = disk (world (dirty_victim [] [])) ∧
          closed_stores (world st') =
            txn_store t :: closed_stores (world (dirty_victim [] []))))
    ∧ (∃ pg', heap st' !! 0 = Some pg' ∧ is_dirty_ pg' = false).
Proof.
  apply (StorePage_eviction_write_back 7 2 kFetchPageData
           (dirty_victim [] []) 0 [] (dirty_victim_reachable _ _)).
  - reflexivity.
  - reflexivity.
  - apply le_n.
  - reflexivity.
Defined.

(** ** X7: pinned frames are left alone *)

(** X7. [StorePage] never takes a pinned frame away from its holder: every
    frame that is pinned before the call holds the same page of the same
    transaction afterwards, with the same bytes and the same dirty flag, is
    still pinned, and its page is still resident in it. *)
Theorem StorePage_keeps_pinned store page_id fetch_mode st :
  reachable st →
  ∃ status result st',
    PagePool.StorePage store page_id fetch_mode st =
      Some ((status, result), st') ∧
    ∀ (g : PagePtr) pg,
      heap st !! g = Some pg → 0 < pin_count_ pg →
      ∃ pg',
        heap st' !! g = Some pg' ∧
        transaction_ pg' = transaction_ pg ∧
        page_id_ pg' = page_id_ pg ∧
        buffer_ pg' = buffer_ pg ∧
        is_dirty_ pg' = is_dirty_ pg ∧
        pin_count_ pg ≤ pin_count_ pg' ∧
        (∀ k, assignment pg = Some k → page_map_ st' !! k = Some g).
Proof.
  intros Hinv%reachable_invariant.
  destruct (StorePage_total store page_id fetch_mode st Hinv)
    as ([status result] & st' & Hrun).
  pose proof (StorePage_invariant _ _ _ _ _ _ Hinv Hrun) as Hinv'.
  exists status, result, st'. split; [done|]. intros g pg Hg Hpin.
  assert (∃ pg', heap st' !! g = Some pg' ∧
            transaction_ pg' = transaction_ pg ∧
            page_id_ pg' = page_id_ pg ∧ buffer_ pg' = buffer_ pg ∧
            is_dirty_ pg' = is_dirty_ pg ∧ pin_count_ pg ≤ pin_count_ pg')
    as (pg' & Hg' & Ht' & Hid' & Hb' & Hd' & Hpin').
  { destruct (page_map_ st !! (store, page_id)) as [f|] eqn:Hk.
    - destruct (StorePage_hit_run st store page_id fetch_mode f Hinv Hk)
        as (pg0 & Hf & Ha & Hrun').
      rewrite Hrun' in Hrun. injection Hrun as <- <- <-. simpl.
      rewrite (lookup_update _ _ _ _ pg0)
        by (destruct (pin_count_ pg0 =? 0); exact Hf).
      destruct (decide (g = f)) as [->|Hne].
      + assert (pg0 = pg) as ->.
        { destruct (pin_count_ pg0 =? 0); simpl in *; congruence. }
        eexists. split; [done|]. simpl. split_and!; try done. lia.
      + exists pg. split; [by destruct (pin_count_ pg0 =? 0)|done].
    - destruct (StorePage_miss_inv _ _ _ _ _ _ _ Hk Hrun)
        as [(Halloc & _)|[(f & st1 & Halloc & Hassign & _)|
            (f & st1 & st2 & Halloc & Hassign & _ & _ & Hunpin)]].
      + destruct (AllocPage_None_inv _ _ Halloc) as (_ & _ & _ & ->).
        exists pg. done.
      + assert (g ≠ f).
        { destruct (AllocPage_source _ _ _ Hinv Halloc)
            as [Hnone|(pg0 & Hf & Hzero)]; intros ->; [congruence|].
          rewrite Hf in Hg. simplify_eq. lia. }
        exists pg. split; [|done].
        rewrite (AssignPageToStore_frame _ _ _ _ _ _ _ _ Hassign) by done.
        by rewrite (AllocPage_frame _ _ _ _ Halloc).
      + assert (g ≠ f).
        { destruct (AllocPage_source _ _ _ Hinv Halloc)
            as [Hnone|(pg0 & Hf & Hzero)]; intros ->; [congruence|].
          rewrite Hf in Hg. simplify_eq. lia. }
        exists pg. split; [|done].
        rewrite (UnpinUnassignedPage_frame _ _ _ _ Hunpin) by done.
        rewrite (AssignPageToStore_frame _ _ _ _ _ _ _ _ Hassign) by done.
        by rewrite (AllocPage_frame _ _ _ _ Halloc). }
  exists pg'. split_and!; try done.
  intros k Ha. apply (inv_map _ Hinv'). exists pg'. split; [done|].
  unfold assignment in *. by rewrite Ht', Hid'.
Qed.

Lemma StorePage_keeps_pinned_witness :
  ∃ status result st',
    PagePool.StorePage 7 3 kFetchPageData two_pinned =
      Some ((status, result), st') ∧
    ∀ (g : PagePtr) pg,
      heap two_pinned !! g = Some pg → 0 < pin_count_ pg →
      ∃ pg',
        heap st' !! g = Some pg' ∧
        transaction_ pg' = transaction_ pg ∧
        page_id_ pg' = page_id_ pg ∧
        buffer_ pg' = buffer_ pg ∧
        is_dirty_ pg' = is_dirty_ pg ∧
        pin_count_ pg ≤ pin_count_ pg' ∧
        (∀ k, assignment pg = Some k → page_map_ st' !! k = Some g).
Proof.
  exact (StorePage_keeps_pinned 7 3 kFetchPageData two_pinned
           two_pinned_reachable).
Defined.

(** ** X8: when the pool grows *)

(** X8. [StorePage] creates a frame only when it has to: [page_count_]
    goes up by one exactly when the key is not resident, the free list is
    empty and the pool is below capacity, and is otherwise as before.  No
    frame is ever given up, and the page shift, the page size and the
    capacity do not change. *)
Theorem StorePage_growth store page_id fetch_mode st :
  reachable st →
  ∃ status result st',
    PagePool.StorePage store page_id fetch_mode st =
      Some ((status, result), st') ∧
    page_shift_ st' = page_shift_ st ∧
    page_size_ st' = page_size_ st ∧
    page_capacity_ st' = page_capacity_ st ∧
    length (heap st') = page_count_ st' ∧
    page_count_ st' =
      (if decide (page_map_ st !! (store, page_id) = None ∧
                  free_list_ st = [] ∧
                  page_count_ st < page_capacity_ st)
       then S (page_count_ st) else page_count_ st).
Proof.
  intros Hinv%reachable_invariant.
  destruct (StorePage_total store page_id fetch_mode st Hinv)
    as ([status result] & st' & Hrun).
  pose proof (StorePage_invariant _ _ _ _ _ _ Hinv Hrun) as Hinv'.
  exists status, result, st'. split; [done|].
  destruct (page_map_ st !! (store, page_id)) as [f|] eqn:Hk.
  - destruct (StorePage_hit_run st store page_id fetch_mode f Hinv Hk)
      as (pg0 & Hf & Ha & Hrun').
    rewrite Hrun' in Hrun. injection Hrun as <- <- <-.
    rewrite decide_False by (by intros [? _]).
    pose proof (inv_count _ Hinv') as Hcount. revert Hcount. simpl.
    by destruct (pin_count_ pg0 =? 0).
  - assert (∀ r st1, PagePool.AllocPage st = Some (r, st1) →
              page_count_ st1 =
                (if decide (None = None :> option PagePtr ∧
                            free_list_ st = [] ∧
                            page_count_ st < page_capacity_ st)
                 then S (page_count_ st) else page_count_ st)) as Hgrow.
    { intros r st1 Halloc.
      destruct (free_list_ st) as [|f0 rest] eqn:Hfree.
      - destruct (decide (page_count_ st < page_capacity_ st)) as [Hlt|Hge].
        + rewrite AllocPage_grow_run in Halloc by done.
          rewrite decide_True by done. by simplify_eq.
        + rewrite decide_False by tauto.
          destruct (lru_list_ st) as [|v rest] eqn:Hlru.
          * rewrite AllocPage_full_run in Halloc by (done || lia).
            by simplify_eq.
          * destruct (AllocPage_evict_run st v rest Hinv Hfree ltac:(lia)
                        Hlru)
              as (pg & st2 & _ & _ & _ & _ & Hrun' & _ & _ & _ & _ & Hcount).
            rewrite Hrun' in Halloc. by simplify_eq.
      - rewrite decide_False by (by intros (_ & ? & _)).
        destruct (AllocPage_free_run st f0 rest Hinv Hfree)
          as (pg & _ & _ & _ & _ & Hrun').
        rewrite Hrun' in Halloc. by simplify_eq. }
    rewrite (inv_count _ Hinv').
    destruct (StorePage_miss_inv _ _ _ _ _ _ _ Hk Hrun)
      as [(Halloc & _)|[(f & st1 & Halloc & Hassign & _)|
          (f & st1 & st2 & Halloc & Hassign & _ & _ & Hunpin)]];
      pose proof (Hgrow _ _ Halloc) as Hn;
      destruct (AllocPage_config _ _ _ Halloc) as (Hs1 & Hz1 & Hc1).
    + split_and!; done.
    + destruct (AllocPage_result _ _ _ Hinv Halloc) as (pg & Hf & _).
      destruct (AssignPageToStore_inv _ _ _ _ _ _ _ _ Hf Hassign)
        as (_ & _ & _ & _ & _ & Hcount & Hz2 & _).
      destruct (AssignPageToStore_world _ _ _ _ _ _ _ Hassign)
        as (Hs2 & Hc2 & _).
      split_and!; [congruence..|].
      rewrite Hcount. exact Hn.
    + destruct (AllocPage_result _ _ _ Hinv Halloc) as (pg & Hf & _).
      destruct (AssignPageToStore_inv _ _ _ _ _ _ _ _ Hf Hassign)
        as (_ & _ & _ & _ & _ & Hcount & Hz2 & _).
      destruct (AssignPageToStore_world _ _ _ _ _ _ _ Hassign)
        as (Hs2 & Hc2 & _).
      destruct (UnpinUnassignedPage_config _ _ _ Hunpin) as (Hs3 & Hz3 & Hc3).
      destruct (UnpinUnassignedPage_inv _ _ _ Hunpin)
        as (_ & _ & _ & _ & _ & _ & _ & _ & Hcount' & _).
      split_and!; [congruence..|].
      rewrite Hcount', Hcount. exact Hn.
Qed.

Lemma StorePage_growth_witness :
  ∃ status result st',
    PagePool.StorePage 7 9 kFetchPageData one_resident =
      Some ((status, result), st') ∧
    page_shift_ st' = page_shift_ one_resident ∧
    page_size_ st' = page_size_ one_resident ∧
    page_capacity_ st' = page_capacity_ one_resident ∧
    length (heap st') = page_count_ st' ∧
    page_count_ st' =
      (if decide (page_map_ one_resident !! (7, 9) = None ∧
                  free_list_ one_resident = [] ∧
                  page_count_ one_resident < page_capacity_ one_resident)
       then S (page_count_ one_resident) else page_count_ one_resident).
Proof.
  exact (StorePage_growth 7 9 kFetchPageData one_resident
           one_resident_reachable).
Defined.

(** ** X9: pinning the pages of a transaction *)

Lemma filter_all (P : PagePtr → Prop) `{!∀ x, Decision (P x)}
    (l : list PagePtr) :
  (∀ x, x ∈ l → P x) → filter P l = l.
Proof.
  induction l as [|x l IH]; intros Hall; [done|].
  rewrite filter_cons_True by (apply Hall; set_solver).
  rewrite IH; [done|]. intros y Hy. apply Hall. set_solver.
Qed.

Lemma erase_not_in (f : PagePtr) l : f ∉ l → LinkedList.erase f l = l.
Proof.
  intros Hf. apply filter_all. intros x Hx ->. done.
Qed.

(** X9. [PinTransactionPages] on a list of frames that all hold a page adds
    to each frame one pin per occurrence in the list and changes nothing
    else in it; the listed frames leave the LRU list, whose other frames
    keep their order; the free list, the resident map, the number of frames
    and the stores are untouched. *)
Theorem PinTransactionPages_accounting page_list st :
  reachable st →
  (∀ f : PagePtr, f ∈ page_list →
     ∃ pg, heap st !! f = Some pg ∧ transaction_ pg ≠ None) →
  ∃ st',
    PagePool.PinTransactionPages page_list st = Some (tt, st') ∧
    lru_list_ st' = filter (λ p, p ∉ page_list) (lru_list_ st) ∧
    free_list_ st' = free_list_ st ∧
    page_map_ st' = page_map_ st ∧
    page_count_ st' = page_count_ st ∧
    world st' = world st ∧
    ∀ (g : PagePtr) pg,
      heap st !! g = Some pg →
      heap st' !! g =
        Some (with_pin_count
                (pin_count_ pg + length (filter (λ p, p = g) page_list)) pg).
Proof.
  intros Hinv%reachable_invariant. revert st Hinv.
  induction page_list as [|f rest IH]; intros st Hinv Hall.
  - exists st. simpl. split_and!; try done.
    + symmetry. apply filter_all. intros p _. apply not_elem_of_nil.
    + intros g pg Hg. rewrite Nat.add_0_r. by destruct pg.
  - destruct (Hall f) as (pg & Hf & Ht); [set_solver|].
    pose proof (PinStorePage_run st f pg Hinv Hf Ht) as Hpin.
    set (st1 := set_heap (<[f := with_pin_count (S (pin_count_ pg)) pg]>
                            (heap st))
                  (if pin_count_ pg =? 0
                   then set_lru_list (LinkedList.erase f (lru_list_ st)) st
                   else st)) in *.
    assert (Hinv1 : pool_invariant st1) by (by eapply PinStorePage_invariant).
    assert (Hheap1 : ∀ g, heap st1 !! g =
              if decide (g = f)
              then Some (with_pin_count (S (pin_count_ pg)) pg)
              else heap st !! g).
    { intros g. subst st1. simpl. apply (lookup_update _ _ _ _ pg).
      by destruct (pin_count_ pg =? 0). }
    assert (Hlru1 : lru_list_ st1 = LinkedList.erase f (lru_list_ st)).
    { subst st1. simpl. destruct (pin_count_ pg =? 0) eqn:Hz; [done|].
      simpl. symmetry. apply erase_not_in.
      rewrite (inv_lru_at _ _ _ Hinv Hf). bool_simpl. tauto. }
    assert (Hrest1 : free_list_ st1 = free_list_ st ∧
                     page_map_ st1 = page_map_ st ∧
                     page_count_ st1 = page_count_ st ∧
                     world st1 = world st).
    { subst st1. simpl. by destruct (pin_count_ pg =? 0). }
    destruct Hrest1 as (Hfree1 & Hmap1 & Hcount1 & Hworld1).
    destruct (IH st1 Hinv1) as (st' & Hrun & Hlru & Hfree & Hmap & Hcount
                                & Hworld & Hheap).
    { intros g Hg. destruct (Hall g) as (pg' & Hg' & Ht'); [set_solver|].
      rewrite Hheap1. destruct (decide (g = f)); eauto. }
    exists st'. split_and!; try congruence.
    + simpl. unfold bind at 1, Page.transaction, bind at 1, deref.
      rewrite Hf. unfold ret, bind at 1, DCHECK.
      rewrite bool_decide_eq_false_2 by done. simpl.
      unfold bind. by rewrite Hpin.
    + rewrite Hlru, Hlru1. unfold LinkedList.erase.
      rewrite list_filter_filter. apply list_filter_iff.
      intros p. rewrite not_elem_of_cons. tauto.
    + intros g pg0 Hg. rewrite filter_cons.
      destruct (decide (g = f)) as [->|Hne].
      * rewrite decide_True by done. simplify_eq.
        rewrite (Hheap f (with_pin_count (S (pin_count_ pg)) pg)).
        2: { rewrite Hheap1. by rewrite decide_True. }
        simpl. unfold with_pin_count. simpl. do 3 f_equal. lia.
      * rewrite decide_False by done.
        apply Hheap. rewrite Hheap1. by rewrite decide_False.
Qed.

Lemma PinTransactionPages_accounting_witness :
  ∃ st',
    PagePool.PinTransactionPages [0] one_resident = Some (tt, st') ∧
    lru_list_ st' = filter (λ p, p ∉ [0]) (lru_list_ one_resident) ∧
    free_list_ st' = free_list_ one_resident ∧
    page_map_ st' = page_map_ one_resident ∧
    page_count_ st' = page_count_ one_resident ∧
    world st' = world one_resident ∧
    ∀ (g : PagePtr) pg,
      heap one_resident !! g = Some pg →
      heap st' !! g =
        Some (with_pin_count
                (pin_count_ pg + length (filter (λ p, p = g) [0])) pg).
Proof.
  apply (PinTransactionPages_accounting [0] one_resident
           one_resident_reachable).
  intros f Hf. apply list_elem_of_singleton in Hf. rewrite Hf.
  exists (mkPage 0 false (Some (mkTransaction 7 0)) 7 (replicate 4096 0%N)).
  split; [reflexivity|discriminate].
Defined.

(** ** X10: destruction releases each frame once *)

(** X10. When no page is pinned the destructor releases every frame the
    pool ever created, each exactly once: the frames released are a
    permutation of the [page_count_] frames. *)
Theorem destroy_releases_each_frame_once st :
  reachable st →
  PagePool.pinned_pages st = 0 →
  ∃ w released,
    PagePool.destroy st = Some w ∧
    trace w = trace (world st) ++ (EvRelease <$> released) ∧
    released ≡ₚ seq 0 (page_count_ st).
Proof.
  intros Hinv%reachable_invariant Hpinned.
  exists (mkWorld
            (trace (world st) ++ (EvRelease <$> free_list_ st) ++
             (EvRelease <$> lru_list_ st))
            (read_script (world st)) (write_script (world st))
            (disk (world st)) (closed_stores (world st))),
    (free_list_ st ++ lru_list_ st).
  split_and!.
  - unfold PagePool.destroy, bind at 1, DCHECK. rewrite Hpinned. simpl.
    unfold bind at 1, gets. unfold bind at 1.
    rewrite release_all_run.
    2: { intros f (pg & ? & _)%(inv_free _ Hinv). eauto. }
    unfold bind, gets. rewrite release_all_run.
    2: { intros f (pg & ? & _)%(inv_lru _ Hinv). simpl. eauto. }
    simpl. by rewrite <- app_assoc.
  - simpl. by rewrite fmap_app.
  - apply NoDup_Permutation.
    + apply NoDup_app. split_and!.
      * apply (inv_free_nodup _ Hinv).
      * intros f (pg & Hf & _ & Ht)%(inv_free _ Hinv)
                 (pg' & Hf' & _ & Ht')%(inv_lru _ Hinv).
        congruence.
      * apply (inv_lru_nodup _ Hinv).
    + apply NoDup_seq.
    + intros f. rewrite elem_of_seq, <- (inv_count _ Hinv), elem_of_app.
      split.
      * intros [(pg & Hf & _)%(inv_free _ Hinv)|
                (pg & Hf & _)%(inv_lru _ Hinv)];
          apply lookup_lt_Some in Hf; lia.
      * intros [_ Hlt]. simpl in Hlt.
        apply lookup_lt_is_Some_2 in Hlt as [pg Hf].
        pose proof (proj1 (pinned_pages_zero st) Hpinned f pg Hf) as Hpin.
        rewrite (inv_free_at _ _ _ Hinv Hf), (inv_lru_at _ _ _ Hinv Hf).
        destruct (transaction_ pg); [right|left]; done.
Qed.

Lemma destroy_releases_each_frame_once_witness :
  ∃ w released,
    PagePool.destroy two_freed = Some w ∧
    trace w = trace (world two_freed) ++ (EvRelease <$> released) ∧
    released ≡ₚ seq 0 (page_count_ two_freed).
Proof.
  apply (destroy_releases_each_frame_once two_freed two_freed_reachable).
  reflexivity.
Defined.

(** ** X11: a new pool *)

(** X11. For a page shift below the width of [size_t] the constructor's
    check passes: the page size is [2 ^ page_shift], which has no bit in
    common with its predecessor.  The new pool holds no frame and no pin,
    and it is consistent for any capacity. *)
Theorem new_pool page_shift page_capacity w :
  page_shift < 64 →
  page_size_ (PagePool.new page_shift page_capacity w) =
    (2 ^ N.of_nat page_shift)%N ∧
  low_bits_clear (page_size_ (PagePool.new page_shift page_capacity w)) =
    0%N ∧
  page_count_ (PagePool.new page_shift page_capacity w) = 0 ∧
  PagePool.pinned_pages (PagePool.new page_shift page_capacity w) = 0 ∧
  pool_invariant (PagePool.new page_shift page_capacity w).
Proof.
  intros Hshift.
  assert (Hlt : (2 ^ N.of_nat page_shift < 2 ^ 64)%N).
  { apply N.pow_lt_mono_r; lia. }
  assert (Hsize : page_size_ (PagePool.new page_shift page_capacity w) =
                  (2 ^ N.of_nat page_shift)%N).
  { simpl. by apply N.mod_small. }
  split_and!; try done.
  - rewrite Hsize. unfold low_bits_clear, size_max.
    assert (Hpos : (0 < 2 ^ N.of_nat page_shift)%N).
    { apply N.neq_0_lt_0, N.pow_nonzero. lia. }
    rewrite Z.mod_small by lia.
    replace (Z.to_N (Z.of_N (2 ^ N.of_nat page_shift) - 1))
      with (N.ones (N.of_nat page_shift)).
    2: { rewrite N.ones_equiv. lia. }
    rewrite N.land_ones. apply N.Div0.mod_same.
  - apply new_invariant.
Qed.

Lemma new_pool_witness :
  page_size_ (PagePool.new 12 2 quiet_world) = (2 ^ N.of_nat 12)%N ∧
  low_bits_clear (page_size_ (PagePool.new 12 2 quiet_world)) = 0%N ∧
  page_count_ (PagePool.new 12 2 quiet_world) = 0 ∧
  PagePool.pinned_pages (PagePool.new 12 2 quiet_world) = 0 ∧
  pool_invariant (PagePool.new 12 2 quiet_world).
Proof.
  apply (new_pool 12 2 quiet_world). lia.
Defined.

(** * Further properties of the libc VFS *)

(** A seek to the end of a file cannot land before its start. *)
Ltac z_contra :=
  match goal with
  | H : (_ <? _)%Z = true |- _ => apply Z.ltb_lt in H; lia
  | H : (_ <? _)%Z = false |- _ => apply Z.ltb_ge in H; lia
  end.

(** ** X12: what opening a file does when the C library does not fail *)

(** X12. With no fault injected, [OpenLibcFile] decides by the flags and by
    whether the file exists.  An existing file is opened, unless
    [error_if_exists] is set, and its length is the size reported; the
    stream is left at the end of the file.  A missing file is created empty
    when [create_if_missing] is set, with size zero, and is an error
    otherwise.  In no case are the contents of a file changed. *)
Theorem OpenLibcFile_no_faults platform path create_if_missing
    error_if_exists libc :
  (error_if_exists = true → create_if_missing = true) →
  Libc.faults libc = [] →
  ∃ fp size libc',
    LibcVfs.OpenLibcFile platform path create_if_missing error_if_exists
      libc = Some ((fp, size), libc') ∧
    Libc.faults libc' = [] ∧
    match Libc.files libc !! path with
    | Some data =>
        Libc.files libc' = Libc.files libc ∧
        if error_if_exists then fp = None ∧ size = 0%N
        else
          size = to_size_t (Z.of_nat (length data)) ∧
          ∃ n, fp = Some n ∧
               Libc.streams libc' !! n = Some (Libc.mkStream path (length data))
    | None =>
        if create_if_missing then
          Libc.files libc' = <[path := []]> (Libc.files libc) ∧
          size = 0%N ∧
          ∃ n, fp = Some n ∧
               Libc.streams libc' !! n = Some (Libc.mkStream path 0)
        else
          Libc.files libc' = Libc.files libc ∧ fp = None ∧ size = 0%N
    end.
Proof.
  intros Hpre Hfaults.
  destruct (OpenLibcFile_total platform path create_if_missing
              error_if_exists libc Hpre)
    as (fp & size & libc' & Hrun & _).
  exists fp, size, libc'. split; [done|].
  destruct libc as [files streams next faults unwritten]. simpl in *.
  subst faults.
  unfold_libc. simpl in Hrun.
  repeat (case_match; simplify_map_eq/=; try done; try z_contra).
  all: rewrite ?Z.add_0_r, ?Nat2Z.id.
  all: split_and!; try done.
  all: try (eexists; split; [reflexivity|]; by simplify_map_eq).
Qed.

Lemma OpenLibcFile_no_faults_witness :
  ∃ fp size libc',
    LibcVfs.OpenLibcFile LibcVfs.Posix "data.berry" false false
      (data_file []) = Some ((fp, size), libc') ∧
    Libc.faults libc' = [] ∧
    match Libc.files (data_file []) !! "data.berry" with
    | Some data =>
        Libc.files libc' = Libc.files (data_file []) ∧
        if false then fp = None ∧ size = 0%N
        else
          size = to_size_t (Z.of_nat (length data)) ∧
          ∃ n, fp = Some n ∧
               Libc.streams libc' !! n =
                 Some (Libc.mkStream "data.berry" (length data))
    | None =>
        if false then
          Libc.files libc' =
            <["data.berry" := []]> (Libc.files (data_file [])) ∧
          size = 0%N ∧
          ∃ n, fp = Some n ∧
               Libc.streams libc' !! n = Some (Libc.mkStream "data.berry" 0)
        else
          Libc.files libc' = Libc.files (data_file []) ∧
          fp = None ∧ size = 0%N
    end.
Proof.
  apply (OpenLibcFile_no_faults LibcVfs.Posix "data.berry" false false
           (data_file [])).
  - discriminate.
  - reflexivity.
Defined.

(** ** X13: streams are not leaked *)

(** X13. [OpenLibcFile] leaves no stream behind: when it returns no file
    the open streams are those that were open before, whatever the C library
    made fail on the way; when it returns a file, the one new stream is that
    of the file, and [Close] gives it back, leaving the files as they
    are. *)
Theorem OpenLibcFile_streams platform path create_if_missing
    error_if_exists libc :
  (error_if_exists = true → create_if_missing = true) →
  fresh_streams libc →
  ∃ fp size libc',
    LibcVfs.OpenLibcFile platform path create_if_missing error_if_exists
      libc = Some ((fp, size), libc') ∧
    fresh_streams libc' ∧
    match fp with
    | None => Libc.streams libc' = Libc.streams libc
    | Some n =>
        Libc.streams libc !! n = None ∧
        (∃ pos, Libc.streams libc' =
                  <[n := Libc.mkStream path pos]> (Libc.streams libc)) ∧
        ∃ libc'',
          LibcRandomAccessFile.Close (mkRandomAccessFile n) libc' =
            Some (kSuccess, libc'') ∧
          Libc.streams libc'' = Libc.streams libc ∧
          Libc.files libc'' = Libc.files libc'
    end.
Proof.
  intros Hpre Hfresh.
  destruct (OpenLibcFile_total platform path create_if_missing
              error_if_exists libc Hpre)
    as (fp & size & libc' & Hrun & _).
  exists fp, size, libc'. split; [done|].
  destruct libc as [files streams next faults unwritten].
  unfold fresh_streams in *. simpl in Hfresh.
  pose proof (Hfresh next (le_n _)) as Hnext.
  pose proof (Hfresh (S next) (le_S _ _ (le_n _))) as Hnext'.
  unfold_libc. simpl in Hrun.
  repeat (case_match; simplify_map_eq/=; try done; try z_contra).
  all: rewrite ?(delete_insert_id streams next) by done.
  all: rewrite ?(delete_insert_id streams (S next)) by done.
  all: split; [intros m Hm; rewrite ?lookup_insert_ne by lia;
               apply Hfresh; lia|].
  all: try done.
  all: rewrite ?insert_insert_eq.
  all: split; [done|]; split; [by eexists|].
  all: eexists; split; [reflexivity|]; simpl.
  all: by rewrite delete_insert_id.
Qed.

Lemma OpenLibcFile_streams_witness :
  ∃ fp size libc',
    LibcVfs.OpenLibcFile LibcVfs.Posix "data.berry" true false empty_libc =
      Some ((fp, size), libc') ∧
    fresh_streams libc' ∧
    match fp with
    | None => Libc.streams libc' = Libc.streams empty_libc
    | Some n =>
        Libc.streams empty_libc !! n = None ∧
        (∃ pos, Libc.streams libc' =
                  <[n := Libc.mkStream "data.berry" pos]>
                    (Libc.streams empty_libc)) ∧
        ∃ libc'',
          LibcRandomAccessFile.Close (mkRandomAccessFile n) libc' =
            Some (kSuccess, libc'') ∧
          Libc.streams libc'' = Libc.streams empty_libc ∧
          Libc.files libc'' = Libc.files libc'
    end.
Proof.
  apply (OpenLibcFile_streams LibcVfs.Posix "data.berry" true false
           empty_libc).
  - discriminate.
  - intros n _. reflexivity.
Defined.

(** ** X14: opening a file never damages one *)

(** X14. [OpenLibcFile] changes no file but the one it is asked for, and
    creates nothing unless [create_if_missing] is set.  A file that exists
    keeps its contents, whatever the C library makes fail on the way.  One
    case is left out by the hypothesis: on Windows with [error_if_exists],
    the probing [fopen] itself is made to fail. *)
Theorem OpenLibcFile_keeps_files platform path create_if_missing
    error_if_exists libc :
  (error_if_exists = true → create_if_missing = true) →
  (error_if_exists = true → platform = LibcVfs.Windows →
   hd false (Libc.faults libc) = false) →
  ∃ fp size libc',
    LibcVfs.OpenLibcFile platform path create_if_missing error_if_exists
      libc = Some ((fp, size), libc') ∧
    (∀ p data, Libc.files libc !! p = Some data →
               Libc.files libc' !! p = Some data) ∧
    (∀ p, p ≠ path → Libc.files libc' !! p = Libc.files libc !! p) ∧
    (create_if_missing = false → Libc.files libc' = Libc.files libc).
Proof.
  intros Hpre Hprobe.
  destruct (OpenLibcFile_total platform path create_if_missing
              error_if_exists libc Hpre)
    as (fp & size & libc' & Hrun & _).
  exists fp, size, libc'. split; [done|].
  destruct libc as [files streams next faults unwritten]. simpl in Hprobe.
  unfold_libc. simpl in Hrun.
  repeat (case_match; simplify_map_eq/=; try done; try z_contra).
  all: try (by specialize (Hprobe eq_refl eq_refl)).
  all: split_and!; try done.
  all: try (intros p data Hp; destruct (decide (p = path)) as [->|?];
            [congruence|by rewrite lookup_insert_ne]).
  all: try (intros p Hp; by rewrite lookup_insert_ne).
Qed.

Lemma OpenLibcFile_keeps_files_witness :
  ∃ fp size libc',
    LibcVfs.OpenLibcFile LibcVfs.Windows "data.berry" true true
      (data_file [false; true]) = Some ((fp, size), libc') ∧
    (∀ p data,
       Libc.files (data_file [false; true]) !! p = Some data →
       Libc.files libc' !! p = Some data) ∧
    (∀ p, p ≠ "data.berry" →
       Libc.files libc' !! p = Libc.files (data_file [false; true]) !! p) ∧
    (true = false →
     Libc.files libc' = Libc.files (data_file [false; true])).
Proof.
  apply (OpenLibcFile_keeps_files LibcVfs.Windows "data.berry" true true
           (data_file [false; true])).
  - reflexivity.
  - reflexivity.
Defined.

(** ** X15: a failure of [ftell] goes unnoticed *)

(** X15. [OpenLibcFile] does not check the result of [ftell].  When the
    file is opened and the seek to its end succeeds but [ftell] fails, the
    open still answers [kSuccess] with a file, and reports the size
    [2 ^ 64 - 1], the conversion of -1 to [size_t]. *)
Theorem OpenForRandomAccess_ftell_failure platform path libc data rest :
  Libc.files libc !! path = Some data →
  Libc.faults libc = false :: false :: true :: rest →
  ∃ file libc',
    Vfs.OpenForRandomAccess platform path false false libc =
      Some ((kSuccess, Some file, (2 ^ 64 - 1)%N), libc') ∧
    is_Some (Libc.streams libc' !! random_fp_ file) ∧
    Libc.files libc' = Libc.files libc.
Proof.
  intros Hpath Hfaults.
  destruct libc as [files streams next faults unwritten]. simpl in *.
  subst faults.
  unfold_libc. simpl. rewrite Hpath. simpl.
  rewrite lookup_insert_eq. simpl. rewrite lookup_delete_eq. simpl.
  rewrite Hpath. simpl.
  assert ((Z.of_nat (length data) + 0 <? 0)%Z = false) as ->
    by (apply Z.ltb_ge; lia).
  simpl. rewrite lookup_insert_eq. simpl.
  eexists _, _. split; [reflexivity|]. simpl.
  split; [|done]. rewrite lookup_insert_eq. eauto.
Qed.

Lemma OpenForRandomAccess_ftell_failure_witness :
  ∃ file libc',
    Vfs.OpenForRandomAccess LibcVfs.Posix "data.berry" false false
      (data_file [false; false; true]) =
      Some ((kSuccess, Some file, (2 ^ 64 - 1)%N), libc') ∧
    is_Some (Libc.streams libc' !! random_fp_ file) ∧
    Libc.files libc' = Libc.files (data_file [false; false; true]).
Proof.
  apply (OpenForRandomAccess_ftell_failure LibcVfs.Posix "data.berry"
           (data_file [false; false; true]) [1; 2; 3]%N []).
  - apply lookup_insert_eq.
  - reflexivity.
Defined.

(** ** X16: what a read delivers *)

Lemma to_long_small offset :
  (offset < 2 ^ 63)%N → to_long offset = Z.of_N offset.
Proof.
  intros Hlt. unfold to_long.
  destruct (Z.ltb_spec (Z.of_N offset) (2 ^ 63)); [done|lia].
Qed.

(** X16. [ReadLibcFile] on an open stream that has nothing buffered, at an
    offset below [2 ^ 31], never changes a file.  It succeeds exactly when
    neither [fseek] nor [fread] is made to fail, the buffer is not empty
    and the whole range lies within the file; every other outcome is
    [kIoError].  When [fseek] fails the buffer receives nothing, [fread] not
    being called.  When nothing is made to fail the buffer receives the
    bytes of the file from the offset on, as many as there are and at most
    as many as it holds: all of the range on success, and what is left of
    the file when the read reaches past its end, which is an error like a
    read of zero bytes. *)
Theorem ReadLibcFile_contract fp offset size libc s :
  Libc.streams libc !! fp = Some s →
  Libc.unwritten libc !! fp = None →
  (offset < 2 ^ 31)%N →
  ∃ status data libc',
    LibcVfs.ReadLibcFile fp offset size libc =
      Some ((status, data), libc') ∧
    Libc.files libc' = Libc.files libc ∧
    (status = kSuccess ↔
       (true ∉ take 2 (Libc.faults libc)) ∧ size ≠ 0 ∧
       N.to_nat offset + size ≤
         length (default [] (Libc.files libc !! Libc.stream_path s))) ∧
    (status ≠ kSuccess → status = kIoError) ∧
    (status = kSuccess → length data = size) ∧
    (hd false (Libc.faults libc) = true → data = []) ∧
    ((true ∉ take 2 (Libc.faults libc)) →
     data = take size (drop (N.to_nat offset)
              (default [] (Libc.files libc !! Libc.stream_path s)))).
Proof.
  intros Hs Hu Hrange.
  destruct libc as [files streams next faults unwritten]. simpl in *.
  set (bytes := default [] (files !! Libc.stream_path s)).
  assert (Hsmall : (offset < 2 ^ 63)%N) by lia.
  pose proof (to_long_small offset Hsmall) as Hlong.
  assert (Hpos : (to_long offset <? 0)%Z = false)
    by (apply Z.ltb_ge; lia).
  assert (Hnat : Z.to_nat (to_long offset) = N.to_nat offset)
    by (rewrite Hlong; lia).
  assert (Hlen : length (take size (drop (N.to_nat offset) bytes)) =
                 min size (length bytes - N.to_nat offset)).
  { by rewrite length_take, length_drop. }
  destruct faults as [|[] [|[] faults]];
    unfold_libc; simpl; rewrite Hs; simpl; rewrite ?Hu; simpl;
    rewrite ?Hpos; simpl; rewrite ?lookup_insert_eq; simpl;
    rewrite ?Hu; simpl; rewrite ?Hnat; fold bytes.
  all: try (eexists _, _, _; split; [reflexivity|]; simpl;
            split_and!; try done;
            [split; [done|]; intros (Hin & _); exfalso; apply Hin;
             simpl; rewrite ?elem_of_cons; tauto
            |intros Hin; exfalso; apply Hin;
             simpl; rewrite ?elem_of_cons; tauto]).
  all: destruct (size =? 0) eqn:Hz; simpl;
    [|destruct (length (take size (drop (N.to_nat offset) bytes)) <? size)
        eqn:Hshort];
    simpl; bool_simpl.
  all: eexists _, _, _; (split; [reflexivity|]); simpl.
  all: split_and!; try done.
  all: try (split; [done|]; intros (_ & ? & ?); lia).
  all: try (split; [intros _|done]; split_and!; try done;
            first [lia | simpl; set_solver]).
  all: try (intros _; lia).
Qed.

Lemma ReadLibcFile_contract_witness :
  ∃ status data libc',
    LibcVfs.ReadLibcFile 0 3 2 open_data_file =
      Some ((status, data), libc') ∧
    Libc.files libc' = Libc.files open_data_file ∧
    (status = kSuccess ↔
       (true ∉ take 2 (Libc.faults open_data_file)) ∧ 2 ≠ 0 ∧
       N.to_nat 3 + 2 ≤
         length (default [] (Libc.files open_data_file
                               !! Libc.stream_path
                                    (Libc.mkStream "data.berry" 0)))) ∧
    (status ≠ kSuccess → status = kIoError) ∧
    (status = kSuccess → length data = 2) ∧
    (hd false (Libc.faults open_data_file) = true → data = []) ∧
    ((true ∉ take 2 (Libc.faults open_data_file)) →
     data = take 2 (drop (N.to_nat 3)
              (default [] (Libc.files open_data_file
                             !! Libc.stream_path
                                  (Libc.mkStream "data.berry" 0))))).
Proof.
  apply (ReadLibcFile_contract 0 3 2 open_data_file
           (Libc.mkStream "data.berry" 0)).
  - apply lookup_insert_eq.
  - apply lookup_empty.
  - reflexivity.
Defined.

(** ** X17: a write can be read back, and reaches the file when flushed *)

(** The file after [data] was written at [off]. *)
Lemma written_file (old data : list N) (off : nat) :
  take (length data) (drop off (Libc.write_at off data old)) = data ∧
  length (Libc.write_at off data old) =
    max (length old) (off + length data) ∧
  (∀ i, i < off → i < length old →
        Libc.write_at off data old !! i = old !! i) ∧
  (∀ i, off + length data ≤ i →
        Libc.write_at off data old !! i = old !! i) ∧
  (∀ i, length old ≤ i → i < off →
        Libc.write_at off data old !! i = Some 0%N).
Proof.
  unfold Libc.write_at.
  set (padded := old ++ replicate (off - length old) 0%N).
  assert (Hpadded : length padded = max (length old) off).
  { subst padded. rewrite length_app, length_replicate. lia. }
  assert (Htake : length (take off padded) = off).
  { rewrite length_take. lia. }
  split_and!.
  - rewrite drop_app_length' by done. by rewrite take_app_length.
  - rewrite !length_app, Htake, length_drop. lia.
  - intros i Hi Hold.
    rewrite lookup_app_l by lia. rewrite lookup_take_lt by done.
    subst padded. by rewrite lookup_app_l.
  - intros i Hi.
    rewrite lookup_app_r by lia. rewrite lookup_app_r by lia.
    rewrite lookup_drop, Htake.
    replace (off + length data + (i - off - length data)) with i by lia.
    subst padded.
    destruct (decide (i < length old)) as [Hlt|Hge].
    + by rewrite lookup_app_l.
    + rewrite lookup_app_r by lia.
      rewrite (lookup_ge_None_2 old) by lia.
      apply lookup_replicate_None. lia.
  - intros i Hold Hi.
    rewrite lookup_app_l by lia. rewrite lookup_take_lt by done.
    subst padded. rewrite lookup_app_r by lia.
    apply lookup_replicate_2. lia.
Qed.

(** X17. With no fault injected, on an open stream that has nothing
    buffered, a [Write] of a non-empty span at an offset below [2 ^ 31]
    succeeds, and a [Read] of as many bytes at the same offset gives the
    bytes written.  [Flush], and likewise [Sync], then succeeds and leaves
    nothing buffered: the file has the bytes written at the offset, is
    extended where needed with the gap filled with zeros, and keeps its
    bytes outside the range written; no other file is touched.  Nothing is
    said of the file between the write and the flush. *)
Theorem Write_then_Read file data offset libc s :
  Libc.streams libc !! random_fp_ file = Some s →
  Libc.unwritten libc !! random_fp_ file = None →
  Libc.faults libc = [] →
  data ≠ [] →
  (offset < 2 ^ 31)%N →
  ∃ libc1 libc2 libc3 bytes,
    LibcRandomAccessFile.Write file data offset libc =
      Some (kSuccess, libc1) ∧
    LibcRandomAccessFile.Read file offset (length data) libc1 =
      Some ((kSuccess, data), libc2) ∧
    LibcRandomAccessFile.Flush file libc1 = Some (kSuccess, libc3) ∧
    LibcRandomAccessFile.Sync file libc1 = Some (kSuccess, libc3) ∧
    Libc.unwritten libc3 !! random_fp_ file = None ∧
    Libc.files libc3 =
      <[Libc.stream_path s := bytes]> (Libc.files libc) ∧
    length bytes =
      max (length (default [] (Libc.files libc !! Libc.stream_path s)))
          (N.to_nat offset + length data) ∧
    take (length data) (drop (N.to_nat offset) bytes) = data ∧
    (∀ i, i < N.to_nat offset ∨ N.to_nat offset + length data ≤ i →
          i < length (default [] (Libc.files libc !! Libc.stream_path s)) →
          bytes !! i =
            default [] (Libc.files libc !! Libc.stream_path s) !! i) ∧
    (∀ i, length (default [] (Libc.files libc !! Libc.stream_path s)) ≤ i →
          i < N.to_nat offset → bytes !! i = Some 0%N).
Proof.
  intros Hs Hu Hfaults Hdata Hrange.
  destruct libc as [files streams next faults unwritten]. simpl in *.
  subst faults.
  destruct file as [fp]. simpl in *.
  set (old := default [] (files !! Libc.stream_path s)).
  assert (Hsmall : (offset < 2 ^ 63)%N) by lia.
  pose proof (to_long_small offset Hsmall) as Hlong.
  assert (Hpos : (to_long offset <? 0)%Z = false) by (apply Z.ltb_ge; lia).
  assert (Hnat : Z.to_nat (to_long offset) = N.to_nat offset)
    by (rewrite Hlong; lia).
  assert (Hlen : (length data =? 0) = false).
  { apply Nat.eqb_neq. by destruct data. }
  destruct (written_file old data (N.to_nat offset))
    as (Hread & Hlength & Hbefore & Hafter & Hgap).
  set (bytes := Libc.write_at (N.to_nat offset) data old) in *.
  assert (Htake : length (take (length data) (drop (N.to_nat offset) bytes))
                  = length data) by (by rewrite Hread).
  assert (Hfit : (length (take (length data) (drop (N.to_nat offset) bytes))
                  <? length data) = false).
  { rewrite Htake. apply Nat.ltb_irrefl. }
  eexists _, _, _, bytes. split_and!.
  - unfold_libc. simpl. rewrite Hs. simpl. rewrite Hu. simpl.
    rewrite Hpos. simpl. rewrite lookup_insert_eq. simpl.
    rewrite Hnat, Hlen. simpl. rewrite Hu. simpl. reflexivity.
  - unfold_libc. simpl. rewrite lookup_insert_eq. simpl.
    rewrite lookup_insert_eq. simpl. fold old. fold bytes.
    rewrite Hpos. simpl. rewrite lookup_insert_eq. simpl.
    rewrite lookup_insert_eq, lookup_delete_eq. simpl.
    rewrite Hnat, Hlen, Hfit, Hread. simpl. reflexivity.
  - unfold_libc. simpl. rewrite lookup_insert_eq. simpl.
    rewrite lookup_insert_eq. simpl. fold old. fold bytes. reflexivity.
  - unfold_libc. simpl. rewrite lookup_insert_eq. simpl.
    rewrite lookup_insert_eq. simpl. fold old. fold bytes. reflexivity.
  - simpl. apply lookup_delete_eq.
  - done.
  - done.
  - done.
  - intros i [Hi|Hi] Hold; [by apply Hbefore|by apply Hafter].
  - done.
Qed.

Lemma Write_then_Read_witness :
  ∃ libc1 libc2 libc3 bytes,
    LibcRandomAccessFile.Write (mkRandomAccessFile 0) [9; 8]%N 6
      open_data_file = Some (kSuccess, libc1) ∧
    LibcRandomAccessFile.Read (mkRandomAccessFile 0) 6 (length [9; 8]%N)
      libc1 = Some ((kSuccess, [9; 8]%N), libc2) ∧
    LibcRandomAccessFile.Flush (mkRandomAccessFile 0) libc1 =
      Some (kSuccess, libc3) ∧
    LibcRandomAccessFile.Sync (mkRandomAccessFile 0) libc1 =
      Some (kSuccess, libc3) ∧
    Libc.unwritten libc3 !! random_fp_ (mkRandomAccessFile 0) = None ∧
    Libc.files libc3 =
      <[Libc.stream_path (Libc.mkStream "data.berry" 0) := bytes]>
        (Libc.files open_data_file) ∧
    length bytes =
      max (length (default [] (Libc.files open_data_file
                                 !! Libc.stream_path
                                      (Libc.mkStream "data.berry" 0))))
          (N.to_nat 6 + length [9; 8]%N) ∧
    take (length [9; 8]%N) (drop (N.to_nat 6) bytes) = [9; 8]%N ∧
    (∀ i, i < N.to_nat 6 ∨ N.to_nat 6 + length [9; 8]%N ≤ i →
          i < length (default [] (Libc.files open_data_file
                                    !! Libc.stream_path
                                         (Libc.mkStream "data.berry" 0))) →
          bytes !! i =
            default [] (Libc.files open_data_file
                          !! Libc.stream_path
                               (Libc.mkStream "data.berry" 0)) !! i) ∧
    (∀ i, length (default [] (Libc.files open_data_file
                                !! Libc.stream_path
                                     (Libc.mkStream "data.berry" 0))) ≤ i →
          i < N.to_nat 6 → bytes !! i = Some 0%N).
Proof.
  apply (Write_then_Read (mkRandomAccessFile 0) [9; 8]%N 6 open_data_file
           (Libc.mkStream "data.berry" 0)).
  - apply lookup_insert_eq.
  - apply lookup_empty.
  - reflexivity.
  - discriminate.
  - reflexivity.
Defined.

(** ** X18: the checks of block access *)

Lemma pred_size_t (x : N) :
  (0 < x)%N → (x ≤ 2 ^ 64)%N →
  Z.to_N ((Z.of_N x - 1) mod size_max) = N.pred x.
Proof.
  intros Hpos Hle. unfold size_max. rewrite Z.mod_small by lia. lia.
Qed.

(** [x & (x - 1)] is zero exactly for zero and the powers of two. *)
Lemma low_bits_clear_spec (x : N) :
  (x < 2 ^ 64)%N →
  low_bits_clear x = 0%N ↔ x = 0%N ∨ ∃ k : N, x = (2 ^ k)%N.
Proof.
  intros Hrange. unfold low_bits_clear. split.
  - intros Hland. destruct (decide (x = 0%N)) as [|Hne]; [by left|right].
    exists (N.log2 x).
    assert (Hpos : (0 < x)%N) by lia.
    rewrite pred_size_t in Hland by lia.
    destruct (N.log2_spec x Hpos) as [Hlo Hhi].
    destruct (decide (x = 2 ^ N.log2 x)%N) as [|Hne']; [done|exfalso].
    assert (Hbit : N.testbit (N.land x (N.pred x)) (N.log2 x) = true).
    { rewrite N.land_spec, N.bit_log2 by lia. simpl.
      assert (Hlog : N.log2 (N.pred x) = N.log2 x).
      { apply N.log2_unique; [lia|]. split; lia. }
      rewrite <- Hlog. apply N.bit_log2. lia. }
    rewrite Hland in Hbit. by rewrite N.bits_0 in Hbit.
  - intros [->|[k ->]]; [apply N.land_0_l|].
    assert (Hpos : (0 < 2 ^ k)%N) by (apply N.neq_0_lt_0, N.pow_nonzero; lia).
    rewrite pred_size_t by lia.
    rewrite <- N.ones_equiv, N.land_ones. apply N.Div0.mod_same.
Qed.

(** X18. A block-access file is [ReadLibcFile] and [WriteLibcFile] behind
    two checks: the size of the span is zero or a power of two, and the
    offset is a multiple of the block size [2 ^ block_shift].  When both
    hold, [Read] and [Write] are the plain operations on the stream; when
    one fails, the checked build stops. *)
Theorem block_access_checks fp block_shift libc offset :
  is_Some (Libc.streams libc !! fp) →
  block_shift < 64 →
  (offset < 2 ^ 64)%N →
  ∃ file,
    LibcBlockAccessFile.new fp block_shift libc = Some (file, libc) ∧
    block_fp_ file = fp ∧
    block_size_ file = (2 ^ N.of_nat block_shift)%N ∧
    (∀ size, (N.of_nat size < 2 ^ 64)%N →
       ((size = 0 ∨ ∃ k, size = 2 ^ k) ∧
        (offset mod 2 ^ N.of_nat block_shift = 0)%N →
        LibcBlockAccessFile.Read file offset size libc =
          LibcVfs.ReadLibcFile fp offset size libc) ∧
       (¬ ((size = 0 ∨ ∃ k, size = 2 ^ k) ∧
           (offset mod 2 ^ N.of_nat block_shift = 0)%N) →
        LibcBlockAccessFile.Read file offset size libc = None)) ∧
    (∀ data, (N.of_nat (length data) < 2 ^ 64)%N →
       ((length data = 0 ∨ ∃ k, length data = 2 ^ k) ∧
        (offset mod 2 ^ N.of_nat block_shift = 0)%N →
        LibcBlockAccessFile.Write file data offset libc =
          LibcVfs.WriteLibcFile fp data offset libc) ∧
       (¬ ((length data = 0 ∨ ∃ k, length data = 2 ^ k) ∧
           (offset mod 2 ^ N.of_nat block_shift = 0)%N) →
        LibcBlockAccessFile.Write file data offset libc = None)).
Proof.
  intros [s Hs] Hshift Hrange.
  assert (Hlt : (2 ^ Z.of_nat block_shift < 2 ^ 64)%Z).
  { apply Z.pow_lt_mono_r; lia. }
  assert (Hblock : Z.to_N ((2 ^ Z.of_nat block_shift) mod size_max) =
                   (2 ^ N.of_nat block_shift)%N).
  { unfold size_max. rewrite Z.mod_small by lia.
    rewrite <- (N2Z.id (2 ^ N.of_nat block_shift)), N2Z.inj_pow.
    by rewrite nat_N_Z. }
  assert (Hposb : (0 < 2 ^ N.of_nat block_shift)%N).
  { apply N.neq_0_lt_0, N.pow_nonzero. lia. }
  assert (Hleb : (2 ^ N.of_nat block_shift ≤ 2 ^ 64)%N).
  { apply N.pow_le_mono_r; lia. }
  assert (Hmask : N.land offset
                    (Z.to_N ((Z.of_N (2 ^ N.of_nat block_shift) - 1)
                             mod size_max)) =
                  (offset mod 2 ^ N.of_nat block_shift)%N).
  { rewrite pred_size_t by done.
    by rewrite <- N.ones_equiv, N.land_ones. }
  assert (Hsize : ∀ n : nat, (N.of_nat n < 2 ^ 64)%N →
            low_bits_clear (N.of_nat n) = 0%N ↔ n = 0 ∨ ∃ k, n = 2 ^ k).
  { intros n Hn. rewrite (low_bits_clear_spec _ Hn). split.
    - intros [?|[k Hk]]; [left; lia|right]. exists (N.to_nat k).
      apply Nat2N.inj. rewrite Hk, Nat2N.inj_pow. simpl. by rewrite N2Nat.id.
    - intros [->|[k ->]]; [by left|right]. exists (N.of_nat k).
      by rewrite Nat2N.inj_pow. }
  exists (mkBlockAccessFile fp (2 ^ N.of_nat block_shift)%N).
  split_and!; try done.
  - unfold LibcBlockAccessFile.new, Libc.setbuf, Libc.stream, bind, ret.
    rewrite Hs. by rewrite Hblock.
  - intros size Hn. unfold LibcBlockAccessFile.Read. simpl. rewrite Hmask.
    split.
    + intros [Hpow Hal]. apply (Hsize size Hn) in Hpow.
      unfold bind, DCHECK. rewrite Hpow, Hal. done.
    + intros Hnot. unfold bind, DCHECK.
      destruct (low_bits_clear (N.of_nat size) =? 0)%N eqn:Hp; [|done].
      destruct (offset mod 2 ^ N.of_nat block_shift =? 0)%N eqn:Ha; [|done].
      apply N.eqb_eq in Hp, Ha. apply (Hsize size Hn) in Hp. tauto.
  - intros data Hn. unfold LibcBlockAccessFile.Write. simpl. rewrite Hmask.
    split.
    + intros [Hpow Hal]. apply (Hsize _ Hn) in Hpow.
      unfold bind, DCHECK. rewrite Hpow, Hal. done.
    + intros Hnot. unfold bind, DCHECK.
      destruct (low_bits_clear (N.of_nat (length data)) =? 0)%N eqn:Hp;
        [|done].
      destruct (offset mod 2 ^ N.of_nat block_shift =? 0)%N eqn:Ha; [|done].
      apply N.eqb_eq in Hp, Ha. apply (Hsize _ Hn) in Hp. tauto.
Qed.

Lemma block_access_checks_witness :
  ∃ file,
    LibcBlockAccessFile.new 0 12 open_data_file =
      Some (file, open_data_file) ∧
    block_fp_ file = 0 ∧
    block_size_ file = (2 ^ N.of_nat 12)%N ∧
    (∀ size, (N.of_nat size < 2 ^ 64)%N →
       ((size = 0 ∨ ∃ k, size = 2 ^ k) ∧
        (4096 mod 2 ^ N.of_nat 12 = 0)%N →
        LibcBlockAccessFile.Read file 4096 size open_data_file =
          LibcVfs.ReadLibcFile 0 4096 size open_data_file) ∧
       (¬ ((size = 0 ∨ ∃ k, size = 2 ^ k) ∧
           (4096 mod 2 ^ N.of_nat 12 = 0)%N) →
        LibcBlockAccessFile.Read file 4096 size open_data_file = None)) ∧
    (∀ data, (N.of_nat (length data) < 2 ^ 64)%N →
       ((length data = 0 ∨ ∃ k, length data = 2 ^ k) ∧
        (4096 mod 2 ^ N.of_nat 12 = 0)%N →
        LibcBlockAccessFile.Write file data 4096 open_data_file =
          LibcVfs.WriteLibcFile 0 data 4096 open_data_file) ∧
       (¬ ((length data = 0 ∨ ∃ k, length data = 2 ^ k) ∧
           (4096 mod 2 ^ N.of_nat 12 = 0)%N) →
        LibcBlockAccessFile.Write file data 4096 open_data_file = None)).
Proof.
  apply (block_access_checks 0 12 open_data_file 4096).
  - eexists. apply lookup_insert_eq.
  - lia.
  - reflexivity.
Defined.
